(** * A shallow embedding of the reactive engine of [index.ts]

    The engine keeps two module-level variables ([runningEffects] and
    [Updates]) and a heap of [SignalNode] and [Effect] objects that point at
    each other.  Objects live in two arenas and are named by their index, the
    module-level variables are fields of one [World] record, and every engine
    function is a state transformer over [World] that can finish normally,
    raise a JavaScript exception, or run out of fuel (the engine recurses
    through user callbacks, so termination is not structural).

    User callbacks ([Callback = () => unknown]) are written in a small command
    language whose constructors are exactly the operations a callback can
    perform on the engine: call a reader, call a setter, create a signal, an
    effect or a memo, open a batch, bump a captured counter, throw. *)

From Stdlib Require Import ZArith String List Lia Bool.
From stdpp Require Import base option list.

Local Open Scope string_scope.
Local Open Scope list_scope.
Local Open Scope nat_scope.

(** ** Values and callbacks *)

(** Object references: the index of a signal or of an effect in its arena. *)
Abbreviation sid := nat (only parsing).
Abbreviation eid := nat (only parsing).

Inductive value :=
| VUndefined
| VNum (z : Z)
| VStr (s : string)
| VBool (b : bool).

Definition truthy (v : value) : bool :=
  match v with
  | VUndefined => false
  | VNum z => negb (Z.eqb z 0)
  | VStr s => negb (String.eqb s "")
  | VBool b => b
  end.

Definition js_add (a b : value) : value :=
  match a, b with
  | VNum x, VNum y => VNum (x + y)
  | VStr x, VStr y => VStr (String.append x y)
  | _, _ => VUndefined
  end.

Definition js_mul (a b : value) : value :=
  match a, b with
  | VNum x, VNum y => VNum (x * y)
  | _, _ => VUndefined
  end.

Definition js_gt (a b : value) : value :=
  match a, b with
  | VNum x, VNum y => VBool (Z.gtb x y)
  | _, _ => VBool false
  end.

Definition js_not (a : value) : value := VBool (negb (truthy a)).

(** Expressions of a callback: constants, calls of readers, pure operators
    applied to the values of subexpressions (evaluated left to right), and
    the conditional expression. *)
Inductive expr :=
| EConst (v : value)
| ERead (s : sid)
| EOp1 (f : value → value) (a : expr)
| EOp2 (f : value → value → value) (a b : expr)
| ECond (c a b : expr).

Definition EAdd : expr → expr → expr := EOp2 js_add.
Definition EMul : expr → expr → expr := EOp2 js_mul.
Definition EGt : expr → expr → expr := EOp2 js_gt.
Definition ENot : expr → expr := EOp1 js_not.

Inductive cmd :=
| CSkip
| CSeq (c1 c2 : cmd)
| CExpr (e : expr)
| CIf (e : expr) (c1 c2 : cmd)
| CIncr (x : nat)
| CLog (e : expr)
| CThrow (msg : string)
| CCreateSignal (e : expr)
| CSet (s : sid) (e : expr)
| CCreateEffect (body : cmd)
| CCreateMemo (body : cmd) (result : expr)
| CBatch (body : cmd)
| CUntrack (body : cmd).

(** ** Heap objects ([types.ts]) *)

(** The only value ever stored in [Effect.state] is ['pending']; an absent
    field is [None]. *)
Inductive EffectState := pending.

(** [observers] and [dependencies] are JavaScript [Set]s, kept as lists without
    repetition in insertion order (see [set_add], [set_delete]). *)
Record SignalNode := {
  current : value;
  observers : list eid
}.

(** The [run] field of the source, a closure that calls [runEffect] on the
    effect itself, is read nowhere in the engine and is left out.  [owned] is
    an optional array: absent until the first child is created. *)
Record Effect := {
  fn : cmd;
  dependencies : list sid;
  owner : option eid;
  owned : option (list eid);
  state : option EffectState
}.

(** The heap (two arenas), the two module-level variables of [index.ts], and
    what callbacks can touch outside the engine: the counters they increment
    and the console. *)
Record World := {
  signals : list SignalNode;
  effects : list Effect;
  runningEffects : list eid;
  Updates : option (list eid);
  vars : list Z;
  console : list value
}.

Definition empty_world (nvars : nat) : World :=
  {| signals := []; effects := []; runningEffects := []; Updates := None;
     vars := replicate nvars 0%Z; console := [] |}.

Definition set_signals (f : list SignalNode → list SignalNode) (w : World) : World :=
  {| signals := f (signals w); effects := effects w;
     runningEffects := runningEffects w; Updates := Updates w;
     vars := vars w; console := console w |}.

Definition set_effects (f : list Effect → list Effect) (w : World) : World :=
  {| signals := signals w; effects := f (effects w);
     runningEffects := runningEffects w; Updates := Updates w;
     vars := vars w; console := console w |}.

Definition set_runningEffects (f : list eid → list eid) (w : World) : World :=
  {| signals := signals w; effects := effects w;
     runningEffects := f (runningEffects w); Updates := Updates w;
     vars := vars w; console := console w |}.

Definition set_Updates (u : option (list eid)) (w : World) : World :=
  {| signals := signals w; effects := effects w;
     runningEffects := runningEffects w; Updates := u;
     vars := vars w; console := console w |}.

Definition set_vars (f : list Z → list Z) (w : World) : World :=
  {| signals := signals w; effects := effects w;
     runningEffects := runningEffects w; Updates := Updates w;
     vars := f (vars w); console := console w |}.

Definition set_console (f : list value → list value) (w : World) : World :=
  {| signals := signals w; effects := effects w;
     runningEffects := runningEffects w; Updates := Updates w;
     vars := vars w; console := f (console w) |}.

Definition with_observers (f : list eid → list eid) (n : SignalNode) : SignalNode :=
  {| current := current n; observers := f (observers n) |}.

Definition with_current (v : value) (n : SignalNode) : SignalNode :=
  {| current := v; observers := observers n |}.

Definition with_dependencies (f : list sid → list sid) (e : Effect) : Effect :=
  {| fn := fn e; dependencies := f (dependencies e); owner := owner e;
     owned := owned e; state := state e |}.

Definition with_owned (o : option (list eid)) (e : Effect) : Effect :=
  {| fn := fn e; dependencies := dependencies e; owner := owner e;
     owned := o; state := state e |}.

Definition with_state (s : option EffectState) (e : Effect) : Effect :=
  {| fn := fn e; dependencies := dependencies e; owner := owner e;
     owned := owned e; state := s |}.

(** A JavaScript [Set] iterates in insertion order; deleting an element and
    adding it again moves it to the end. *)

Definition set_has (x : nat) (s : list nat) : bool := existsb (Nat.eqb x) s.

Definition set_add (x : nat) (s : list nat) : list nat :=
  if set_has x s then s else s ++ [x].

Definition set_delete (x : nat) (s : list nat) : list nat :=
  List.filter (fun y => negb (Nat.eqb y x)) s.

(** ** Outcomes *)

Inductive error :=
| TypeError (msg : string)
| UserError (msg : string).

Inductive Res (A : Type) :=
| Ok (a : A) (w : World)
| Exn (e : error) (w : World)
| OutOfFuel.
Arguments Ok {A} a w.
Arguments Exn {A} e w.
Arguments OutOfFuel {A}.

Definition M (A : Type) := World → Res A.

Definition ret {A} (a : A) : M A := fun w => Ok a w.

Definition bind {A B} (m : M A) (k : A → M B) : M B := fun w =>
  match m w with
  | Ok a w' => k a w'
  | Exn e w' => Exn e w'
  | OutOfFuel => OutOfFuel
  end.

Notation "'let*' x ':=' m 'in' k" := (bind m (fun x => k))
  (at level 10, x name, m at level 100, k at level 200).
Notation "m ';;' k" := (bind m (fun _ => k))
  (at level 100, k at level 200, right associativity).

Definition throw {A} (e : error) : M A := fun w => Exn e w.
Definition modify (f : World → World) : M unit := fun w => Ok tt (f w).

(** [try { m } finally { fin }] where [fin] cannot itself fail. *)
Definition try_finally {A} (m : M A) (fin : World → World) : M A := fun w =>
  match m w with
  | Ok a w' => Ok a (fin w')
  | Exn e w' => Exn e (fin w')
  | OutOfFuel => OutOfFuel
  end.

Fixpoint forEach {A} (l : list A) (f : A → M unit) : M unit :=
  match l with
  | [] => ret tt
  | x :: l' => f x ;; forEach l' f
  end.

(** ** The engine ([index.ts]) *)

Definition gets {A} (f : World → A) : M A := fun w => Ok (f w) w.

(** Dereferencing an object reference. In JavaScript a reference always
    points at an object; an index outside the arena stands for [undefined]
    and using it raises a [TypeError]. *)
Definition get_signal (signal : sid) : M SignalNode := fun w =>
  match signals w !! signal with
  | Some node => Ok node w
  | None => Exn (TypeError "signal is undefined") w
  end.

Definition get_effect (effect : eid) : M Effect := fun w =>
  match effects w !! effect with
  | Some e => Ok e w
  | None => Exn (TypeError "effect is undefined") w
  end.

(** Uses of [Updates.length] and [Updates.push] need the array. *)
Definition get_Updates : M (list eid) := fun w =>
  match Updates w with
  | Some q => Ok q w
  | None => Exn (TypeError "Updates is undefined") w
  end.

(** [const getRunningEffect = () => runningEffects[runningEffects.length - 1]] *)
Definition getRunningEffect (w : World) : option eid := last (runningEffects w).

Definition trackEffectDependency (effect : eid) (signal : sid) (w : World) : World :=
  let w1 := set_signals (alter (with_observers (set_add effect)) signal) w in
  set_effects (alter (with_dependencies (set_add signal)) effect) w1.

Definition createSignal (v : value) : M sid :=
  let* signal := gets (fun w => length (signals w)) in
  modify (set_signals (fun l => l ++ [{| current := v; observers := [] |}])) ;;
  ret signal.

(** The reader closure of a signal. *)
Definition read (signal : sid) : M value :=
  get_signal signal ;;
  let* effect := gets getRunningEffect in
  match effect with
  | Some effect => modify (trackEffectDependency effect signal)
  | None => ret tt
  end ;;
  let* node := get_signal signal in
  ret (current node).

(** [Updates.push(observer)] *)
Definition Updates_push (observer : eid) : M unit :=
  let* q := get_Updates in
  modify (set_Updates (Some (q ++ [observer]))).

(** Body of the loop inside the callback that [write] hands to [runUpdates]. *)
Definition schedule_observer (observer : eid) : M unit :=
  let* e := get_effect observer in
  match state e with
  | Some _ => ret tt
  | None =>
      modify (set_effects (alter (with_state (Some pending)) observer)) ;;
      Updates_push observer
  end.

(** [for (const observer of [...signal.observers]) { ... }] *)
Definition schedule (signal : sid) : M unit :=
  let* node := get_signal signal in
  forEach (observers node) schedule_observer.

Fixpoint eval (e : expr) : M value :=
  match e with
  | EConst v => ret v
  | ERead s => read s
  | EOp1 f a => let* x := eval a in ret (f x)
  | EOp2 f a b => let* x := eval a in let* y := eval b in ret (f x y)
  | ECond c a b => let* x := eval c in if truthy x then eval a else eval b
  end.

(** [dep.observers.delete(effect)] *)
Definition unobserve (effect : eid) (dep : sid) : M unit :=
  modify (set_signals (alter (with_observers (set_delete effect)) dep)).

(** [cleanup] recurses through the ownership tree. The loops run over the
    dependencies and the children the effect has when [cleanup] is entered;
    the source iterates the live collections, which the loop bodies do not
    change (they delete from other sets and tear down other effects). *)
Fixpoint cleanup (fuel : nat) (effect : eid) : M unit :=
  match fuel with
  | O => fun _ => OutOfFuel
  | S n =>
      let* e := get_effect effect in
      forEach (dependencies e) (unobserve effect) ;;
      match owned e with
      | Some children =>
          forEach children (cleanup n) ;;
          modify (set_effects (alter (with_owned (Some [])) effect))
      | None => ret tt
      end ;;
      modify (set_effects (alter (with_state None) effect)) ;;
      modify (set_effects (alter (with_dependencies (fun _ => [])) effect))
  end.

Definition new_effect (body : cmd) (o : option eid) : Effect :=
  {| fn := body; dependencies := []; owner := o; owned := None; state := None |}.

(** [owner.owned ||= []; owner.owned.push(effect)] *)
Definition push_owned (effect : eid) (e : Effect) : Effect :=
  with_owned (Some (default [] (owned e) ++ [effect])) e.

(** [runningEffects.push(effect)] and [runningEffects.pop()] *)
Definition push_running (effect : eid) : World → World :=
  set_runningEffects (fun l => l ++ [effect]).

Definition pop_running : World → World :=
  set_runningEffects (fun l => List.removelast l).

(** The functions below call each other through user callbacks; every call
    spends one unit of fuel. No caller of [runUpdates] uses the value it
    returns, so callbacks are computations of type [M unit]. *)
Fixpoint runEffect (fuel : nat) (effect : eid) : M unit :=
  match fuel with
  | O => fun _ => OutOfFuel
  | S n =>
      cleanup n effect ;;
      modify (push_running effect) ;;
      try_finally
        (let* e := get_effect effect in runUpdates n (exec n (fn e)))
        pop_running
  end

with runUpdates (fuel : nat) (callback : M unit) : M unit :=
  match fuel with
  | O => fun _ => OutOfFuel
  | S n =>
      let* u := gets Updates in
      match u with
      | Some _ => callback
      | None =>
          modify (set_Updates (Some [])) ;;
          callback ;;
          flushUpdates n
      end
  end

(** The [while] loop of [flushUpdates], with its cursor. When the slot under
    the cursor is empty the source loops without moving the cursor. *)
with flushLoop (fuel : nat) (flushedIndex : nat) : M unit :=
  match fuel with
  | O => fun _ => OutOfFuel
  | S n =>
      let* q := get_Updates in
      if negb (length q =? 0) && negb (flushedIndex =? length q) then
        match q !! flushedIndex with
        | Some effect => runEffect n effect ;; flushLoop n (S flushedIndex)
        | None => flushLoop n flushedIndex
        end
      else ret tt
  end

with flushUpdates (fuel : nat) : M unit :=
  match fuel with
  | O => fun _ => OutOfFuel
  | S n => flushLoop n 0 ;; modify (set_Updates None)
  end

(** The setter closure of a signal. *)
with write (fuel : nat) (signal : sid) (nextValue : value) : M unit :=
  match fuel with
  | O => fun _ => OutOfFuel
  | S n =>
      get_signal signal ;;
      modify (set_signals (alter (with_current nextValue) signal)) ;;
      let* node := get_signal signal in
      match observers node with
      | [] => ret tt
      | _ :: _ => runUpdates n (schedule signal)
      end
  end

with createEffect (fuel : nat) (body : cmd) : M unit :=
  match fuel with
  | O => fun _ => OutOfFuel
  | S n =>
      let* o := gets getRunningEffect in
      let* effect := gets (fun w => length (effects w)) in
      modify (set_effects (fun l => l ++ [new_effect body o])) ;;
      match o with
      | Some p => modify (set_effects (alter (push_owned effect) p))
      | None => ret tt
      end ;;
      runEffect n effect
  end

(** The callback of the backing effect is [() => set(fn())]: run the body of
    [fn], evaluate what it returns, hand that to the setter. *)
with createMemo (fuel : nat) (body : cmd) (result : expr) : M sid :=
  match fuel with
  | O => fun _ => OutOfFuel
  | S n =>
      let* s := createSignal VUndefined in
      createEffect n (CSeq body (CSet s result)) ;;
      ret s
  end

with batch (fuel : nat) (callback : M unit) : M unit :=
  match fuel with
  | O => fun _ => OutOfFuel
  | S n => runUpdates n callback
  end

(** Running a callback. [index.ts] exports no [untrack]: the binding that
    the test file imports under that name is [undefined], and calling it
    raises a [TypeError] before its argument is looked at. *)
with exec (fuel : nat) (c : cmd) : M unit :=
  match fuel with
  | O => fun _ => OutOfFuel
  | S n =>
      match c with
      | CSkip => ret tt
      | CSeq c1 c2 => exec n c1 ;; exec n c2
      | CExpr e => eval e ;; ret tt
      | CIf e c1 c2 => let* v := eval e in if truthy v then exec n c1 else exec n c2
      | CIncr x => modify (set_vars (alter Z.succ x))
      | CLog e => let* v := eval e in modify (set_console (fun l => l ++ [v]))
      | CThrow msg => throw (UserError msg)
      | CCreateSignal e => let* v := eval e in createSignal v ;; ret tt
      | CSet s e => let* v := eval e in write n s v
      | CCreateEffect body => createEffect n body
      | CCreateMemo body result => createMemo n body result ;; ret tt
      | CBatch body => batch n (exec n body)
      | CUntrack _ => throw (TypeError "untrack is not a function")
      end
  end.

(** The names [index.ts] exports. *)
Definition exports : list string :=
  ["createSignal"; "cleanup"; "createEffect"; "createMemo"; "batch"].

(** A script is the sequence of top-level statements of a caller. *)
Fixpoint runScript (fuel : nat) (script : list cmd) : M unit :=
  match script with
  | [] => ret tt
  | c :: rest => exec fuel c ;; runScript fuel rest
  end.

Definition world_of {A} (r : Res A) : option World :=
  match r with
  | Ok _ w => Some w
  | Exn _ w => Some w
  | OutOfFuel => None
  end.

Definition num (z : Z) : expr := EConst (VNum z).
Definition str (s : string) : expr := EConst (VStr s).

(** * Vocabulary of the specification *)

(** ** Outcomes of a computation *)

(** [wp m w Q E]: if [m] finishes from [w], its outcome satisfies [Q] (normal
    return) or [E] (exception). *)
Definition wp {A} (m : M A) (w : World)
    (Q : A → World → Prop) (E : error → World → Prop) : Prop :=
  match m w with
  | Ok a w' => Q a w'
  | Exn e w' => E e w'
  | OutOfFuel => True
  end.

(** [respects Rok Rexn m]: a normal return of [m] relates the entry and the
    exit world by [Rok], an exception by [Rexn]. *)
Definition respects (Rok Rexn : World → World → Prop) {A} (m : M A) : Prop :=
  ∀ w, wp m w (fun _ w' => Rok w w') (fun _ w' => Rexn w w').

(** ** Relations between the world a call enters and the world it leaves *)

(** Neither module-level variable changes. *)
Definition ctl_eq (w w' : World) : Prop :=
  runningEffects w' = runningEffects w ∧ Updates w' = Updates w.

Definition heap_only {A} (m : M A) : Prop := respects ctl_eq ctl_eq m.

Definition same_stack (w w' : World) : Prop :=
  runningEffects w' = runningEffects w.

Definition stack_safe {A} (m : M A) : Prop := respects same_stack same_stack m.

(** Across a call that returns normally, a closed queue is closed again and
    an open queue has only been appended to. *)
Definition queue_ext (w w' : World) : Prop :=
  match Updates w with
  | None => Updates w' = None
  | Some q => ∃ q', Updates w' = Some (q ++ q')
  end.

Definition any_world (w w' : World) : Prop := True.

Definition queue_safe {A} (m : M A) : Prop := respects queue_ext any_world m.

Definition same_signals (w w' : World) : Prop := signals w' = signals w.

(** Effects are never removed from the arena. *)
Definition grows (w w' : World) : Prop :=
  length (effects w) ≤ length (effects w').

(** Every effect keeps its callback. *)
Definition fn_kept (w w' : World) : Prop :=
  ∀ e eff, effects w !! e = Some eff →
    ∃ eff', effects w' !! e = Some eff' ∧ fn eff' = fn eff.

(** ** Shorthands *)

(** Running a list of effects one after the other, in list order. *)
Fixpoint runAll (fuel : nat) (l : list eid) : M unit :=
  match fuel with
  | O => fun _ => OutOfFuel
  | S n =>
      match l with
      | [] => ret tt
      | effect :: rest => runEffect n effect ;; runAll n rest
      end
  end.

(** The store of a setter: [signal.current = nextValue]. *)
Definition store (signal : sid) (v : value) : World → World :=
  set_signals (alter (with_current v) signal).

(** [effect.state], [None] also when there is no such effect. *)
Definition marker (w : World) (effect : eid) : option EffectState :=
  e ← effects w !! effect; state e.

(** [effect.dependencies] *)
Definition deps_of (w : World) (effect : eid) : option (list sid) :=
  dependencies <$> effects w !! effect.

(** The world an outcome carries (the empty world if fuel ran out). *)
Definition final_world {A} (r : Res A) : World :=
  default (empty_world 0) (world_of r).

(** [set(v)] and [console.log(z)] as statements. *)
Definition setter (signal : sid) (v : value) : cmd := CSet signal (EConst v).

Definition log (z : Z) : cmd := CLog (EConst (VNum z)).

(** A top-level effect at rest: no owner, no children, not marked. *)
Definition quiet_effect (body : cmd) (deps : list sid) : Effect :=
  {| fn := body; dependencies := deps; owner := None; owned := None;
     state := None |}.

(** ** Markers, edges and the invariant of an open queue *)

(** Effect [e] is in the observer set of signal [s]. *)
Definition observes (w : World) (e : eid) (s : sid) : Prop :=
  ∃ node, signals w !! s = Some node ∧ e ∈ observers node.

(** The pending marker of effect [e] is set. *)
Definition is_pending (w : World) (e : eid) : Prop := marker w e = Some pending.

(** Every observer edge has its dependency edge. *)
Definition edges_ok (w : World) : Prop :=
  ∀ e s, observes w e s →
    ∃ eff, effects w !! e = Some eff ∧ s ∈ dependencies eff.

(** The entries of the queue, none when the queue is closed; and those of
    them behind cursor [j], whose run has not started. *)
Definition queue (w : World) : list eid := default [] (Updates w).

Definition unstarted (j : nat) (w : World) : list eid := drop j (queue w).

(** The entries behind the cursor are pairwise distinct; every marked effect
    is one of them; one of them that is not marked (it was torn down by its
    owner while it waited) observes no signal, so no setter can enqueue it
    again before its turn; all of them are effects of the arena. *)
Record queue_ok (j : nat) (w : World) : Prop := {
  qo_cursor : j ≤ length (queue w);
  qo_nodup : NoDup (unstarted j w);
  qo_pending : ∀ e, is_pending w e → e ∈ unstarted j w;
  qo_idle : ∀ e s, e ∈ unstarted j w → ¬ is_pending w e → ¬ observes w e s;
  qo_valid : ∀ e, e ∈ unstarted j w → e < length (effects w)
}.

(** The effect on top of the running stack, the one reads are tracked for,
    exists, and is marked if it waits behind the cursor. *)
Definition top_ok (j : nat) (w : World) : Prop :=
  ∀ t, getRunningEffect w = Some t →
    t < length (effects w) ∧ (t ∈ unstarted j w → is_pending w t).

(** Inside a callback no existing effect that waits behind the cursor loses
    its marker. *)
Definition mono (j : nat) (w w' : World) : Prop :=
  ∀ t, t < length (effects w) →
    (t ∈ unstarted j w → is_pending w t) →
    (t ∈ unstarted j w' → is_pending w' t).

(** What [cleanup] may do: it sets no marker and adds no edge, and an effect
    whose marker it clears is left without edges. *)
Record teardown (w w' : World) : Prop := {
  td_Updates : Updates w' = Updates w;
  td_length : length (effects w') = length (effects w);
  td_pending : ∀ x, is_pending w' x → is_pending w x;
  td_observes : ∀ x s, observes w' x s → observes w x s;
  td_cleared : ∀ x s, is_pending w x → ¬ is_pending w' x → ¬ observes w' x s;
  td_edges : edges_ok w'
}.

(** The invariant a callback can rely on, and what it guarantees on a normal
    return. *)
Definition good (j : nat) (w : World) : Prop :=
  edges_ok w ∧ queue_ok j w ∧ top_ok j w.

Record body_post (j : nat) (w w' : World) : Prop := {
  bp_edges : edges_ok w';
  bp_queue : queue_ok j w';
  bp_mono : mono j w w';
  bp_stack : runningEffects w' = runningEffects w;
  bp_grows : grows w w'
}.

Definition body_rel (w w' : World) : Prop :=
  ∀ j, good j w → body_post j w w'.

Definition body_spec {A} (m : M A) : Prop := respects body_rel any_world m.

(** Steps that change neither queue, stack, markers nor edges. *)
Record inert (w w' : World) : Prop := {
  in_Updates : Updates w' = Updates w;
  in_stack : runningEffects w' = runningEffects w;
  in_marker : ∀ x, marker w' x = marker w x;
  in_observes : ∀ x s, observes w' x s ↔ observes w x s;
  in_edges : edges_ok w → edges_ok w';
  in_grows : grows w w'
}.

(** What holds when the drain is about to run effect [e], the entry just
    before cursor [j]: [e] may be marked, and is not among the entries behind
    the cursor. *)
Record slot_pre (j : nat) (e : eid) (w : World) : Prop := {
  sp_edges : edges_ok w;
  sp_cursor : j ≤ length (queue w);
  sp_nodup : NoDup (unstarted j w);
  sp_fresh : e ∉ unstarted j w;
  sp_pending : ∀ x, is_pending w x → x ∈ unstarted j w ∨ x = e;
  sp_idle : ∀ x s, x ∈ unstarted j w → ¬ is_pending w x → ¬ observes w x s;
  sp_valid : ∀ x, x ∈ unstarted j w → x < length (effects w)
}.

(** The specifications of [runEffect] (for an entry of the queue, and for an
    effect that was just created), of the drain and of the flush, by fuel. *)
Definition slot_spec (n : nat) : Prop :=
  ∀ e j w w', slot_pre j e w → runEffect n e w = Ok tt w' →
    edges_ok w' ∧ queue_ok j w'.

Definition fresh_spec (n : nat) : Prop :=
  ∀ e j w w' eff,
    good j w → e ∉ unstarted j w →
    effects w !! e = Some eff →
    owned eff = None → dependencies eff = [] → state eff = None →
    runEffect n e w = Ok tt w' → body_post j w w'.

Definition loop_spec (n : nat) : Prop :=
  ∀ i w w', edges_ok w → queue_ok i w → is_Some (Updates w) →
    flushLoop n i w = Ok tt w' →
    edges_ok w' ∧ ∀ x, ¬ is_pending w' x.

Definition flush_spec (n : nat) : Prop :=
  ∀ w w', edges_ok w → queue_ok 0 w → is_Some (Updates w) →
    flushUpdates n w = Ok tt w' →
    edges_ok w' ∧ (∀ x, ¬ is_pending w' x) ∧ Updates w' = None.

(** Nothing runs, no queue is open, no computation is marked. *)
Definition quiescent (w : World) : Prop :=
  edges_ok w ∧ runningEffects w = [] ∧ Updates w = None ∧
  ∀ x, ¬ is_pending w x.


(** ** Scenarios *)

(** An effect whose body throws, about to be run below a running parent. *)
Definition failing_world : World :=
  {| signals := [];
     effects := [new_effect CSkip None; new_effect (CThrow "boom") (Some 0)];
     runningEffects := [0]; Updates := Some [1];
     vars := []; console := [] |}.

(** Signals [0] and [1]. Effect [0] reads signal [1]. Effect [1] reads signal
    [0] and copies it into signal [1]. Effect [2] reads signal [0]. Each logs
    its own number plus one. *)
Definition relay_setup : list cmd :=
  [ CCreateSignal (EConst (VNum 0));
    CCreateSignal (EConst (VNum 0));
    CCreateEffect (CSeq (CExpr (ERead 1)) (log 1));
    CCreateEffect (CSeq (log 2) (CSet 1 (ERead 0)));
    CCreateEffect (CSeq (CExpr (ERead 0)) (log 3)) ].

(** The world after the setup, console cleared; and after writing 9 to
    signal [0]. *)
Definition relay_world : World :=
  set_console (fun _ => []) (final_world (runScript 20 relay_setup (empty_world 0))).

Definition relay_written : World :=
  Eval vm_compute in final_world (write 20 0 (VNum 9) relay_world).

(** An effect that reads signal [0] and counts its runs in variable [0]. *)
Definition counter_body : cmd := CSeq (CExpr (ERead 0)) (CIncr 0).

(** The world in which signal [0] holds [v] and the effect has run [n]
    times. *)
Definition counter_world (v : value) (n : Z) : World :=
  {| signals := [{| current := v; observers := [0] |}];
     effects := [{| fn := counter_body; dependencies := [0]; owner := None;
                    owned := None; state := None |}];
     runningEffects := []; Updates := None; vars := [n]; console := [] |}.


(** [batch(() => { set0(x1); set1(x2); })] *)
Definition batch_both (x1 x2 : value) : cmd :=
  CBatch (CSeq (setter 0 x1) (setter 1 x2)).











(** A memo that computes [f] of signal [0]; its backing signal is signal
    [1].  An effect reads the memo.  Both count their runs. *)
Definition read_memo_setup (f : value → value) (v0 : value) : list cmd :=
  [CCreateSignal (EConst v0);
   CCreateMemo (CIncr 0) (EOp1 f (ERead 0));
   CCreateEffect (CSeq (CExpr (ERead 1)) (CIncr 1))].

Definition read_memo_world (f : value → value) (v : value) (n m : Z) : World :=
  {| signals := [{| current := v; observers := [0] |};
                 {| current := f v; observers := [1] |}];
     effects := [quiet_effect (CSeq (CIncr 0) (CSet 1 (EOp1 f (ERead 0)))) [0];
                 quiet_effect (CSeq (CExpr (ERead 1)) (CIncr 1)) [1]];
     runningEffects := []; Updates := None; vars := [n; m]; console := [] |}.

(** [testUntrackScenarios] of the test file. *)
Definition testUntrackScenarios : list cmd :=
  [CCreateSignal (EConst (VStr "John"));
   CCreateSignal (EConst (VStr "Smith"));
   CCreateEffect
     (CSeq (CUntrack (CExpr (EAdd (ERead 0) (ERead 1)))) (CIncr 0));
   setter 0 (VStr "Dor");
   setter 1 (VStr "Mew")].

(** Signal [0] is read by effect [0], which throws once the signal is
    positive.  Signal [1] is read by effect [1].  Both count their runs. *)
Definition fragile_setup : list cmd :=
  [CCreateSignal (EConst (VNum 0));
   CCreateEffect
     (CSeq (CIncr 0)
        (CIf (EGt (ERead 0) (EConst (VNum 0))) (CThrow "boom") CSkip));
   CCreateSignal (EConst (VNum 0));
   CCreateEffect (CSeq (CExpr (ERead 1)) (CIncr 1))].

(** The worlds after the setup, after the failing write to signal [0], and
    after the following write to signal [1]. *)
Definition fragile_world : World :=
  Eval vm_compute in final_world (runScript 20 fragile_setup (empty_world 2)).

Definition fragile_failed : World :=
  Eval vm_compute in final_world (exec 20 (setter 0 (VNum 1)) fragile_world).

Definition fragile_stuck : World :=
  Eval vm_compute in final_world (exec 20 (setter 1 (VNum 7)) fragile_failed).







(** ** Scheduling order *)

(** The pending marker of effect [o] is not set. *)
Definition unmarked (w : World) (o : eid) : bool :=
  match marker w o with
  | None => true
  | Some _ => false
  end.

(** ** Nested effects; a memo and its reader *)

(** The [nested] scenario of the test file: an effect that reads signal [0]
    and creates, on every run, an effect that reads signal [1].  Variable
    [0] counts the runs of the outer body, variable [1] those of the inner
    body. *)
Definition inner_body : cmd := CSeq (CExpr (ERead 1)) (CIncr 1).

Definition outer_body : cmd :=
  CSeq (CExpr (ERead 0)) (CSeq (CCreateEffect inner_body) (CIncr 0)).

Definition nested_setup (c0 s0 : value) : list cmd :=
  [CCreateSignal (EConst c0); CCreateSignal (EConst s0);
   CCreateEffect outer_body].

Definition child_effect (deps : list sid) : Effect :=
  {| fn := inner_body; dependencies := deps; owner := Some 0; owned := None;
     state := None |}.

Definition parent_effect (children : list eid) : Effect :=
  {| fn := outer_body; dependencies := [0]; owner := None;
     owned := Some children; state := None |}.

(** After the setup: the outer effect owns the inner one. *)
Definition nested_world (c s : value) (n m : Z) : World :=
  {| signals := [{| current := c; observers := [0] |};
                 {| current := s; observers := [1] |}];
     effects := [parent_effect [1]; child_effect [1]];
     runningEffects := []; Updates := None; vars := [n; m]; console := [] |}.

(** After one more run of the outer effect: the first child is torn down,
    a second one has taken its place. *)
Definition nested_rerun (c s : value) (n m : Z) : World :=
  {| signals := [{| current := c; observers := [0] |};
                 {| current := s; observers := [2] |}];
     effects := [parent_effect [2]; child_effect []; child_effect [1]];
     runningEffects := []; Updates := None; vars := [n; m]; console := [] |}.

(** After a batch that wrote both signals: the first child, torn down while
    it waited in the queue, has run in its slot and observes signal [1]
    again, beside the second child. *)
Definition nested_revived (c s : value) (n m : Z) : World :=
  {| signals := [{| current := c; observers := [0] |};
                 {| current := s; observers := [2; 1] |}];
     effects := [parent_effect [2]; child_effect [1]; child_effect [1]];
     runningEffects := []; Updates := None; vars := [n; m]; console := [] |}.

(** The same after one more run of the outer effect: the second child is
    torn down, a third one is created, the first child still observes. *)
Definition nested_stray (c s : value) (n m : Z) : World :=
  {| signals := [{| current := c; observers := [0] |};
                 {| current := s; observers := [1; 3] |}];
     effects := [parent_effect [3]; child_effect [1]; child_effect [];
                 child_effect [1]];
     runningEffects := []; Updates := None; vars := [n; m]; console := [] |}.

(** The shape of the batching scenario of the test file: a memo over signals
    [0] and [1] (its backing signal is signal [2]) and an effect that reads
    the memo and the two signals, in this order; here the effect prints what
    it reads.  Variable [0] counts the computations of the memo, variable
    [1] the runs of the effect. *)
Definition board_body : cmd :=
  CSeq (CLog (ERead 2)) (CSeq (CLog (ERead 0)) (CSeq (CLog (ERead 1)) (CIncr 1))).

Definition board_setup (g : value → value → value) (v1 v2 : value) : list cmd :=
  [CCreateSignal (EConst v1); CCreateSignal (EConst v2);
   CCreateMemo (CIncr 0) (EOp2 g (ERead 0) (ERead 1));
   CCreateEffect board_body].

Definition board_world (g : value → value → value) (v1 v2 : value)
    (n m : Z) (out : list value) : World :=
  {| signals := [{| current := v1; observers := [0; 1] |};
                 {| current := v2; observers := [0; 1] |};
                 {| current := g v1 v2; observers := [1] |}];
     effects := [quiet_effect
                   (CSeq (CIncr 0) (CSet 2 (EOp2 g (ERead 0) (ERead 1))))
                   [0; 1];
                 quiet_effect board_body [2; 0; 1]];
     runningEffects := []; Updates := None; vars := [n; m]; console := out |}.

(** One update from outside: a batch that writes both signals, or one
    write to either of them. *)
Inductive update :=
| UBoth (x1 x2 : value)
| UFirst (x : value)
| USecond (x : value).

Definition update_cmd (u : update) : cmd :=
  match u with
  | UBoth x1 x2 => batch_both x1 x2
  | UFirst x => setter 0 x
  | USecond x => setter 1 x
  end.

Definition updated (p : value * value) (u : update) : value * value :=
  match u with
  | UBoth x1 x2 => (x1, x2)
  | UFirst x => (x, snd p)
  | USecond x => (fst p, x)
  end.

(** What one run of the effect prints when the signals hold [p]. *)
Definition board_line (g : value → value → value) (p : value * value) : list value :=
  [g (fst p) (snd p); fst p; snd p].

Fixpoint board_lines (g : value → value → value) (p : value * value)
    (us : list update) : list value :=
  match us with
  | [] => []
  | u :: rest => board_line g (updated p u) ++ board_lines g (updated p u) rest
  end.

(** ** Dependency edges, ownership and disposal *)

(** Signal [s] is in the dependency set of effect [e]. *)
Definition depends (w : World) (e : eid) (s : sid) : Prop :=
  ∃ eff, effects w !! e = Some eff ∧ s ∈ dependencies eff.

(** Every dependency edge has its observer edge. *)
Definition deps_ok (w : World) : Prop :=
  ∀ e s, depends w e s → observes w e s.

(** [effect.owned], empty when the field is absent or there is no such
    effect; [effect.owner]. *)
Definition children_of (w : World) (p : eid) : list eid :=
  default [] (eff ← effects w !! p; owned eff).

Definition owner_of (w : World) (c : eid) : option eid :=
  eff ← effects w !! c; owner eff.

Definition owns (w : World) (p c : eid) : Prop := c ∈ children_of w p.

(** An owned effect was created after its owner and names it in its
    [owner] field. *)
Definition forest (w : World) : Prop :=
  ∀ p c, owns w p c → p < c ∧ owner_of w c = Some p.

(** The running stack holds effects of the arena. *)
Definition stack_valid (w : World) : Prop :=
  ∀ t, t ∈ runningEffects w → t < length (effects w).

(** The three together: what every engine call keeps on a normal return. *)
Record sound (w : World) : Prop := {
  so_deps : deps_ok w;
  so_forest : forest w;
  so_stack : stack_valid w
}.

(** A step that leaves a sound world sound. *)
Definition keeps_sound (w w' : World) : Prop := sound w → sound w'.

(** What a teardown does to the ownership tree: it only removes edges. *)
Record prunes (w w' : World) : Prop := {
  pr_length : length (effects w') = length (effects w);
  pr_stack : runningEffects w' = runningEffects w;
  pr_owns : ∀ p c, owns w' p c → owns w p c;
  pr_owner : ∀ c, owner_of w' c = owner_of w c
}.

(** [deps_ok] for the edges of one effect. *)
Definition deps_ok_at (x : eid) (w : World) : Prop :=
  ∀ s, depends w x s → observes w x s.

(** A computation that, when it returns, leaves a sound world sound. *)
Definition sound_safe {A} (m : M A) : Prop := respects keeps_sound any_world m.

(** [x] is [e] or is owned, through any number of owners, by [e]. *)
Inductive descends (w : World) : eid → eid → Prop :=
| descends_self e : descends w e e
| descends_child p c x : owns w p c → descends w c x → descends w p x.

(** An effect that has been torn down: no dependency, no marker, in no
    observer set, no children. *)
Record disposed (w : World) (x : eid) : Prop := {
  di_deps : deps_of w x = Some [];
  di_marker : marker w x = None;
  di_observes : ∀ s, ¬ observes w x s;
  di_owns : ∀ c, ¬ owns w x c
}.

(** Dependency sets that are empty stay empty. *)
Definition fades (w w' : World) : Prop :=
  ∀ x, deps_of w x = Some [] → deps_of w' x = Some [].

(** Relative to the tree of [w0]: every effect still has the children it
    had, or all of its descendants are disposed. *)
Definition kept_or_disposed (w0 w : World) : Prop :=
  ∀ y, (∀ c, owns w0 y c → owns w y c) ∨ (∀ x, descends w0 y x → disposed w x).

(** ** Retired effects *)

(** A disposed effect that is neither waiting in the queue nor running. *)
Record retired (e : eid) (w : World) : Prop := {
  re_disposed : disposed w e;
  re_queue : e ∉ queue w;
  re_stack : e ∉ runningEffects w
}.

(** A step that leaves a retired effect retired, with its record untouched. *)
Definition leaves_retired (e : eid) (w w' : World) : Prop :=
  retired e w → retired e w' ∧ effects w' !! e = effects w !! e.

(** A computation all of whose outcomes leave effect [e] retired. *)
Definition retired_safe (e : eid) {A} (m : M A) : Prop :=
  respects (leaves_retired e) (leaves_retired e) m.

(** ** Fuel; an effect that feeds itself *)

(** [m'] is [m] given more fuel: whenever [m] finishes, [m'] finishes in the
    same way. *)
Definition fuel_le {A} (m m' : M A) : Prop :=
  ∀ w, m w ≠ OutOfFuel → m' w = m w.

(** An effect that writes to signal [0] a function of what it reads
    there. *)
Definition feedback_body (f : value → value) : cmd :=
  CSet 0 (EOp1 f (ERead 0)).

Definition feedback_setup (f : value → value) (v0 : value) : list cmd :=
  [CCreateSignal (EConst v0); CCreateEffect (feedback_body f)].

(** The world in which the callback of the first run starts, and the world
    at each turn of the drain that follows: the effect is marked, and every
    entry of the queue is the effect. *)
Definition feedback_open (f : value → value) (v : value) : World :=
  {| signals := [{| current := v; observers := [] |}];
     effects := [{| fn := feedback_body f; dependencies := []; owner := None;
                    owned := None; state := None |}];
     runningEffects := [0]; Updates := Some []; vars := []; console := [] |}.

Definition feedback_world (f : value → value) (v : value) (q : list eid) : World :=
  {| signals := [{| current := v; observers := [0] |}];
     effects := [{| fn := feedback_body f; dependencies := [0]; owner := None;
                    owned := None; state := Some pending |}];
     runningEffects := [0]; Updates := Some q; vars := []; console := [] |}.

(** The heap just before the first run of the effect. *)
Definition feedback_fresh (f : value → value) (v : value) : World :=
  {| signals := [{| current := v; observers := [] |}];
     effects := [new_effect (feedback_body f) None];
     runningEffects := []; Updates := None; vars := []; console := [] |}.

(** ** A memo with a switch; observer sets *)

(** The memo scenario of the test file: signals [0] (first name), [1] (last
    name) and [2] (a switch); a memo whose value is the first name when the
    switch is off and is computed by [g] from both names when it is on (its
    backing signal is signal [3]); an effect that reads the memo.  Variable
    [0] counts the computations of the memo, variable [1] the runs of the
    effect. *)
Definition name_expr (g : value → value → value) : expr :=
  ECond (ENot (ERead 2)) (ERead 0) (EOp2 g (ERead 0) (ERead 1)).

Definition name_reader : cmd := CSeq (CExpr (ERead 3)) (CIncr 1).

Definition name_memo_setup (g : value → value → value) (fn ln : value) : list cmd :=
  [CCreateSignal (EConst fn); CCreateSignal (EConst ln);
   CCreateSignal (EConst (VBool true));
   CCreateMemo (CIncr 0) (name_expr g)].

Definition name_setup (g : value → value → value) (fn ln : value) (k : nat) : list cmd :=
  name_memo_setup g fn ln
  ++ replicate k (CExpr (ERead 3))
  ++ [CCreateEffect name_reader].

Definition name_memo_world (g : value → value → value) (fn ln : value) : World :=
  {| signals := [{| current := fn; observers := [0] |};
                 {| current := ln; observers := [0] |};
                 {| current := VBool true; observers := [0] |};
                 {| current := g fn ln; observers := [] |}];
     effects := [quiet_effect (CSeq (CIncr 0) (CSet 3 (name_expr g))) [2; 0; 1]];
     runningEffects := []; Updates := None; vars := [1%Z; 0%Z]; console := [] |}.

Definition name_world (g : value → value → value) (fn ln : value)
    (shown : bool) (n m : Z) : World :=
  {| signals := [{| current := fn; observers := [0] |};
                 {| current := ln; observers := if shown then [0] else [] |};
                 {| current := VBool shown; observers := [0] |};
                 {| current := if shown then g fn ln else fn;
                    observers := [1] |}];
     effects := [quiet_effect (CSeq (CIncr 0) (CSet 3 (name_expr g)))
                   (if shown then [2; 0; 1] else [2; 0]);
                 quiet_effect name_reader [3]];
     runningEffects := []; Updates := None; vars := [n; m]; console := [] |}.

(** Observer sets hold no effect twice. *)
Definition sets_ok (w : World) : Prop :=
  ∀ s node, signals w !! s = Some node → NoDup (observers node).

(** A step that keeps them so, and a computation all of whose outcomes do. *)
Definition keeps_sets (w w' : World) : Prop := sets_ok w → sets_ok w'.

Definition sets_safe {A} (m : M A) : Prop := respects keeps_sets keeps_sets m.

(** * Lemmas *)

(** ** Reasoning about outcomes *)

Lemma wp_ok {A} (m : M A) w Q E a w' : wp m w Q E → m w = Ok a w' → Q a w'.
Proof. unfold wp. intros H Hm. now rewrite Hm in H. Qed.

Lemma wp_exn {A} (m : M A) w Q E e w' : wp m w Q E → m w = Exn e w' → E e w'.
Proof. unfold wp. intros H Hm. now rewrite Hm in H. Qed.

Lemma wp_mono {A} (m : M A) w (Q Q' : A → World → Prop) (E E' : error → World → Prop) :
  wp m w Q E → (∀ a w', Q a w' → Q' a w') → (∀ e w', E e w' → E' e w') →
  wp m w Q' E'.
Proof. unfold wp. destruct (m w); auto. Qed.

Lemma wp_ret {A} (a : A) w (Q : A → World → Prop) E : Q a w → wp (ret a) w Q E.
Proof. auto. Qed.

Lemma wp_throw {A} e w (Q : A → World → Prop) (E : error → World → Prop) :
  E e w → wp (throw e) w Q E.
Proof. auto. Qed.

Lemma wp_modify f w (Q : unit → World → Prop) E : Q tt (f w) → wp (modify f) w Q E.
Proof. auto. Qed.

Lemma wp_bind {A B} (m : M A) (k : A → M B) w Q E :
  wp m w (fun a w1 => wp (k a) w1 Q E) E → wp (bind m k) w Q E.
Proof. unfold wp, bind. destruct (m w); auto. Qed.

Lemma wp_try_finally {A} (m : M A) fin w Q E :
  wp m w (fun a w1 => Q a (fin w1)) (fun e w1 => E e (fin w1)) →
  wp (try_finally m fin) w Q E.
Proof. unfold wp, try_finally. destruct (m w); auto. Qed.

Lemma bind_ok {A B} (m : M A) (k : A → M B) w b w' :
  bind m k w = Ok b w' → ∃ a w1, m w = Ok a w1 ∧ k a w1 = Ok b w'.
Proof. unfold bind. destruct (m w); try discriminate. eauto. Qed.

Section Respects.
Variables (Rok Rexn : World → World → Prop).

Hypothesis Rok_refl : ∀ w, Rok w w.
Hypothesis Rok_trans : ∀ w1 w2 w3, Rok w1 w2 → Rok w2 w3 → Rok w1 w3.
Hypothesis Rexn_refl : ∀ w, Rexn w w.
Hypothesis Rexn_trans : ∀ w1 w2 w3, Rok w1 w2 → Rexn w2 w3 → Rexn w1 w3.

Lemma respects_ret {A} (a : A) : respects Rok Rexn (ret a).
Proof. intros w. apply wp_ret, Rok_refl. Qed.

Lemma respects_throw {A} e : respects Rok Rexn (@throw A e).
Proof. intros w. apply wp_throw, Rexn_refl. Qed.

Lemma respects_modify f : (∀ w, Rok w (f w)) → respects Rok Rexn (modify f).
Proof. intros H w. apply wp_modify, H. Qed.

Lemma respects_bind {A B} (m : M A) (k : A → M B) :
  respects Rok Rexn m → (∀ a, respects Rok Rexn (k a)) → respects Rok Rexn (bind m k).
Proof.
  intros Hm Hk w. unfold wp, bind.
  specialize (Hm w). unfold wp in Hm.
  destruct (m w) as [a w1|e w1|]; auto.
  specialize (Hk a w1). unfold wp in Hk.
  destruct (k a w1); eauto.
Qed.

Lemma respects_forEach {A} (l : list A) (f : A → M unit) :
  (∀ x, x ∈ l → respects Rok Rexn (f x)) → respects Rok Rexn (forEach l f).
Proof.
  induction l as [|x l IH]; intros H; simpl.
  - apply respects_ret.
  - apply respects_bind; [apply H; left | intros _; apply IH].
    intros y Hy. apply H. now right.
Qed.

Lemma respects_pre {A} (m : M A) (f : World → World) :
  (∀ w, Rok w (f w)) → respects Rok Rexn m → respects Rok Rexn (fun w => m (f w)).
Proof.
  intros Hf Hm w. unfold wp. specialize (Hm (f w)). unfold wp in Hm.
  destruct (m (f w)); eauto.
Qed.

Lemma respects_if {A} (b : bool) (m1 m2 : M A) :
  respects Rok Rexn m1 → respects Rok Rexn m2 → respects Rok Rexn (if b then m1 else m2).
Proof. now destruct b. Qed.

Lemma respects_gets {A} (f : World → A) : respects Rok Rexn (gets f).
Proof. intros w. apply Rok_refl. Qed.

Lemma respects_get_signal s : respects Rok Rexn (get_signal s).
Proof. intros w. unfold wp, get_signal. destruct (signals w !! s); auto. Qed.

Lemma respects_get_effect e : respects Rok Rexn (get_effect e).
Proof. intros w. unfold wp, get_effect. destruct (effects w !! e); auto. Qed.

Lemma respects_get_Updates : respects Rok Rexn get_Updates.
Proof. intros w. unfold wp, get_Updates. destruct (Updates w); auto. Qed.

Lemma respects_try_finally {A} (m : M A) fin :
  (∀ w, wp m w (fun _ w' => Rok w (fin w')) (fun _ w' => Rexn w (fin w'))) →
  respects Rok Rexn (try_finally m fin).
Proof. intros H w. apply wp_try_finally, H. Qed.
End Respects.

Lemma respects_weaken {A} (Rok Rexn Rok' Rexn' : World → World → Prop) (m : M A) :
  (∀ w w', Rok w w' → Rok' w w') → (∀ w w', Rexn w w' → Rexn' w w') →
  respects Rok Rexn m → respects Rok' Rexn' m.
Proof. intros H1 H2 Hm w. eapply wp_mono; [apply Hm | |]; simpl; auto. Qed.

(** ** Steps that touch the heap only *)

Lemma ctl_eq_refl w : ctl_eq w w.
Proof. now split. Qed.

Lemma ctl_eq_trans w1 w2 w3 : ctl_eq w1 w2 → ctl_eq w2 w3 → ctl_eq w1 w3.
Proof. unfold ctl_eq. intros [-> ->] [-> ->]. now split. Qed.

(** Decomposes a goal [respects Rok Rexn m] along the structure of [m];
    [pre] solves the side conditions of the relation. *)
Ltac respects_step pre :=
  lazymatch goal with
  | H : respects _ _ ?m |- respects _ _ ?m => exact H
  | |- respects _ _ (ret _) => apply respects_ret; pre
  | |- respects _ _ (throw _) => apply respects_throw; pre
  | |- respects _ _ (gets _) => apply respects_gets; pre
  | |- respects _ _ (get_signal _) => apply respects_get_signal; pre
  | |- respects _ _ (get_effect _) => apply respects_get_effect; pre
  | |- respects _ _ get_Updates => apply respects_get_Updates; pre
  | |- respects _ _ (modify _) => apply respects_modify; pre
  | |- respects _ _ (bind _ _) =>
      apply respects_bind; [pre | pre | | intros ?; cbv beta]
  | |- respects _ _ (forEach _ _) =>
      apply respects_forEach; [pre | pre | pre | intros ? ?; cbv beta]
  | |- respects _ _ (match ?x with _ => _ end) => destruct x
  end.

Ltac heap_pre :=
  first [ exact ctl_eq_refl | exact ctl_eq_trans
        | intros; split; reflexivity ].

Lemma read_heap_only s : heap_only (read s).
Proof. unfold heap_only, read. repeat respects_step heap_pre. Qed.

Lemma createSignal_heap_only v : heap_only (createSignal v).
Proof. unfold heap_only, createSignal. repeat respects_step heap_pre. Qed.

Lemma eval_heap_only e : heap_only (eval e).
Proof.
  unfold heap_only.
  induction e; simpl; repeat respects_step heap_pre; apply read_heap_only.
Qed.

Lemma cleanup_heap_only n effect : heap_only (cleanup n effect).
Proof.
  unfold heap_only. revert effect.
  induction n as [|n IH]; intros effect; [intros w; exact I|].
  simpl. unfold unobserve. repeat respects_step heap_pre. apply IH.
Qed.

(** ** The running stack is restored by every engine call *)

Lemma same_stack_refl w : same_stack w w.
Proof. reflexivity. Qed.

Lemma same_stack_trans w1 w2 w3 :
  same_stack w1 w2 → same_stack w2 w3 → same_stack w1 w3.
Proof. unfold same_stack. congruence. Qed.

Lemma heap_only_stack_safe {A} (m : M A) : heap_only m → stack_safe m.
Proof. apply respects_weaken; intros w w' [H _]; exact H. Qed.

Ltac stack_pre :=
  first [ exact same_stack_refl | exact same_stack_trans
        | intros; reflexivity ].

(** [push; try { body } finally { pop }] around a body that restores the
    stack restores the stack, whichever way the body ends. *)
Lemma bracket_stack_safe {A} (body : M A) effect :
  stack_safe body →
  stack_safe (modify (push_running effect) ;; try_finally body pop_running).
Proof.
  intros Hb w. apply wp_bind, wp_modify, wp_try_finally.
  eapply wp_mono; [apply Hb | |]; simpl; intros _ w' Hw';
    unfold same_stack in *; simpl; rewrite Hw'; simpl;
    apply removelast_last.
Qed.

Lemma schedule_stack_safe s : stack_safe (schedule s).
Proof.
  unfold stack_safe, schedule, schedule_observer, Updates_push.
  repeat respects_step stack_pre.
Qed.

Lemma engine_stack_safe n :
  (∀ effect, stack_safe (runEffect n effect)) ∧
  (∀ cb, stack_safe cb → stack_safe (runUpdates n cb)) ∧
  (∀ i, stack_safe (flushLoop n i)) ∧
  stack_safe (flushUpdates n) ∧
  (∀ s v, stack_safe (write n s v)) ∧
  (∀ body, stack_safe (createEffect n body)) ∧
  (∀ body r, stack_safe (createMemo n body r)) ∧
  (∀ cb, stack_safe cb → stack_safe (batch n cb)) ∧
  (∀ c, stack_safe (exec n c)).
Proof.
  induction n as [|n (IHrun & IHupd & IHloop & IHflush & IHwrite & IHeff & IHmemo & IHbatch & IHexec)].
  { repeat split; intros; intros w; exact I. }
  assert (Hrun : ∀ effect, stack_safe (runEffect (S n) effect)).
  { intros effect. simpl. apply respects_bind; try stack_pre.
    - apply heap_only_stack_safe, cleanup_heap_only.
    - intros _. apply bracket_stack_safe.
      unfold stack_safe. repeat respects_step stack_pre.
      apply IHupd, IHexec. }
  assert (Hupd : ∀ cb, stack_safe cb → stack_safe (runUpdates (S n) cb)).
  { intros cb Hcb. simpl. unfold stack_safe in *.
    repeat respects_step stack_pre. }
  repeat split; auto.
  - intros i. simpl. unfold stack_safe in *. repeat respects_step stack_pre; auto.
  - simpl. unfold stack_safe in *. repeat respects_step stack_pre; auto.
  - intros s v. simpl. unfold stack_safe in *. repeat respects_step stack_pre.
    apply IHupd, schedule_stack_safe.
  - intros body. simpl. unfold stack_safe in *. repeat respects_step stack_pre; auto.
  - intros body r. simpl. unfold stack_safe in *.
    repeat respects_step stack_pre; auto.
    apply heap_only_stack_safe, createSignal_heap_only.
  - intros c. destruct c; simpl; unfold stack_safe in *;
      repeat respects_step stack_pre; auto;
      try (apply heap_only_stack_safe, eval_heap_only);
      try (apply heap_only_stack_safe, createSignal_heap_only).
Qed.

(** ** The flush queue only grows while it is open *)

Lemma queue_ext_refl w : queue_ext w w.
Proof.
  unfold queue_ext. destruct (Updates w) as [q|]; [|reflexivity].
  exists []. now rewrite app_nil_r.
Qed.

Lemma queue_ext_trans w1 w2 w3 :
  queue_ext w1 w2 → queue_ext w2 w3 → queue_ext w1 w3.
Proof.
  unfold queue_ext. destruct (Updates w1) as [q|].
  - intros [q1 ->] [q2 ->]. exists (q1 ++ q2). now rewrite app_assoc.
  - now intros ->.
Qed.

Lemma queue_ext_same w w' : Updates w' = Updates w → queue_ext w w'.
Proof. unfold queue_ext. intros ->. apply queue_ext_refl. Qed.

Lemma any_world_refl w : any_world w w.
Proof. exact I. Qed.

Lemma any_world_trans w1 w2 w3 : queue_ext w1 w2 → any_world w2 w3 → any_world w1 w3.
Proof. intros _ _. exact I. Qed.

Lemma heap_only_queue_safe {A} (m : M A) : heap_only m → queue_safe m.
Proof.
  apply respects_weaken; [|intros; exact I].
  intros w w' [_ H]. now apply queue_ext_same.
Qed.

Ltac queue_pre :=
  first [ exact queue_ext_refl | exact queue_ext_trans
        | exact any_world_refl | exact any_world_trans
        | intros; apply queue_ext_same; reflexivity ].

Lemma Updates_push_queue_safe x : queue_safe (Updates_push x).
Proof.
  intros w. unfold wp, Updates_push, bind, get_Updates, modify.
  destruct (Updates w) as [q|] eqn:Hq; [|exact I].
  unfold queue_ext. rewrite Hq. simpl. eauto.
Qed.

Lemma schedule_queue_safe s : queue_safe (schedule s).
Proof.
  unfold queue_safe, schedule, schedule_observer.
  repeat respects_step queue_pre. apply Updates_push_queue_safe.
Qed.

Lemma wp_trivial {A} (m : M A) w : wp m w (fun _ _ => True) (fun _ _ => True).
Proof. unfold wp. now destruct (m w). Qed.

(** A flush always leaves the queue closed. *)
Lemma flushUpdates_closes n w :
  wp (flushUpdates n) w (fun _ w' => Updates w' = None) (fun _ _ => True).
Proof.
  destruct n as [|n]; [exact I|]. simpl. apply wp_bind.
  eapply wp_mono; [apply wp_trivial | |]; simpl; [|auto].
  intros. now apply wp_modify.
Qed.

Lemma engine_queue_safe n :
  (∀ effect, queue_safe (runEffect n effect)) ∧
  (∀ cb, queue_safe cb → queue_safe (runUpdates n cb)) ∧
  (∀ i, queue_safe (flushLoop n i)) ∧
  (∀ s v, queue_safe (write n s v)) ∧
  (∀ body, queue_safe (createEffect n body)) ∧
  (∀ body r, queue_safe (createMemo n body r)) ∧
  (∀ cb, queue_safe cb → queue_safe (batch n cb)) ∧
  (∀ c, queue_safe (exec n c)).
Proof.
  induction n as [|n (IHrun & IHupd & IHloop & IHwrite & IHeff & IHmemo & IHbatch & IHexec)].
  { repeat split; intros; intros w; exact I. }
  assert (Hrun : ∀ effect, queue_safe (runEffect (S n) effect)).
  { intros effect. simpl. unfold queue_safe in *.
    repeat respects_step queue_pre.
    - apply heap_only_queue_safe, cleanup_heap_only.
    - apply respects_try_finally. intros w.
      eapply wp_mono; [| |intros; exact I].
      + apply respects_bind with (Rok := queue_ext) (Rexn := any_world);
          try queue_pre.
        * apply respects_get_effect; queue_pre.
        * intros e. apply IHupd, IHexec.
      + simpl. intros _ w' H. exact H. }
  assert (Hupd : ∀ cb, queue_safe cb → queue_safe (runUpdates (S n) cb)).
  { intros cb Hcb w. simpl. apply wp_bind. unfold gets, wp at 1.
    destruct (Updates w) as [q|] eqn:Hq; [apply Hcb|].
    apply wp_bind, wp_modify, wp_bind.
    eapply wp_mono; [apply wp_trivial | |]; simpl; [|auto].
    intros _ w1 _.
    eapply wp_mono; [apply flushUpdates_closes | |]; simpl; [|auto].
    intros _ w2 H2. unfold queue_ext. now rewrite Hq. }
  repeat split; auto.
  - intros i. simpl. unfold queue_safe in *. repeat respects_step queue_pre; auto.
  - intros s v. simpl. unfold queue_safe in *. repeat respects_step queue_pre.
    apply IHupd, schedule_queue_safe.
  - intros body. simpl. unfold queue_safe in *. repeat respects_step queue_pre; auto.
  - intros body r. simpl. unfold queue_safe in *.
    repeat respects_step queue_pre; auto.
    apply heap_only_queue_safe, createSignal_heap_only.
  - intros c. destruct c; simpl; unfold queue_safe in *;
      repeat respects_step queue_pre; auto;
      try (apply heap_only_queue_safe, eval_heap_only);
      try (apply heap_only_queue_safe, createSignal_heap_only).
Qed.

(** ** Scripts *)

Lemma unit_eta (u : unit) : u = tt.
Proof. now destruct u. Qed.

Lemma runScript_app fuel (p1 p2 : list cmd) w :
  runScript fuel (p1 ++ p2) w = (runScript fuel p1 ;; runScript fuel p2) w.
Proof.
  revert w. induction p1 as [|c p1 IH]; intros w; simpl.
  - reflexivity.
  - unfold bind. destruct (exec fuel c w) as [u w1|e w1|]; auto.
Qed.

(** ** The drain runs the queue in order *)

(** A cursor past the end of a non-empty queue never finds an effect: the
    loop spins without returning. *)
Lemma flushLoop_spins n i w q :
  Updates w = Some q → q !! i = None →
  negb (length q =? 0) && negb (i =? length q) = true →
  flushLoop n i w = OutOfFuel.
Proof.
  intros Hq Hi Hc. induction n as [|n IH]; [reflexivity|].
  simpl. unfold bind, get_Updates. rewrite Hq, Hc, Hi. exact IH.
Qed.

(** The drain, from cursor [i], is the run of the entries of the final queue
    from [i] on, in queue order; the final queue extends the queue the drain
    started with. *)
Lemma flushLoop_runs_queue n : ∀ i w q w',
  Updates w = Some q → flushLoop n i w = Ok tt w' →
  ∃ qf, Updates w' = Some qf ∧ q `prefix_of` qf ∧
        runAll n (drop i qf) w = Ok tt w'.
Proof.
  induction n as [|n IH]; intros i w q w' Hq Hloop; [discriminate|].
  simpl in Hloop. unfold bind at 1, get_Updates in Hloop. rewrite Hq in Hloop.
  destruct (negb (length q =? 0) && negb (i =? length q)) eqn:Hc.
  - destruct (q !! i) as [effect|] eqn:Hi.
    + apply bind_ok in Hloop as (u & w1 & Hrun & Hrest).
      destruct (engine_queue_safe n) as (Hsafe & _).
      pose proof (wp_ok _ _ _ _ _ _ (Hsafe effect w) Hrun) as Hext.
      unfold queue_ext in Hext. rewrite Hq in Hext. destruct Hext as [q1 Hq1].
      destruct (IH _ _ _ _ Hq1 Hrest) as (qf & Hqf & Hpre & Hall).
      exists qf. split; [exact Hqf|].
      assert (Hpre' : q `prefix_of` qf).
      { etrans; [|exact Hpre]. now apply prefix_app_r. }
      split; [exact Hpre'|].
      assert (Hlook : qf !! i = Some effect).
      { eapply prefix_lookup_Some; eauto. }
      rewrite (drop_S _ _ _ Hlook). simpl. unfold bind.
      rewrite Hrun. exact Hall.
    + rewrite (flushLoop_spins n i w q Hq Hi Hc) in Hloop. discriminate.
  - inversion Hloop; subst w'. exists q. split; [exact Hq|]. split; [done|].
    assert (Hd : drop i q = []).
    { apply andb_false_iff in Hc as [Hc|Hc]; apply negb_false_iff in Hc;
        apply Nat.eqb_eq in Hc.
      - destruct q; [apply drop_nil | discriminate].
      - subst i. apply drop_all. }
    rewrite Hd. reflexivity.
Qed.

Lemma flushLoop_needs_queue n i w w' :
  flushLoop n i w = Ok tt w' → ∃ q, Updates w = Some q.
Proof.
  destruct n as [|n]; [discriminate|]. simpl. unfold bind, get_Updates.
  destruct (Updates w) as [q|]; [eauto | discriminate].
Qed.

(** An outermost [runUpdates]: open an empty queue, run the callback, run the
    entries of the final queue in queue order, close the queue. *)
Lemma runUpdates_outermost n cb w w' :
  Updates w = None → runUpdates n cb w = Ok tt w' →
  ∃ m q0 qf w1 w2,
    cb (set_Updates (Some []) w) = Ok tt w1 ∧
    Updates w1 = Some q0 ∧
    runAll m qf w1 = Ok tt w2 ∧
    Updates w2 = Some qf ∧
    q0 `prefix_of` qf ∧
    w' = set_Updates None w2.
Proof.
  intros Hw H. destruct n as [|n]; [discriminate|].
  simpl in H. unfold bind at 1, gets in H. rewrite Hw in H.
  apply bind_ok in H as (u0 & w0 & H0 & H). inversion H0; subst u0 w0; clear H0.
  apply bind_ok in H as (u1 & w1 & Hcb & Hflush).
  destruct n as [|n]; [discriminate|]. simpl in Hflush.
  apply bind_ok in Hflush as (u2 & w2 & Hloop & Hclose).
  rewrite (unit_eta u1) in Hcb. rewrite (unit_eta u2) in Hloop.
  destruct (flushLoop_needs_queue _ _ _ _ Hloop) as [q0 Hq0].
  destruct (flushLoop_runs_queue _ _ _ _ _ Hq0 Hloop) as (qf & Hqf & Hpre & Hall).
  exists n, q0, qf, w1, w2. rewrite drop_0 in Hall.
  inversion Hclose. auto 10.
Qed.

Lemma set_Updates_reopen w :
  Updates w = None → set_Updates None (set_Updates (Some []) w) = w.
Proof. destruct w. simpl. now intros ->. Qed.

(** ** Scheduling marks every observer; the counting effect *)

Lemma schedule_observer_marks o w w' :
  schedule_observer o w = Ok tt w' →
  marker w' o = Some pending ∧
  ∀ o', marker w o' = Some pending → marker w' o' = Some pending.
Proof.
  unfold schedule_observer, bind, get_effect, marker.
  destruct (effects w !! o) as [e|] eqn:He; [|discriminate].
  destruct (state e) as [[]|] eqn:Hs.
  - intros H; inversion H; subst w'. rewrite He. simpl. auto.
  - unfold modify, Updates_push, bind, get_Updates. simpl.
    destruct (Updates w) as [q|]; [|discriminate].
    intros H; inversion H; subst w'; clear H. simpl. split.
    + rewrite list_lookup_alter_eq, He. reflexivity.
    + intros o' Ho'. destruct (decide (o = o')) as [Heq|Hne].
      * subst o'. rewrite list_lookup_alter_eq, He. reflexivity.
      * now rewrite list_lookup_alter_ne.
Qed.

Lemma forEach_schedule_marks l : ∀ w w',
  forEach l schedule_observer w = Ok tt w' →
  (∀ o, o ∈ l → marker w' o = Some pending) ∧
  (∀ o, marker w o = Some pending → marker w' o = Some pending).
Proof.
  induction l as [|x l IH]; intros w w' H; simpl in H.
  - inversion H; subst. split; [|auto]. intros o Ho. inversion Ho.
  - apply bind_ok in H as (u & w1 & H1 & H2). rewrite (unit_eta u) in H1.
    destruct (schedule_observer_marks _ _ _ H1) as [Hx Hkeep1].
    destruct (IH _ _ H2) as [Hl Hkeep2]. split.
    + intros o Ho. apply elem_of_cons in Ho as [->|Ho]; auto.
    + auto.
Qed.

Lemma schedule_marks_every_observer signal w w' node o :
  signals w !! signal = Some node → schedule signal w = Ok tt w' →
  o ∈ observers node → marker w' o = Some pending.
Proof.
  intros Hn H Ho. unfold schedule, bind, get_signal in H. rewrite Hn in H.
  destruct (forEach_schedule_marks _ _ _ H) as [Hall _]. auto.
Qed.

Lemma counter_setup v0 :
  runScript 20 [CCreateSignal (EConst v0); CCreateEffect counter_body] (empty_world 1)
  = Ok tt (counter_world v0 1).
Proof. reflexivity. Qed.

Lemma counter_write v n v' :
  exec 20 (setter 0 v') (counter_world v n) = Ok tt (counter_world v' (Z.succ n)).
Proof. reflexivity. Qed.

Lemma counter_writes ws : ∀ v n,
  runScript 20 (map (setter 0) ws) (counter_world v n)
  = Ok tt (counter_world (default v (last ws)) (n + Z.of_nat (length ws))).
Proof.
  induction ws as [|x ws IH]; intros v n.
  - simpl. now rewrite Z.add_0_r.
  - cbn [map runScript]. unfold bind. rewrite counter_write, IH.
    rewrite last_cons. f_equal. f_equal.
    + now destruct (last ws).
    + cbn [length]. lia.
Qed.

Lemma schedule_same_signals signal :
  respects same_signals same_signals (schedule signal).
Proof.
  unfold schedule, schedule_observer, Updates_push.
  repeat respects_step
    ltac:(first [ intros; reflexivity
                | unfold same_signals; intros; congruence ]).
Qed.

(** Inside an open queue a setter is the store followed by the scheduling
    callback, whatever the stored and the new value are. *)
Lemma write_nested fuel signal v w w' q node :
  Updates w = Some q → signals w !! signal = Some node →
  write fuel signal v w = Ok tt w' →
  schedule signal (store signal v w) = Ok tt w'.
Proof.
  intros Hq Hn H. destruct fuel as [|n]; [discriminate|]. simpl in H.
  unfold bind at 1, get_signal at 1 in H. rewrite Hn in H.
  unfold bind at 1, modify at 1 in H. fold (store signal v w) in H.
  unfold bind at 1, get_signal at 1 in H.
  assert (Hn' : signals (store signal v w) !! signal = Some (with_current v node)).
  { simpl. now rewrite list_lookup_alter_eq, Hn. }
  rewrite Hn' in H. simpl in H.
  destruct (observers node) as [|o os] eqn:Hobs.
  - inversion H; subst w'. unfold schedule, bind, get_signal.
    rewrite Hn'. simpl. now rewrite Hobs.
  - destruct n as [|n]; [discriminate|]. simpl in H.
    unfold bind, gets in H. change (Updates (store signal v w)) with (Updates w) in H.
    now rewrite Hq in H.
Qed.

(** ** An effect and a memo over two signals *)






(** ** Reader calls; a memo over one signal *)

(** A reader called while nothing runs returns the stored value and leaves
    the world as it was. *)
Lemma read_untracked signal w node :
  runningEffects w = [] → signals w !! signal = Some node →
  read signal w = Ok (current node) w.
Proof.
  intros Hr Hn. unfold read, bind, get_signal, gets, getRunningEffect.
  rewrite Hn, Hr. simpl. now rewrite Hn.
Qed.

Lemma reads_untracked k signal w node :
  runningEffects w = [] → signals w !! signal = Some node →
  runScript 20 (replicate k (CExpr (ERead signal))) w = Ok tt w.
Proof.
  intros Hr Hn. induction k as [|k IH]; [reflexivity|].
  cbn [replicate runScript]. unfold bind at 1.
  change (exec 20 (CExpr (ERead signal)) w)
    with ((read signal ;; ret tt) w).
  unfold bind at 1. rewrite (read_untracked _ _ _ Hr Hn). exact IH.
Qed.



(** A reader call, tracked or not, returns the stored value and runs
    nothing: counters, console and queue are as they were. *)
Lemma read_runs_nothing signal w :
  match read signal w with
  | Ok v w' =>
      vars w' = vars w ∧ console w' = console w ∧ Updates w' = Updates w ∧
      current <$> signals w !! signal = Some v
  | Exn _ w' => w' = w
  | OutOfFuel => False
  end.
Proof.
  unfold read, bind, get_signal, gets.
  destruct (signals w !! signal) as [nd|] eqn:Hs; [|reflexivity].
  destruct (getRunningEffect w) as [t|]; unfold modify, ret.
  - unfold trackEffectDependency. simpl. rewrite list_lookup_alter_eq, Hs.
    simpl. auto.
  - rewrite Hs. simpl. auto.
Qed.

(** ** An effect with a guarded read *)










(** ** A memo and its reader; callbacks are kept *)

Lemma read_memo_created f v0 :
  runScript 20 (read_memo_setup f v0) (empty_world 2)
  = Ok tt (read_memo_world f v0 1 1).
Proof. reflexivity. Qed.

Lemma read_memo_written f v n m v' :
  exec 20 (setter 0 v') (read_memo_world f v n m)
  = Ok tt (read_memo_world f v' (Z.succ n) (Z.succ m)).
Proof. reflexivity. Qed.

Lemma read_memo_writes f ws : ∀ v n m,
  runScript 20 (map (setter 0) ws) (read_memo_world f v n m)
  = Ok tt (read_memo_world f (default v (last ws))
             (n + Z.of_nat (length ws)) (m + Z.of_nat (length ws))).
Proof.
  induction ws as [|x ws IH]; intros v n m.
  - simpl. now rewrite !Z.add_0_r.
  - cbn [map runScript]. unfold bind. rewrite read_memo_written, IH, last_cons.
    f_equal. f_equal; [now destruct (last ws) | cbn [length]; lia
                      | cbn [length]; lia].
Qed.

Lemma fn_kept_refl w : fn_kept w w.
Proof. intros e eff H. eauto. Qed.

Lemma fn_kept_trans w1 w2 w3 : fn_kept w1 w2 → fn_kept w2 w3 → fn_kept w1 w3.
Proof.
  intros H12 H23 e eff H. destruct (H12 e eff H) as (eff2 & H2 & F2).
  destruct (H23 e eff2 H2) as (eff3 & H3 & F3). exists eff3. split; congruence.
Qed.

Lemma fn_kept_alter g x w :
  (∀ eff, fn (g eff) = fn eff) → fn_kept w (set_effects (alter g x) w).
Proof.
  intros Hg e eff H. simpl. rewrite list_lookup_alter.
  destruct (decide (x = e)) as [->|Hne]; [|eauto].
  rewrite H. simpl. eauto.
Qed.

Lemma fn_kept_new_effect eff0 w :
  fn_kept w (set_effects (fun l => l ++ [eff0]) w).
Proof.
  intros e eff H. exists eff. split; [|reflexivity].
  simpl. now apply lookup_app_l_Some.
Qed.

Ltac fn_pre :=
  first [ exact fn_kept_refl | exact fn_kept_trans
        | intros; apply fn_kept_alter; reflexivity
        | intros; apply fn_kept_new_effect
        | intros; apply fn_kept_refl ].

Lemma cleanup_fn_kept n e : respects fn_kept fn_kept (cleanup n e).
Proof.
  revert e. induction n as [|n IH]; intros e; [intros w; exact I|].
  simpl. unfold unobserve. repeat respects_step fn_pre. apply IH.
Qed.

Lemma eval_fn_kept e : respects fn_kept fn_kept (eval e).
Proof.
  induction e; simpl; unfold read; repeat respects_step fn_pre.
  - apply respects_modify. intros w. unfold trackEffectDependency.
    apply (fn_kept_alter _ _ (set_signals _ w)). reflexivity.
Qed.

Lemma schedule_fn_kept s : respects fn_kept fn_kept (schedule s).
Proof.
  unfold schedule, schedule_observer, Updates_push.
  repeat respects_step fn_pre.
Qed.

Lemma engine_fn_kept n :
  (∀ effect, respects fn_kept fn_kept (runEffect n effect)) ∧
  (∀ cb, respects fn_kept fn_kept cb → respects fn_kept fn_kept (runUpdates n cb)) ∧
  (∀ i, respects fn_kept fn_kept (flushLoop n i)) ∧
  respects fn_kept fn_kept (flushUpdates n) ∧
  (∀ s v, respects fn_kept fn_kept (write n s v)) ∧
  (∀ body, respects fn_kept fn_kept (createEffect n body)) ∧
  (∀ body r, respects fn_kept fn_kept (createMemo n body r)) ∧
  (∀ cb, respects fn_kept fn_kept cb → respects fn_kept fn_kept (batch n cb)) ∧
  (∀ c, respects fn_kept fn_kept (exec n c)).
Proof.
  induction n as [|n (IHrun & IHupd & IHloop & IHflush & IHwrite & IHeff
                      & IHmemo & IHbatch & IHexec)].
  { repeat split; intros; intros w; exact I. }
  assert (Hrun : ∀ effect, respects fn_kept fn_kept (runEffect (S n) effect)).
  { intros effect. simpl. repeat respects_step fn_pre.
    - apply cleanup_fn_kept.
    - apply respects_try_finally. intros w.
      eapply wp_mono.
      + apply respects_bind with (Rok := fn_kept) (Rexn := fn_kept); try fn_pre.
        * apply respects_get_effect; fn_pre.
        * intros e. apply IHupd, IHexec.
      + simpl. intros _ w' H. exact H.
      + simpl. intros _ w' H. exact H. }
  assert (Hupd : ∀ cb, respects fn_kept fn_kept cb →
                   respects fn_kept fn_kept (runUpdates (S n) cb)).
  { intros cb Hcb. simpl. repeat respects_step fn_pre. }
  repeat split; auto.
  - intros i. simpl. repeat respects_step fn_pre; auto.
  - simpl. repeat respects_step fn_pre; auto.
  - intros s v. simpl. repeat respects_step fn_pre.
    apply IHupd, schedule_fn_kept.
  - intros body. simpl. repeat respects_step fn_pre; auto.
  - intros body r. simpl. unfold createSignal.
    repeat respects_step fn_pre; auto.
  - intros c. destruct c; simpl; unfold createSignal;
      repeat respects_step fn_pre; auto; apply eval_fn_kept.
Qed.

(** The effect behind a memo is created with the callback that runs the body
    and hands the result to the setter of the backing signal, and keeps it. *)
Lemma createMemo_backing_effect fuel body result w s w' :
  createMemo fuel body result w = Ok s w' →
  s = length (signals w) ∧
  ∃ eff, effects w' !! length (effects w) = Some eff ∧
         fn eff = CSeq body (CSet s result).
Proof.
  intros H. destruct fuel as [|n]; [discriminate|]. simpl in H.
  apply bind_ok in H as (s1 & w1 & Hs & H).
  unfold createSignal, bind, gets, modify, ret in Hs.
  inversion Hs; subst s1 w1; clear Hs.
  apply bind_ok in H as (u & w2 & He & H). inversion H; subst s w'; clear H.
  split; [reflexivity|].
  destruct n as [|n]; [discriminate|]. simpl in He.
  unfold bind at 1 2, gets in He.
  apply bind_ok in He as (u1 & w3 & H1 & He).
  inversion H1; subst u1 w3; clear H1.
  apply bind_ok in He as (u2 & w4 & H2 & He).
  set (c := CSeq body (CSet (length (signals w)) result)) in *.
  set (o := getRunningEffect
              (set_signals (fun l => l ++ [{| current := VUndefined; observers := [] |}]) w)) in *.
  assert (H4 : ∃ eff4, effects w4 !! length (effects w) = Some eff4 ∧ fn eff4 = c).
  { assert (H3 : (effects w ++ [new_effect c o]) !! length (effects w)
                 = Some (new_effect c o)).
    { rewrite lookup_app_r by lia. now rewrite Nat.sub_diag. }
    destruct o as [p|]; inversion H2; subst w4; simpl.
    - rewrite list_lookup_alter.
      destruct (decide (p = length (effects w))) as [Hp|Hp].
      + subst p. rewrite H3. simpl. eauto.
      + eauto.
    - eauto. }
  destruct H4 as (eff4 & H4 & F4).
  destruct (engine_fn_kept n) as (Hrun & _).
  destruct (wp_ok _ _ _ _ _ _ (Hrun _ w4) He _ _ H4) as (eff & Heff & Hfn).
  exists eff. split; [exact Heff | congruence].
Qed.

(** ** What scheduling appends *)

(** What one pass of the scheduling loop does to the markers. *)
Lemma schedule_observer_cases x w w' :
  schedule_observer x w = Ok tt w' →
  (marker w x = Some pending ∧ w' = w) ∨
  (marker w x = None ∧
   (∀ q, Updates w = Some q → Updates w' = Some (q ++ [x])) ∧
   (∃ q, Updates w = Some q) ∧
   marker w' x = Some pending ∧
   ∀ o, o ≠ x → marker w' o = marker w o).
Proof.
  unfold schedule_observer, bind, get_effect, marker.
  destruct (effects w !! x) as [e|] eqn:He; [|discriminate]. simpl.
  destruct (state e) as [[]|] eqn:Hs.
  - intros H; inversion H. left. auto.
  - unfold modify, Updates_push, bind, get_Updates. simpl.
    destruct (Updates w) as [q|] eqn:Hq; [|discriminate].
    intros H; inversion H; subst w'; clear H. right. simpl.
    split; [reflexivity|]. split; [intros q' Hq'; congruence|].
    split; [eauto|]. split.
    + now rewrite list_lookup_alter_eq, He.
    + intros o Ho. now rewrite list_lookup_alter_ne.
Qed.


Lemma cleanup_clears_marker fuel effect w w' :
  cleanup fuel effect w = Ok tt w' → marker w' effect = None.
Proof.
  destruct fuel as [|n]; [discriminate|]. simpl. intros H.
  apply bind_ok in H as (e & w1 & _ & H).
  apply bind_ok in H as (u1 & w2 & _ & H).
  apply bind_ok in H as (u2 & w3 & _ & H).
  apply bind_ok in H as (u3 & w4 & H4 & H).
  inversion H4; subst u3 w4; clear H4. inversion H; subst w'; clear H.
  unfold marker. simpl. rewrite !list_lookup_alter_eq.
  now destruct (effects w3 !! effect).
Qed.

(** ** The entries of the queue that have not started *)

Lemma set_add_elem x y l : x ∈ set_add y l ↔ x = y ∨ x ∈ l.
Proof.
  unfold set_add, set_has. destruct (existsb (Nat.eqb y) l) eqn:H.
  - apply existsb_exists in H as (z & Hz & Hyz). apply Nat.eqb_eq in Hyz. subst z.
    apply list_elem_of_In in Hz. split; [auto|]. intros [->|?]; auto.
  - rewrite elem_of_app, list_elem_of_singleton. tauto.
Qed.

Lemma set_delete_elem x y l : x ∈ set_delete y l ↔ x ∈ l ∧ x ≠ y.
Proof.
  unfold set_delete. rewrite !list_elem_of_In, filter_In, negb_true_iff, Nat.eqb_neq.
  tauto.
Qed.

Lemma grows_refl w : grows w w.
Proof. unfold grows. lia. Qed.

Lemma grows_trans w1 w2 w3 : grows w1 w2 → grows w2 w3 → grows w1 w3.
Proof. unfold grows. lia. Qed.

Ltac grows_pre :=
  first [ exact grows_refl | exact grows_trans
        | intros; unfold grows; simpl;
          rewrite ?length_alter, ?length_app; simpl; lia ].

Lemma cleanup_grows n e : respects grows grows (cleanup n e).
Proof.
  revert e. induction n as [|n IH]; intros e; [intros w; exact I|].
  simpl. unfold unobserve. repeat respects_step grows_pre. apply IH.
Qed.

Lemma eval_grows e : respects grows grows (eval e).
Proof.
  induction e; simpl; unfold read; repeat respects_step grows_pre.
Qed.

Lemma schedule_grows s : respects grows grows (schedule s).
Proof.
  unfold schedule, schedule_observer, Updates_push.
  repeat respects_step grows_pre.
Qed.

Lemma engine_grows n :
  (∀ effect, respects grows grows (runEffect n effect)) ∧
  (∀ cb, respects grows grows cb → respects grows grows (runUpdates n cb)) ∧
  (∀ i, respects grows grows (flushLoop n i)) ∧
  respects grows grows (flushUpdates n) ∧
  (∀ s v, respects grows grows (write n s v)) ∧
  (∀ body, respects grows grows (createEffect n body)) ∧
  (∀ body r, respects grows grows (createMemo n body r)) ∧
  (∀ cb, respects grows grows cb → respects grows grows (batch n cb)) ∧
  (∀ c, respects grows grows (exec n c)).
Proof.
  induction n as [|n (IHrun & IHupd & IHloop & IHflush & IHwrite & IHeff & IHmemo & IHbatch & IHexec)].
  { repeat split; intros; intros w; exact I. }
  assert (Hrun : ∀ effect, respects grows grows (runEffect (S n) effect)).
  { intros effect. simpl. repeat respects_step grows_pre.
    - apply cleanup_grows.
    - apply respects_try_finally. intros w.
      eapply wp_mono.
      + apply respects_bind with (Rok := grows) (Rexn := grows); try grows_pre.
        * apply respects_get_effect; grows_pre.
        * intros e. apply IHupd, IHexec.
      + simpl. intros _ w' H. exact H.
      + simpl. intros _ w' H. exact H. }
  assert (Hupd : ∀ cb, respects grows grows cb → respects grows grows (runUpdates (S n) cb)).
  { intros cb Hcb. simpl. repeat respects_step grows_pre. }
  repeat split; auto.
  - intros i. simpl. repeat respects_step grows_pre; auto.
  - simpl. repeat respects_step grows_pre; auto.
  - intros s v. simpl. repeat respects_step grows_pre.
    apply IHupd, schedule_grows.
  - intros body. simpl. repeat respects_step grows_pre; auto.
  - intros body r. simpl. unfold createSignal.
    repeat respects_step grows_pre; auto.
  - intros c. destruct c; simpl; unfold createSignal;
      repeat respects_step grows_pre; auto; apply eval_grows.
Qed.

(** ** What a teardown may change *)

Lemma teardown_refl w : edges_ok w → teardown w w.
Proof. split; auto. Qed.

Lemma teardown_trans w1 w2 w3 : teardown w1 w2 → teardown w2 w3 → teardown w1 w3.
Proof.
  intros [U1 L1 P1 O1 C1 E1] [U2 L2 P2 O2 C2 E2]. split.
  - congruence.
  - congruence.
  - auto.
  - auto.
  - intros x s Hp Hn Ho.
    destruct (marker w2 x) as [[]|] eqn:Hm.
    + exact (C2 x s Hm Hn Ho).
    + refine (C1 x s Hp _ (O2 _ _ Ho)). unfold is_pending. congruence.
  - auto.
Qed.

Lemma observes_unobserve e d w x s :
  observes (set_signals (alter (with_observers (set_delete e)) d) w) x s ↔
  observes w x s ∧ ¬ (x = e ∧ s = d).
Proof.
  unfold observes. simpl. destruct (decide (s = d)) as [->|Hne].
  - rewrite list_lookup_alter_eq. split.
    + intros (node & Hn & Hx).
      destruct (signals w !! d) as [nd|] eqn:Hd; [|discriminate].
      simpl in Hn. inversion Hn; subst node; clear Hn. simpl in Hx.
      apply set_delete_elem in Hx as [Hx Hxe].
      split; [eauto|]. intros [? _]. contradiction.
    + intros [(node & Hn & Hx) Hnot]. rewrite Hn. simpl.
      eexists. split; [reflexivity|]. simpl. apply set_delete_elem.
      split; [exact Hx|]. intros ->. apply Hnot. auto.
  - rewrite list_lookup_alter_ne by auto. split.
    + intros H. split; [exact H|]. intros [_ ?]. contradiction.
    + intros [H _]. exact H.
Qed.

Lemma forEach_unobserve e deps : ∀ w w',
  forEach deps (unobserve e) w = Ok tt w' →
  effects w' = effects w ∧ Updates w' = Updates w ∧
  ∀ x s, observes w' x s ↔ observes w x s ∧ ¬ (x = e ∧ s ∈ deps).
Proof.
  induction deps as [|d deps IH]; intros w w' H; simpl in H.
  - inversion H; subst w'. split; [reflexivity|]. split; [reflexivity|].
    intros x s. split; [|tauto].
    intros Ho. split; [exact Ho|]. intros [_ Hs]. inversion Hs.
  - apply bind_ok in H as (u & w1 & H1 & H2).
    unfold unobserve, modify in H1. inversion H1; subst u w1; clear H1.
    destruct (IH _ _ H2) as (He & Hu & Ho).
    split; [exact He|]. split; [exact Hu|].
    intros x s. rewrite Ho, observes_unobserve, elem_of_cons. tauto.
Qed.

Lemma marker_alter g e w x :
  marker (set_effects (alter g e) w) x
  = if decide (e = x) then effects w !! x ≫= (fun eff => state (g eff))
    else marker w x.
Proof.
  unfold marker. simpl. rewrite list_lookup_alter.
  destruct (decide (e = x)) as [->|Hne]; [|reflexivity].
  now destruct (effects w !! x).
Qed.

Lemma marker_alter_ne g e w x :
  e ≠ x → marker (set_effects (alter g e) w) x = marker w x.
Proof. intros H. rewrite marker_alter. now destruct (decide (e = x)). Qed.

Lemma marker_alter_same_state g e w x :
  (∀ eff, state (g eff) = state eff) →
  marker (set_effects (alter g e) w) x = marker w x.
Proof.
  intros Hg. rewrite marker_alter. destruct (decide (e = x)); [|reflexivity].
  unfold marker. destruct (effects w !! x); simpl; auto.
Qed.

(** Changing one effect record without touching its dependencies. *)
Lemma edges_ok_alter g e w :
  (∀ eff, dependencies (g eff) = dependencies eff) →
  edges_ok w → edges_ok (set_effects (alter g e) w).
Proof.
  intros Hg Hok x s Hobs. destruct (Hok x s Hobs) as (eff & He & Hs).
  simpl. rewrite list_lookup_alter. destruct (decide (e = x)) as [->|Hne].
  - rewrite He. simpl. eexists. split; [reflexivity|]. now rewrite Hg.
  - eauto.
Qed.

(** Changing one effect record that observes nothing. *)
Lemma edges_ok_alter_idle g e w :
  (∀ s, ¬ observes w e s) →
  edges_ok w → edges_ok (set_effects (alter g e) w).
Proof.
  intros Hidle Hok x s Hobs. destruct (Hok x s Hobs) as (eff & He & Hs).
  simpl. rewrite list_lookup_alter. destruct (decide (e = x)) as [->|Hne].
  - exfalso. exact (Hidle s Hobs).
  - eauto.
Qed.

Lemma teardown_alter g e w :
  (∀ eff, state (g eff) = state eff) →
  (∀ eff, dependencies (g eff) = dependencies eff) →
  edges_ok w → teardown w (set_effects (alter g e) w).
Proof.
  intros Hs Hd Hok. split; simpl.
  - reflexivity.
  - apply length_alter.
  - intros x. unfold is_pending. now rewrite marker_alter_same_state.
  - auto.
  - intros x s Hp Hn. exfalso. apply Hn. unfold is_pending.
    now rewrite marker_alter_same_state.
  - now apply edges_ok_alter.
Qed.

Lemma forEach_teardown {A} (f : A → M unit) l : ∀ w w',
  (∀ x w w', x ∈ l → edges_ok w → f x w = Ok tt w' → teardown w w') →
  edges_ok w → forEach l f w = Ok tt w' → teardown w w'.
Proof.
  induction l as [|x l IH]; intros w w' Hf Hok H; simpl in H.
  - inversion H; subst. now apply teardown_refl.
  - apply bind_ok in H as (u & w1 & H1 & H2). rewrite (unit_eta u) in H1.
    assert (T1 : teardown w w1) by (eapply Hf; eauto; left).
    eapply teardown_trans; [exact T1|].
    apply IH; auto.
    + intros y wa wb Hy. apply Hf. now right.
    + apply T1.
Qed.

Lemma cleanup_teardown n : ∀ e w w',
  edges_ok w → cleanup n e w = Ok tt w' →
  teardown w w' ∧ marker w' e = None ∧ (∀ s, ¬ observes w' e s) ∧
  e < length (effects w).
Proof.
  induction n as [|n IH]; intros e w w' Hok H; [discriminate|].
  simpl in H.
  apply bind_ok in H as (eff & w0 & Hget & H).
  unfold get_effect in Hget.
  destruct (effects w !! e) as [eff'|] eqn:He; [|discriminate].
  inversion Hget; subst eff' w0; clear Hget.
  apply bind_ok in H as (u1 & wa & Ha & H). rewrite (unit_eta u1) in Ha.
  apply bind_ok in H as (u2 & wb & Hb & H). rewrite (unit_eta u2) in Hb.
  apply bind_ok in H as (u3 & wc & Hc & H).
  inversion Hc; subst u3 wc; clear Hc. inversion H; subst w'; clear H.
  destruct (forEach_unobserve _ _ _ _ Ha) as (Hea & Hua & Hoa).
  assert (Ta : teardown w wa).
  { split.
    - exact Hua.
    - now rewrite Hea.
    - intros x. unfold is_pending, marker. now rewrite Hea.
    - intros x s Hx. now apply Hoa in Hx.
    - intros x s Hp Hn. exfalso. apply Hn. unfold is_pending, marker in *.
      now rewrite Hea.
    - intros x s Hx. apply Hoa in Hx as [Hx _]. rewrite Hea. auto. }
  assert (Ia : ∀ s, ¬ observes wa e s).
  { intros s Hx. apply Hoa in Hx as [Hx Hnot]. apply Hnot. split; [reflexivity|].
    destruct (Hok _ _ Hx) as (eff' & He' & Hs). congruence. }
  assert (Tb : teardown wa wb).
  { destruct (owned eff) as [children|].
    - apply bind_ok in Hb as (u & wb' & Hb1 & Hb2). rewrite (unit_eta u) in Hb1.
      inversion Hb2; subst wb; clear Hb2.
      assert (T1 : teardown wa wb').
      { eapply forEach_teardown; [|apply Ta|exact Hb1].
        intros x w1 w2 _ Hok1 Hx. now apply (IH x w1 w2 Hok1 Hx). }
      eapply teardown_trans; [exact T1|].
      apply teardown_alter; auto. apply T1.
    - inversion Hb; subst wb. apply teardown_refl, Ta. }
  assert (Ib : ∀ s, ¬ observes wb e s).
  { intros s Hx. apply (Ia s). now apply Tb. }
  set (wc := set_effects (alter (with_state None) e) wb).
  assert (Tc : teardown wb wc).
  { unfold wc. split; simpl.
    - reflexivity.
    - apply length_alter.
    - intros x. unfold is_pending. rewrite marker_alter.
      destruct (decide (e = x)) as [->|Hne]; [|auto].
      destruct (effects wb !! x); discriminate.
    - auto.
    - intros x s Hp Hn Hx. destruct (decide (e = x)) as [->|Hne].
      + exact (Ib s Hx).
      + apply Hn. unfold is_pending. now rewrite marker_alter_ne.
    - apply edges_ok_alter; [reflexivity | apply Tb]. }
  set (wd := set_effects (alter (with_dependencies (fun _ => [])) e) wc).
  assert (Td : teardown wc wd).
  { unfold wd. split; simpl.
    - reflexivity.
    - apply length_alter.
    - intros x. unfold is_pending. now rewrite marker_alter_same_state.
    - auto.
    - intros x s Hp Hn. exfalso. apply Hn. unfold is_pending.
      now rewrite marker_alter_same_state.
    - apply edges_ok_alter_idle; [apply Ib | apply Tc]. }
  split; [|split; [|split]].
  - eapply teardown_trans; [exact Ta|]. eapply teardown_trans; [exact Tb|].
    eapply teardown_trans; [exact Tc|exact Td].
  - unfold wd, wc. rewrite marker_alter_same_state by reflexivity.
    rewrite marker_alter. destruct (decide (e = e)); [|congruence].
    now destruct (effects wb !! e).
  - exact Ib.
  - eapply lookup_lt_Some; eauto.
Qed.

(** ** Inside a callback *)

Lemma good_after j w w' : good j w → body_post j w w' → good j w'.
Proof.
  intros (He & Hq & Ht) [He' Hq' Hm Hs Hg]. split; [exact He'|]. split; [exact Hq'|].
  intros t Htop. unfold getRunningEffect in *. rewrite Hs in Htop.
  destruct (Ht t Htop) as [Hlt Hin]. split.
  - unfold grows in Hg. lia.
  - apply Hm; assumption.
Qed.

Lemma body_rel_refl w : body_rel w w.
Proof.
  intros j (He & Hq & Ht). split; auto.
  - intros t _ H. exact H.
  - apply grows_refl.
Qed.

Lemma body_rel_trans w1 w2 w3 : body_rel w1 w2 → body_rel w2 w3 → body_rel w1 w3.
Proof.
  intros H12 H23 j Hg1.
  pose proof (H12 j Hg1) as P12.
  pose proof (H23 j (good_after _ _ _ Hg1 P12)) as P23.
  destruct P12 as [_ _ M12 S12 G12], P23 as [E3 Q3 M23 S23 G23].
  split; auto.
  - intros t Hlt Hpre. apply M23; [unfold grows in G12; lia|]. now apply M12.
  - congruence.
  - eapply grows_trans; eauto.
Qed.

Lemma any_world_trans' w1 w2 w3 : body_rel w1 w2 → any_world w2 w3 → any_world w1 w3.
Proof. intros _ _. exact I. Qed.

Ltac body_pre :=
  first [ exact body_rel_refl | exact body_rel_trans
        | exact any_world_refl | exact any_world_trans' ].

Lemma unstarted_same j w w' : Updates w' = Updates w → unstarted j w' = unstarted j w.
Proof. unfold unstarted, queue. now intros ->. Qed.

Lemma inert_body_rel w w' : inert w w' → body_rel w w'.
Proof.
  intros [HU HS HM HO HE HG] j (He & [Hc Hn Hp Hi Hv] & Ht).
  pose proof (unstarted_same j _ _ HU) as Hun.
  split; auto.
  - split.
    + unfold queue in *. now rewrite HU.
    + now rewrite Hun.
    + intros e. unfold is_pending. rewrite HM, Hun. apply Hp.
    + intros e s. unfold is_pending. rewrite HM, Hun, HO. apply Hi.
    + intros e. rewrite Hun. intros H. specialize (Hv e H). unfold grows in HG. lia.
  - intros t _ Hpre. unfold is_pending in *. rewrite HM, Hun. exact Hpre.
Qed.

Lemma body_spec_inert f : (∀ w, inert w (f w)) → body_spec (modify f).
Proof. intros H. apply respects_modify. intros w. apply inert_body_rel, H. Qed.

Ltac inert_easy :=
  split; simpl; try reflexivity; auto;
  try (unfold grows; simpl; rewrite ?length_alter, ?length_app; simpl; lia).

Lemma inert_set_vars f w : inert w (set_vars f w).
Proof. inert_easy. Qed.

Lemma inert_set_console f w : inert w (set_console f w).
Proof. inert_easy. Qed.

Lemma observes_store s v w x s' :
  observes (set_signals (alter (with_current v) s) w) x s' ↔ observes w x s'.
Proof.
  unfold observes. simpl. rewrite list_lookup_alter.
  destruct (decide (s = s')) as [->|Hne]; [|tauto].
  destruct (signals w !! s') as [nd|]; simpl; split.
  - intros (node & Hn & Hx). inversion Hn; subst node. eauto.
  - intros (node & Hn & Hx). inversion Hn; subst node. eauto.
  - intros (node & Hn & _). discriminate.
  - intros (node & Hn & _). discriminate.
Qed.

Lemma inert_store s v w : inert w (set_signals (alter (with_current v) s) w).
Proof.
  inert_easy.
  - apply observes_store.
  - intros Hok x s' Hx. apply observes_store in Hx. now apply Hok.
Qed.

Lemma observes_new_signal nd w x s :
  observers nd = [] →
  observes (set_signals (fun l => l ++ [nd]) w) x s ↔ observes w x s.
Proof.
  intros Hnd. unfold observes. simpl. split.
  - intros (node & Hn & Hx). apply lookup_app_Some in Hn as [Hn|[_ Hn]].
    + eauto.
    + apply list_lookup_singleton_Some in Hn as [_ <-]. rewrite Hnd in Hx.
      inversion Hx.
  - intros (node & Hn & Hx). exists node. split; [|exact Hx].
    now apply lookup_app_l_Some.
Qed.

Lemma inert_new_signal v w :
  inert w (set_signals (fun l => l ++ [{| current := v; observers := [] |}]) w).
Proof.
  inert_easy.
  - intros x s. now apply observes_new_signal.
  - intros Hok x s Hx. apply observes_new_signal in Hx; [|reflexivity]. now apply Hok.
Qed.

Lemma inert_new_effect body o w :
  inert w (set_effects (fun l => l ++ [new_effect body o]) w).
Proof.
  inert_easy.
  - intros x. unfold marker. simpl.
    destruct (effects w !! x) as [eff|] eqn:He.
    + now rewrite (lookup_app_l_Some _ _ _ _ He).
    + apply lookup_ge_None in He.
      destruct (decide (x = length (effects w))) as [->|Hne].
      * rewrite lookup_app_r by lia. now rewrite Nat.sub_diag.
      * rewrite lookup_ge_None_2; [reflexivity|].
        rewrite length_app. simpl. lia.
  - intros Hok x s Hx. destruct (Hok x s Hx) as (eff & He & Hs).
    exists eff. split; [|exact Hs]. now apply lookup_app_l_Some.
Qed.

Lemma inert_alter_effect g e w :
  (∀ eff, state (g eff) = state eff) →
  (∀ eff, dependencies (g eff) = dependencies eff) →
  inert w (set_effects (alter g e) w).
Proof.
  intros Hs Hd. inert_easy.
  - intros x. now apply marker_alter_same_state.
  - now apply edges_ok_alter.
Qed.

(** ** Reading keeps the invariant *)

Lemma observes_track t s w x s' :
  observes (trackEffectDependency t s w) x s' ↔
  observes w x s' ∨ (x = t ∧ s' = s ∧ is_Some (signals w !! s)).
Proof.
  unfold observes, trackEffectDependency. simpl. rewrite list_lookup_alter.
  destruct (decide (s = s')) as [->|Hne].
  - destruct (signals w !! s') as [nd|]; simpl.
    + split.
      * intros (node & Hn & Hx). inversion Hn; subst node; clear Hn.
        simpl in Hx. apply set_add_elem in Hx as [->|Hx]; eauto 6.
      * intros [(node & Hn & Hx)|(-> & _ & _)].
        -- inversion Hn; subst node. eexists. split; [reflexivity|].
           simpl. apply set_add_elem. auto.
        -- eexists. split; [reflexivity|]. simpl. apply set_add_elem. auto.
    + split.
      * intros (node & Hn & _). discriminate.
      * intros [(node & Hn & _)|(_ & _ & [? ?])]; discriminate.
  - split; [auto|]. intros [H|(_ & H & _)]; [exact H | congruence].
Qed.

Lemma track_body_post j t s w :
  good j w → getRunningEffect w = Some t →
  body_post j w (trackEffectDependency t s w).
Proof.
  intros (He & [Hc Hn Hp Hi Hv] & Ht) Htop.
  destruct (Ht t Htop) as [Hlt Hin].
  assert (Hm : ∀ x, marker (trackEffectDependency t s w) x = marker w x).
  { intros x. unfold trackEffectDependency.
    now rewrite marker_alter_same_state. }
  assert (Hun : unstarted j (trackEffectDependency t s w) = unstarted j w)
    by reflexivity.
  split.
  - intros x s' Hx. apply observes_track in Hx.
    unfold trackEffectDependency. simpl. rewrite list_lookup_alter.
    destruct Hx as [Hx|(-> & -> & _)].
    + destruct (He x s' Hx) as (eff & Hex & Hs).
      destruct (decide (t = x)) as [->|Hne].
      * rewrite Hex. simpl. eexists. split; [reflexivity|]. simpl.
        apply set_add_elem. auto.
      * eauto.
    + destruct (decide (t = t)); [|congruence].
      destruct (lookup_lt_is_Some_2 _ _ Hlt) as [eff Heff]. rewrite Heff. simpl.
      eexists. split; [reflexivity|]. simpl. apply set_add_elem. auto.
  - split.
    + exact Hc.
    + exact Hn.
    + intros e. unfold is_pending. rewrite Hm. apply Hp.
    + intros e s' Hin' Hnp Hx. unfold is_pending in Hnp. rewrite Hm in Hnp.
      apply observes_track in Hx as [Hx|(-> & _ & _)].
      * exact (Hi e s' Hin' Hnp Hx).
      * apply Hnp. now apply Hin.
    + intros e Hin'. specialize (Hv e Hin'). unfold trackEffectDependency.
      simpl. now rewrite length_alter.
  - intros x _ Hpre. unfold is_pending. rewrite Hm. exact Hpre.
  - reflexivity.
  - unfold grows, trackEffectDependency. simpl. rewrite length_alter. lia.
Qed.

Lemma read_body_spec s : body_spec (read s).
Proof.
  intros w. unfold wp, read, bind, get_signal, gets.
  destruct (signals w !! s) as [nd|] eqn:Hs; [|exact I].
  destruct (getRunningEffect w) as [t|] eqn:Ht; unfold modify, ret.
  - assert (Hs' : is_Some (signals (trackEffectDependency t s w) !! s)).
    { unfold trackEffectDependency. simpl. rewrite list_lookup_alter_eq, Hs.
      now eexists. }
    destruct Hs' as [nd' ->]. intros j Hg. now apply track_body_post.
  - rewrite Hs. apply body_rel_refl.
Qed.

Lemma eval_body_spec e : body_spec (eval e).
Proof.
  unfold body_spec.
  induction e; simpl; repeat respects_step body_pre; apply read_body_spec.
Qed.

(** ** Scheduling keeps the invariant *)

Lemma body_post_refl j w : good j w → body_post j w w.
Proof. intros H. now apply body_rel_refl. Qed.

Lemma body_post_trans j w1 w2 w3 :
  good j w1 → body_post j w1 w2 → body_post j w2 w3 → body_post j w1 w3.
Proof.
  intros Hg [E2 Q2 M12 S12 G12] [E3 Q3 M23 S23 G23]. split; auto.
  - intros t Hlt Hpre. apply M23; [unfold grows in G12; lia|]. now apply M12.
  - congruence.
  - eapply grows_trans; eauto.
Qed.

Lemma schedule_observer_body_post j s x w w1 :
  good j w → observes w x s → schedule_observer x w = Ok tt w1 →
  body_post j w w1 ∧ signals w1 = signals w.
Proof.
  intros Hg Hobs H. pose proof Hg as (He & [Hc Hn Hp Hi Hv] & Ht).
  unfold schedule_observer, bind, get_effect in H.
  destruct (effects w !! x) as [eff|] eqn:Hx; [|discriminate].
  destruct (state eff) as [[]|] eqn:Hst.
  { inversion H; subst w1. split; [now apply body_post_refl | reflexivity]. }
  unfold modify, Updates_push, bind, get_Updates in H. simpl in H.
  destruct (Updates w) as [q|] eqn:Hq; [|discriminate].
  inversion H; subst w1; clear H. split; [|reflexivity].
  set (w1 := set_Updates (Some (q ++ [x]))
               (set_effects (alter (with_state (Some pending)) x) w)).
  assert (Hqw : queue w = q) by (unfold queue; now rewrite Hq).
  assert (Hun : unstarted j w1 = unstarted j w ++ [x]).
  { unfold unstarted, queue, w1. simpl. rewrite Hq. simpl.
    apply drop_app_le. rewrite <- Hqw. exact Hc. }
  assert (Hmx : marker w x = None).
  { unfold marker. now rewrite Hx. }
  assert (Hm1 : ∀ y, marker w1 y = if decide (x = y) then Some pending else marker w y).
  { intros y. unfold w1.
    change (marker (set_Updates _ ?w') y) with (marker w' y).
    rewrite marker_alter. destruct (decide (x = y)) as [<-|?]; [|reflexivity].
    now rewrite Hx. }
  assert (Hnot : x ∉ unstarted j w).
  { intros Hin. apply (Hi x s Hin); [|exact Hobs].
    unfold is_pending. rewrite Hmx. discriminate. }
  split.
  - unfold w1. apply (edges_ok_alter _ x w); [reflexivity | exact He].
  - split.
    + unfold queue, w1. simpl. rewrite length_app. rewrite Hqw in Hc. lia.
    + rewrite Hun. apply NoDup_app. split; [exact Hn|]. split.
      * intros y Hy Hy'. apply list_elem_of_singleton in Hy'. now subst y.
      * apply NoDup_singleton.
    + intros y. unfold is_pending. rewrite Hm1, Hun, elem_of_app.
      destruct (decide (x = y)) as [<-|Hne].
      * intros _. right. now apply list_elem_of_singleton.
      * intros Hy. left. now apply Hp.
    + intros y s'. unfold is_pending. rewrite Hm1, Hun, elem_of_app.
      destruct (decide (x = y)) as [<-|Hne].
      * intros _ Hnp. exfalso. now apply Hnp.
      * intros [Hy|Hy] Hnp Hy'.
        -- exact (Hi y s' Hy Hnp Hy').
        -- apply list_elem_of_singleton in Hy. congruence.
    + intros y. rewrite Hun, elem_of_app. unfold w1. simpl. rewrite length_alter.
      intros [Hy|Hy]; [now apply Hv|].
      apply list_elem_of_singleton in Hy. subst y. eapply lookup_lt_Some; eauto.
  - intros t _ Hpre. unfold is_pending. rewrite Hm1, Hun, elem_of_app.
    destruct (decide (x = t)) as [<-|Hne]; [reflexivity|].
    intros [Hy|Hy]; [now apply Hpre|].
    apply list_elem_of_singleton in Hy. congruence.
  - reflexivity.
  - unfold grows, w1. simpl. rewrite length_alter. lia.
Qed.

Lemma forEach_schedule_body_post j s l : ∀ w w',
  good j w → (∀ x, x ∈ l → observes w x s) →
  forEach l schedule_observer w = Ok tt w' → body_post j w w'.
Proof.
  induction l as [|x l IH]; intros w w' Hg Hobs H; simpl in H.
  - inversion H; subst. now apply body_post_refl.
  - apply bind_ok in H as (u & w1 & H1 & H2). rewrite (unit_eta u) in H1.
    destruct (schedule_observer_body_post j s x w w1 Hg (Hobs x ltac:(left)) H1)
      as [P1 Hsig].
    eapply body_post_trans; [exact Hg | exact P1 |].
    apply IH; [eapply good_after; eauto | | exact H2].
    intros y Hy. destruct (Hobs y ltac:(right; exact Hy)) as (node & Hnode & Hin).
    exists node. now rewrite Hsig.
Qed.

Lemma schedule_body_spec s : body_spec (schedule s).
Proof.
  intros w. unfold wp.
  destruct (schedule s w) as [[] w'|e w'|] eqn:H; [|exact I|exact I].
  intros j Hg. unfold schedule, bind, get_signal in H.
  destruct (signals w !! s) as [node|] eqn:Hn; [|discriminate].
  apply (forEach_schedule_body_post j s (observers node)); [exact Hg| |exact H].
  intros x Hx. exists node. auto.
Qed.

(** ** Running an effect *)

Lemma try_finally_ok {A} (m : M A) fin w a w' :
  try_finally m fin w = Ok a w' → ∃ w1, m w = Ok a w1 ∧ w' = fin w1.
Proof.
  unfold try_finally. destruct (m w) as [a1 w1| |]; try discriminate.
  intros H; inversion H; subst. eauto.
Qed.

Lemma runEffect_ok n e w w' :
  runEffect (S n) e w = Ok tt w' →
  ∃ w1 w3 eff,
    cleanup n e w = Ok tt w1 ∧
    effects w1 !! e = Some eff ∧
    runUpdates n (exec n (fn eff)) (push_running e w1) = Ok tt w3 ∧
    w' = pop_running w3.
Proof.
  simpl. intros H.
  apply bind_ok in H as (u1 & w1 & Hc & H). rewrite (unit_eta u1) in Hc.
  apply bind_ok in H as (u2 & w2 & Hp & H).
  inversion Hp; subst u2 w2; clear Hp.
  apply try_finally_ok in H as (w3 & H & ->).
  apply bind_ok in H as (eff & w2 & Hg & H).
  unfold get_effect in Hg. simpl in Hg.
  destruct (effects w1 !! e) as [eff'|] eqn:He; [|discriminate].
  inversion Hg; subst eff' w2; clear Hg. eauto 10.
Qed.

Lemma queue_ok_running f j w :
  queue_ok j (set_runningEffects f w) ↔ queue_ok j w.
Proof. split; intros [Hc Hn Hp Hi Hv]; split; assumption. Qed.

Lemma cleanup_leaf_inert n e w w1 eff :
  effects w !! e = Some eff →
  owned eff = None → dependencies eff = [] → state eff = None →
  cleanup n e w = Ok tt w1 → inert w w1.
Proof.
  intros He Ho Hd Hs H. destruct n as [|n]; [discriminate|]. simpl in H.
  unfold bind at 1, get_effect in H. rewrite He in H. rewrite Ho, Hd in H.
  simpl in H. inversion H; subst w1; clear H.
  assert (Hidle : ∀ w0 s, effects w0 !! e = effects w !! e →
                    edges_ok w0 → ¬ observes w0 e s).
  { intros w0 s Heq Hok Hx. destruct (Hok e s Hx) as (eff' & He' & Hin).
    rewrite Heq, He in He'. inversion He'; subst eff'. rewrite Hd in Hin.
    inversion Hin. }
  inert_easy.
  - intros x. rewrite marker_alter_same_state by reflexivity.
    rewrite marker_alter. destruct (decide (e = x)) as [<-|?]; [|reflexivity].
    unfold marker. rewrite He. simpl. now rewrite Hs.
  - intros Hok. apply edges_ok_alter_idle.
    + intros s Hx. apply (Hidle w s eq_refl Hok). exact Hx.
    + now apply edges_ok_alter.
Qed.

Section Step.
Variable n : nat.
Hypothesis IHupd : ∀ cb, body_spec cb → body_spec (runUpdates n cb).
Hypothesis IHexec : ∀ c, body_spec (exec n c).

(** The body of a run, once the effect is torn down and pushed. *)
Lemma run_body j e w1 w3 eff :
  edges_ok w1 → queue_ok j w1 → e ∉ unstarted j w1 →
  effects w1 !! e = Some eff →
  runUpdates n (exec n (fn eff)) (push_running e w1) = Ok tt w3 →
  body_post j (push_running e w1) w3.
Proof.
  intros He Hq Hnot Heff H.
  assert (Hg : good j (push_running e w1)).
  { split; [exact He|]. split; [now apply queue_ok_running|].
    intros t Ht. unfold getRunningEffect, push_running in Ht. simpl in Ht.
    rewrite last_snoc in Ht. inversion Ht; subst t. split.
    - simpl. eapply lookup_lt_Some; eauto.
    - intros Hin. contradiction. }
  exact (wp_ok _ _ _ _ _ _ (IHupd _ (IHexec (fn eff)) _) H j Hg).
Qed.

Lemma slot_step : slot_spec (S n).
Proof.
  intros e j w w' [He Hc Hn Hf Hp Hi Hv] H.
  apply runEffect_ok in H as (w1 & w3 & eff & Hcl & Heff & Hbody & ->).
  destruct (cleanup_teardown _ _ _ _ He Hcl) as ([TU TL TP TO TC TE] & Hme & Hie & Hlt).
  pose proof (unstarted_same j _ _ TU) as Hun.
  assert (Hq1 : queue_ok j w1).
  { split.
    - unfold queue. now rewrite TU.
    - now rewrite Hun.
    - intros x Hx. rewrite Hun. destruct (Hp x (TP x Hx)) as [Hin| ->]; [exact Hin|].
      unfold is_pending in Hx. congruence.
    - intros x s. rewrite Hun. intros Hin Hnp Hx.
      destruct (marker w x) as [[]|] eqn:Hm.
      + exact (TC x s Hm Hnp Hx).
      + apply (Hi x s Hin); [|auto]. unfold is_pending. congruence.
    - intros x. rewrite Hun, TL. apply Hv. }
  assert (Hnot : e ∉ unstarted j w1) by now rewrite Hun.
  destruct (run_body j e w1 w3 eff TE Hq1 Hnot Heff Hbody) as [E3 Q3 _ _ _].
  split; [exact E3|]. now apply queue_ok_running.
Qed.

Lemma fresh_step : fresh_spec (S n).
Proof.
  intros e j w w' eff (He & Hq & Ht) Hnot Heff Ho Hd Hs H.
  apply runEffect_ok in H as (w1 & w3 & eff1 & Hcl & Heff1 & Hbody & ->).
  destruct (cleanup_leaf_inert _ _ _ _ _ Heff Ho Hd Hs Hcl) as [IU IS IM IO IE IG].
  pose proof (unstarted_same j _ _ IU) as Hun.
  pose proof (inert_body_rel _ _ (Build_inert _ _ IU IS IM IO IE IG) j
                (conj He (conj Hq Ht))) as [E1 Q1 M1 S1 G1].
  assert (Hnot1 : e ∉ unstarted j w1) by now rewrite Hun.
  destruct (run_body j e w1 w3 eff1 E1 Q1 Hnot1 Heff1 Hbody) as [E3 Q3 M3 S3 G3].
  split.
  - exact E3.
  - now apply queue_ok_running.
  - intros t Hlt Hpre.
    change (t ∈ unstarted j w3 → is_pending w3 t).
    apply M3.
    + simpl. unfold grows in G1. lia.
    + change (t ∈ unstarted j w1 → is_pending w1 t). now apply M1.
  - simpl. rewrite S3. simpl. rewrite removelast_last. exact IS.
  - unfold grows in *. simpl in *. lia.
Qed.

End Step.

(** ** The drain keeps the invariant *)

Lemma unstarted_cons i w q e :
  Updates w = Some q → q !! i = Some e →
  unstarted i w = e :: unstarted (S i) w.
Proof.
  intros Hq He. unfold unstarted, queue. rewrite Hq. simpl.
  now apply drop_S.
Qed.

Lemma loop_step n : slot_spec n → loop_spec n → loop_spec (S n).
Proof.
  intros IHslot IHloop i w w' He [Hc Hn Hp Hi Hv] [q Hq] H.
  simpl in H. unfold bind at 1, get_Updates in H. rewrite Hq in H.
  destruct (negb (length q =? 0) && negb (i =? length q)) eqn:Hcond.
  - destruct (q !! i) as [e|] eqn:Hqi.
    + apply bind_ok in H as (u & w1 & Hrun & Hrest). rewrite (unit_eta u) in Hrun.
      pose proof (unstarted_cons i w q e Hq Hqi) as Hun.
      rewrite Hun in Hn, Hp, Hi, Hv.
      apply NoDup_cons in Hn as [Hfresh Hn'].
      assert (Hpre : slot_pre (S i) e w).
      { split; auto.
        - unfold queue. rewrite Hq. simpl. apply lookup_lt_Some in Hqi. lia.
        - intros x Hx. apply Hp in Hx. apply elem_of_cons in Hx as [->|Hx]; auto.
        - intros x s Hx. apply Hi. now right.
        - intros x Hx. apply Hv. now right. }
      destruct (IHslot e (S i) w w1 Hpre Hrun) as [E1 Q1].
      apply (IHloop (S i) w1 w' E1 Q1); [|exact Hrest].
      destruct (flushLoop_needs_queue _ _ _ _ Hrest) as [q1 Hq1]. now exists q1.
    + rewrite (flushLoop_spins n i w q Hq Hqi Hcond) in H. discriminate.
  - inversion H; subst w'. split; [exact He|].
    assert (Hd : unstarted i w = []).
    { unfold unstarted, queue. rewrite Hq. simpl.
      apply andb_false_iff in Hcond as [Hc0|Hc0]; apply negb_false_iff in Hc0;
        apply Nat.eqb_eq in Hc0.
      - destruct q; [apply drop_nil | discriminate].
      - subst i. apply drop_all. }
    intros x Hx. apply Hp in Hx. rewrite Hd in Hx. inversion Hx.
Qed.

Lemma flush_step n : loop_spec n → flush_spec (S n).
Proof.
  intros IHloop w w' He Hq HU H. simpl in H.
  apply bind_ok in H as (u & w1 & Hloop & Hclose). rewrite (unit_eta u) in Hloop.
  inversion Hclose; subst w'; clear Hclose.
  destruct (IHloop 0 w w1 He Hq HU Hloop) as [E1 P1].
  split; [exact E1|]. split; [exact P1|reflexivity].
Qed.

Lemma queue_ok_closed j w :
  Updates w = None → queue_ok j w → j = 0 ∧ ∀ x, ¬ is_pending w x.
Proof.
  intros HU [Hc _ Hp _ _]. unfold unstarted, queue in *. rewrite HU in *.
  simpl in *. split; [lia|]. intros x Hx. apply Hp in Hx.
  rewrite drop_nil in Hx. inversion Hx.
Qed.

Lemma queue_ok_quiet w :
  length (queue w) = 0 → (∀ x, ¬ is_pending w x) → queue_ok 0 w.
Proof.
  intros Hl Hp. assert (Hq : queue w = []) by now destruct (queue w).
  split.
  - lia.
  - unfold unstarted. rewrite Hq. constructor.
  - intros e He. now apply Hp in He.
  - unfold unstarted. rewrite Hq. intros e s Hin. inversion Hin.
  - unfold unstarted. rewrite Hq. intros e Hin. inversion Hin.
Qed.

Lemma upd_step n :
  flush_spec n →
  ∀ cb, body_spec cb → body_spec (runUpdates (S n) cb).
Proof.
  intros IHflush cb Hcb w. unfold wp.
  destruct (runUpdates (S n) cb w) as [[] w'|e w'|] eqn:H; [|exact I|exact I].
  simpl in H. unfold bind at 1, gets in H.
  destruct (Updates w) as [q|] eqn:HU.
  { exact (wp_ok _ _ _ _ _ _ (Hcb w) H). }
  apply bind_ok in H as (u0 & w0 & H0 & H). inversion H0; subst u0 w0; clear H0.
  apply bind_ok in H as (u1 & w1 & Hc & Hf). rewrite (unit_eta u1) in Hc.
  intros j (He & Hq & Ht).
  destruct (queue_ok_closed j w HU Hq) as [-> Hnp].
  set (w0 := set_Updates (Some []) w) in *.
  assert (Hg0 : good 0 w0).
  { split; [exact He|]. split; [apply queue_ok_quiet; [reflexivity | exact Hnp]|].
    intros t Htop. destruct (Ht t Htop) as [Hlt _]. split; [exact Hlt|].
    intros Hin. inversion Hin. }
  pose proof (wp_ok _ _ _ _ _ _ (Hcb w0) Hc 0 Hg0) as [E1 Q1 M1 S1 G1].
  assert (HU1 : is_Some (Updates w1)).
  { destruct n as [|n']; [discriminate|]. simpl in Hf.
    apply bind_ok in Hf as (u & w2 & Hl & _). rewrite (unit_eta u) in Hl.
    destruct (flushLoop_needs_queue _ _ _ _ Hl) as [q1 Hq1]. now exists q1. }
  destruct (IHflush w1 w' E1 Q1 HU1 Hf) as (E' & P' & U').
  destruct (engine_stack_safe n) as (_ & _ & _ & Hsf & _).
  pose proof (wp_ok _ _ _ _ _ _ (Hsf w1) Hf) as S'. unfold same_stack in S'.
  destruct (engine_grows n) as (_ & _ & _ & Hgf & _).
  pose proof (wp_ok _ _ _ _ _ _ (Hgf w1) Hf) as G'.
  split.
  - exact E'.
  - apply queue_ok_quiet; [|exact P']. unfold queue. now rewrite U'.
  - intros t _ _ Hin. unfold unstarted, queue in Hin. rewrite U' in Hin.
    inversion Hin.
  - rewrite S', S1. reflexivity.
  - eapply grows_trans; [|exact G']. exact G1.
Qed.

(** ** The public operations *)

Lemma write_step n :
  (∀ cb, body_spec cb → body_spec (runUpdates n cb)) →
  ∀ s v, body_spec (write (S n) s v).
Proof.
  intros IHupd s v. simpl. unfold body_spec.
  repeat respects_step body_pre.
  - apply body_spec_inert. intros w. apply inert_store.
  - apply IHupd, schedule_body_spec.
Qed.

Lemma createSignal_body_spec v : body_spec (createSignal v).
Proof.
  unfold body_spec, createSignal. repeat respects_step body_pre.
  apply body_spec_inert. intros w. apply inert_new_signal.
Qed.

Lemma createEffect_step n :
  fresh_spec n → ∀ body, body_spec (createEffect (S n) body).
Proof.
  intros IHfresh body w. unfold wp.
  destruct (createEffect (S n) body w) as [[] w'|e w'|] eqn:H; [|exact I|exact I].
  simpl in H. unfold bind at 1 2, gets in H.
  apply bind_ok in H as (u1 & w1 & H1 & H). inversion H1; subst u1 w1; clear H1.
  apply bind_ok in H as (u2 & w2 & H2 & H). rewrite (unit_eta u2) in H2.
  intros j Hg. pose proof Hg as (He & Hq & Ht).
  set (fresh := length (effects w)) in *.
  set (w1 := set_effects (fun l => l ++ [new_effect body (getRunningEffect w)]) w) in *.
  assert (P1 : body_post j w w1) by (apply inert_body_rel; [apply inert_new_effect | exact Hg]).
  assert (Hg1 : good j w1) by (eapply good_after; eauto).
  assert (Hf1 : effects w1 !! fresh = Some (new_effect body (getRunningEffect w))).
  { unfold w1, fresh. simpl. rewrite lookup_app_r by lia.
    now rewrite Nat.sub_diag. }
  assert (P2 : body_post j w1 w2 ∧
               effects w2 !! fresh = Some (new_effect body (getRunningEffect w))).
  { destruct (getRunningEffect w) as [p|] eqn:Hp.
    - inversion H2; subst w2; clear H2. split.
      + apply inert_body_rel; [|exact Hg1].
        apply inert_alter_effect; reflexivity.
      + simpl. rewrite list_lookup_alter_ne; [exact Hf1|].
        destruct (Ht p Hp) as [Hlt _]. unfold fresh. lia.
    - inversion H2; subst w2; clear H2. split; [now apply body_post_refl|exact Hf1]. }
  destruct P2 as [P2 Hf2].
  assert (Hg2 : good j w2) by (eapply good_after; eauto).
  assert (Hnot : fresh ∉ unstarted j w2).
  { intros Hin.
    assert (Hun : unstarted j w2 = unstarted j w).
    { destruct (getRunningEffect w); inversion H2; subst w2; reflexivity. }
    rewrite Hun in Hin. apply Hq in Hin. unfold fresh in Hin. lia. }
  pose proof (IHfresh fresh j w2 w' _ Hg2 Hnot Hf2 eq_refl eq_refl eq_refl H) as P3.
  eapply body_post_trans; [exact Hg | exact P1 |].
  eapply body_post_trans; [exact Hg1 | exact P2 | exact P3].
Qed.

Lemma createMemo_step n :
  (∀ body, body_spec (createEffect n body)) →
  ∀ body r, body_spec (createMemo (S n) body r).
Proof.
  intros IHeff body r. simpl. unfold body_spec.
  repeat respects_step body_pre.
  - apply createSignal_body_spec.
  - apply IHeff.
Qed.

Lemma exec_step n :
  (∀ s v, body_spec (write n s v)) →
  (∀ body, body_spec (createEffect n body)) →
  (∀ body r, body_spec (createMemo n body r)) →
  (∀ cb, body_spec cb → body_spec (batch n cb)) →
  (∀ c, body_spec (exec n c)) →
  ∀ c, body_spec (exec (S n) c).
Proof.
  intros IHwrite IHeff IHmemo IHbatch IHexec c.
  destruct c; simpl; unfold body_spec;
    repeat respects_step body_pre;
    try apply eval_body_spec;
    try apply createSignal_body_spec;
    try (apply body_spec_inert; intros w;
         first [apply inert_set_vars | apply inert_set_console]);
    auto.
  - apply IHexec.
  - apply IHexec.
  - apply IHexec.
  - apply IHexec.
  - apply IHwrite.
  - apply IHeff.
  - apply IHmemo.
  - apply IHbatch, IHexec.
Qed.

Lemma engine_queue_ok n :
  slot_spec n ∧ fresh_spec n ∧
  (∀ cb, body_spec cb → body_spec (runUpdates n cb)) ∧
  loop_spec n ∧ flush_spec n ∧
  (∀ s v, body_spec (write n s v)) ∧
  (∀ body, body_spec (createEffect n body)) ∧
  (∀ body r, body_spec (createMemo n body r)) ∧
  (∀ cb, body_spec cb → body_spec (batch n cb)) ∧
  (∀ c, body_spec (exec n c)).
Proof.
  induction n as [|n (IHslot & IHfresh & IHupd & IHloop & IHflush & IHwrite
                      & IHeff & IHmemo & IHbatch & IHexec)].
  { repeat split; try (intros; intros w; exact I);
      repeat intro; discriminate. }
  split; [now apply slot_step|].
  split; [now apply fresh_step|].
  split; [now apply upd_step|].
  split; [now apply loop_step|].
  split; [now apply flush_step|].
  split; [now apply write_step|].
  split; [now apply createEffect_step|].
  split; [now apply createMemo_step|].
  split; [intros cb Hcb; simpl; now apply IHupd|].
  now apply exec_step.
Qed.

(** ** Worlds between and during flushes *)

Lemma quiescent_good w : quiescent w → good 0 w.
Proof.
  intros (He & Hs & HU & Hp). split; [exact He|]. split.
  - apply queue_ok_quiet; [|exact Hp]. unfold queue. now rewrite HU.
  - intros t Ht. unfold getRunningEffect in Ht. rewrite Hs in Ht. discriminate.
Qed.

Lemma quiescent_empty nvars : quiescent (empty_world nvars).
Proof.
  split; [|split; [|split]]; try reflexivity.
  - intros e s (node & Hn & _). discriminate.
  - intros x Hx. discriminate.
Qed.

Lemma exec_quiescent fuel c w w' :
  quiescent w → exec fuel c w = Ok tt w' → quiescent w'.
Proof.
  intros Hq H. pose proof (quiescent_good w Hq) as Hg.
  destruct Hq as (He & Hs & HU & Hp).
  destruct (engine_queue_ok fuel) as (_ & _ & _ & _ & _ & _ & _ & _ & _ & Hexec).
  pose proof (wp_ok _ _ _ _ _ _ (Hexec c w) H 0 Hg) as [E' Q' _ S' _].
  destruct (engine_queue_safe fuel) as (_ & _ & _ & _ & _ & _ & _ & Hsafe).
  pose proof (wp_ok _ _ _ _ _ _ (Hsafe c w) H) as Hext.
  unfold queue_ext in Hext. rewrite HU in Hext.
  split; [exact E'|]. split; [congruence|]. split; [exact Hext|].
  now apply (queue_ok_closed 0 w' Hext Q').
Qed.

Lemma runScript_quiescent fuel script : ∀ w w',
  quiescent w → runScript fuel script w = Ok tt w' → quiescent w'.
Proof.
  induction script as [|c script IH]; intros w w' Hq H; simpl in H.
  - inversion H; now subst.
  - apply bind_ok in H as (u & w1 & H1 & H2). rewrite (unit_eta u) in H1.
    eapply IH; [|exact H2]. eapply exec_quiescent; eauto.
Qed.



(** ** What every run starts from, and what every batch ends with *)

(** A teardown leaves the effect without dependencies and without
    observer edges. *)
Lemma cleanup_clears_edges fuel effect w w' :
  edges_ok w → cleanup fuel effect w = Ok tt w' →
  deps_of w' effect = Some [] ∧ ∀ s, ¬ observes w' effect s.
Proof.
  intros Hok H.
  destruct (cleanup_teardown _ _ _ _ Hok H) as (T & _ & Hidle & Hlt).
  split; [|exact Hidle].
  destruct fuel as [|n]; [discriminate|]. simpl in H.
  apply bind_ok in H as (e & w1 & _ & H).
  apply bind_ok in H as (u1 & w2 & _ & H).
  apply bind_ok in H as (u2 & w3 & _ & H).
  apply bind_ok in H as (u3 & w4 & H4 & H).
  inversion H4; subst u3 w4; clear H4. inversion H; subst w'; clear H.
  pose proof (td_length _ _ T) as Hlen. simpl in Hlen.
  rewrite !length_alter in Hlen.
  unfold deps_of. simpl. rewrite !list_lookup_alter_eq.
  destruct (lookup_lt_is_Some_2 (effects w3) effect ltac:(lia)) as [eff ->].
  reflexivity.
Qed.


(** * The claims *)

(** ** C1: [untrack] *)

(** C1. [index.ts] exports nothing called [untrack].  The untrack scenario
    of the test file stops with a [TypeError] inside the first run of its
    effect: the counter it asserts to be 1 is still 0, and neither setter is
    reached. *)
Theorem untrack_is_not_exported :
  ("untrack" ∉ exports) ∧
  ∃ w',
    runScript 20 testUntrackScenarios (empty_world 1)
      = Exn (TypeError "untrack is not a function") w' ∧
    vars w' = [0%Z] ∧
    current <$> signals w' !! 0 = Some (VStr "John").
Proof.
  split.
  - unfold exports. rewrite !elem_of_cons, elem_of_nil.
    intros [H|[H|[H|[H|[H|H]]]]]; try discriminate H. exact H.
  - eexists. split; [vm_compute; reflexivity|]. split; reflexivity.
Qed.

(** ** C2: the queue after a failing body *)

(** The part of C2 that the code keeps: on every normal return the queue is
    closed if it was closed on entry. *)
Theorem queue_closed_after_normal_return fuel script w w' :
  Updates w = None → runScript fuel script w = Ok tt w' → Updates w' = None.
Proof.
  revert w. induction script as [|c script IH]; intros w Hw H; simpl in H.
  - inversion H; now subst.
  - apply bind_ok in H as (u & w1 & H1 & H2).
    destruct (engine_queue_safe fuel) as (_ & _ & _ & _ & _ & _ & _ & Hexec).
    pose proof (wp_ok _ _ _ _ _ _ (Hexec c w) H1) as Hext.
    unfold queue_ext in Hext. rewrite Hw in Hext. eauto.
Qed.

(** C2. A setter whose flush ends in an exception returns to its caller with
    the running stack empty and the queue still open.  The next, unrelated
    setter finds the queue open, only enqueues its observer, and returns
    without having run it: effect [1] stays at one run and stays pending.
    From the world before the failure the same setter runs effect [1]. *)
Theorem exception_leaves_queue_open :
  runScript 20 fragile_setup (empty_world 2) = Ok tt fragile_world ∧
  Updates fragile_world = None ∧
  exec 20 (setter 0 (VNum 1)) fragile_world
    = Exn (UserError "boom") fragile_failed ∧
  runningEffects fragile_failed = [] ∧
  Updates fragile_failed = Some [0] ∧
  exec 20 (setter 1 (VNum 7)) fragile_failed = Ok tt fragile_stuck ∧
  vars fragile_stuck = [2%Z; 1%Z] ∧
  Updates fragile_stuck = Some [0; 1] ∧
  marker fragile_stuck 1 = Some pending ∧
  (vars <$> world_of (exec 20 (setter 1 (VNum 7)) fragile_world))
    = Some [1%Z; 2%Z].
Proof. vm_compute. auto 12. Qed.

(** ** C3: a setter stores and schedules whatever the value *)

(** C3. (1) A signal created with any value, observed by one effect that
    reads it and counts its runs: after the setter has been called with any
    values whatever, equal to the stored one or not, the effect has run once
    plus once per call, and the signal holds the last value written.
    (2) With the values of the spec's scenario (initial 0, then 5 twice) the
    count is 3.  (3) A setter called while a queue is open stores its
    argument and leaves every observer of the signal marked pending. *)
Theorem write_always_stores_and_schedules :
  (∀ v0 ws, ∃ w',
     runScript 20 ([CCreateSignal (EConst v0); CCreateEffect counter_body]
             ++ map (setter 0) ws) (empty_world 1) = Ok tt w' ∧
     vars w' = [(1 + Z.of_nat (length ws))%Z] ∧
     current <$> signals w' !! 0 = Some (default v0 (last ws))) ∧
  (∃ w',
     runScript 20 [CCreateSignal (EConst (VNum 0)); CCreateEffect counter_body;
             setter 0 (VNum 5); setter 0 (VNum 5)] (empty_world 1) = Ok tt w' ∧
     vars w' = [3%Z]) ∧
  (∀ fuel signal v w w' q node,
     Updates w = Some q → signals w !! signal = Some node →
     write fuel signal v w = Ok tt w' →
     current <$> signals w' !! signal = Some v ∧
     ∀ o, o ∈ observers node → marker w' o = Some pending).
Proof.
  split; [|split].
  - intros v0 ws. eexists. split.
    + rewrite runScript_app. unfold bind. rewrite counter_setup. apply counter_writes.
    + split; reflexivity.
  - eexists. split; vm_compute; reflexivity.
  - intros fuel signal v w w' q node Hq Hn H.
    pose proof (write_nested _ _ _ _ _ _ _ Hq Hn H) as Hs.
    assert (Hn' : signals (store signal v w) !! signal = Some (with_current v node)).
    { simpl. now rewrite list_lookup_alter_eq, Hn. }
    split.
    + pose proof (wp_ok _ _ _ _ _ _ (schedule_same_signals signal _) Hs) as Hsig.
      unfold same_signals in Hsig. now rewrite Hsig, Hn'.
    + intros o Ho. eapply schedule_marks_every_observer; eauto.
Qed.

Lemma write_always_stores_and_schedules_witness :
  let w := set_Updates (Some []) (counter_world (VNum 5) 1) in
  ∃ w', write 5 0 (VNum 5) w = Ok tt w' ∧
        current <$> signals w' !! 0 = Some (VNum 5) ∧
        marker w' 0 = Some pending.
Proof.
  intros w. eexists. split; [vm_compute; reflexivity|].
  destruct (proj2 (proj2 write_always_stores_and_schedules)
              5 0 (VNum 5) w _ [] {| current := VNum 5; observers := [0] |}
              eq_refl eq_refl eq_refl) as [Hc Hm].
  split; [exact Hc|]. apply Hm. left.
Defined.

(** ** C4: the pending marker *)




(** ** C5: writes inside one batch share one flush *)



(** ** C6: a memo computes once per change, however often it is read *)


(** ** C7: dependencies follow the branch taken *)



(** ** C8: one flush drains the queue in append order *)


(** The setter of signal [0] enqueues effects [1] and [2]; the run of effect
    [1] enqueues effect [0] behind effect [2]; the three run in that order. *)
Example relay_order :
  write 20 0 (VNum 9) relay_world = Ok tt relay_written ∧
  console relay_written = [VNum 2; VNum 3; VNum 1] ∧
  Updates relay_written = None.
Proof. vm_compute. auto. Qed.


(** ** C9: the running stack survives a failing body *)

(** C9. When a run of a computation ends in an exception, whether its body
    raised or anything it called did, the stack of running computations that
    the caller gets back is the stack it had before the run was entered, so
    [getRunningEffect] answers as if the failed run had not happened. *)
Theorem runEffect_exception_restores_stack fuel effect w err w' :
  runEffect fuel effect w = Exn err w' →
  runningEffects w' = runningEffects w ∧
  getRunningEffect w' = getRunningEffect w.
Proof.
  intros H.
  destruct (engine_stack_safe fuel) as (Hrun & _).
  pose proof (wp_exn _ _ _ _ _ _ (Hrun effect w) H) as Hs.
  unfold same_stack in Hs. unfold getRunningEffect. now rewrite Hs.
Qed.

Lemma runEffect_exception_restores_stack_witness :
  ∃ w', runEffect 5 1 failing_world = Exn (UserError "boom") w' ∧
        runningEffects w' = [0] ∧ getRunningEffect w' = Some 0.
Proof.
  eexists. split; [vm_compute; reflexivity|].
  apply (runEffect_exception_restores_stack 5 1 failing_world (UserError "boom")).
  vm_compute. reflexivity.
Defined.

(** ** C10: a memo always writes its backing signal *)

(** C10. (1) A memo computing any function [f] of a signal, and an effect
    that reads the memo: after any sequence of writes to the signal the memo
    has been recomputed once per write and so has the effect, whether or not
    the recomputed values differ.  (2) In particular, for a memo whose value
    is the same [k] whatever the signal holds, the effect still runs once
    per write although the memo's value never changes.  (3) In any world,
    the effect behind a memo has, and keeps, the callback that runs the
    memo's body and then calls the setter of the backing signal with the
    result: no run of it compares the new value with the cached one. *)
Theorem memo_reruns_readers_without_change :
  (∀ (f : value → value) (v0 : value) (ws : list value),
     ∃ w',
       runScript 20 (read_memo_setup f v0 ++ map (setter 0) ws) (empty_world 2)
         = Ok tt w' ∧
       vars w' = [(1 + Z.of_nat (length ws))%Z; (1 + Z.of_nat (length ws))%Z] ∧
       current <$> signals w' !! 1 = Some (f (default v0 (last ws)))) ∧
  (∀ (k v0 : value) (ws : list value),
     ∃ w0 w',
       runScript 20 (read_memo_setup (fun _ => k) v0) (empty_world 2)
         = Ok tt w0 ∧
       current <$> signals w0 !! 1 = Some k ∧
       runScript 20 (map (setter 0) ws) w0 = Ok tt w' ∧
       vars w' = [(1 + Z.of_nat (length ws))%Z; (1 + Z.of_nat (length ws))%Z] ∧
       current <$> signals w' !! 1 = Some k) ∧
  (∀ fuel body result w s w',
     createMemo fuel body result w = Ok s w' →
     s = length (signals w) ∧
     ∃ eff, effects w' !! length (effects w) = Some eff ∧
            fn eff = CSeq body (CSet s result)).
Proof.
  split; [|split].
  - intros f v0 ws. eexists. split.
    + rewrite runScript_app. unfold bind. rewrite read_memo_created.
      apply read_memo_writes.
    + split; reflexivity.
  - intros k v0 ws.
    exists (read_memo_world (fun _ => k) v0 1 1). eexists.
    split; [apply read_memo_created|]. split; [reflexivity|].
    split; [apply read_memo_writes|]. split; reflexivity.
  - apply createMemo_backing_effect.
Qed.

Lemma memo_reruns_readers_without_change_witness :
  ∃ eff,
    effects (final_world (createMemo 20 (CIncr 0) (EConst (VNum 7))
                            (counter_world (VNum 0) 1))) !! 1 = Some eff ∧
    fn eff = CSeq (CIncr 0) (CSet 1 (EConst (VNum 7))).
Proof.
  destruct (proj2 (proj2 memo_reruns_readers_without_change)
              20 (CIncr 0) (EConst (VNum 7)) (counter_world (VNum 0) 1) 1
              (final_world (createMemo 20 (CIncr 0) (EConst (VNum 7))
                              (counter_world (VNum 0) 1))))
    as [_ H].
  - vm_compute. reflexivity.
  - exact H.
Defined.

(** * Further properties of the engine *)

(** ** Readers, setters, teardown and batches *)

(** X1. Whatever statements a caller runs, and whether they return or one
    of them raises, the stack of running computations is afterwards what it
    was before: every [push] of [runEffect] is undone by the [pop] in its
    [finally], also for effects run from a flush, a batch, a memo or a
    nested effect. *)
Theorem every_script_restores_the_stack fuel script w :
  match runScript fuel script w with
  | Ok _ w' | Exn _ w' => runningEffects w' = runningEffects w
  | OutOfFuel => True
  end.
Proof.
  revert w. induction script as [|c script IH]; intros w; simpl; [reflexivity|].
  destruct (engine_stack_safe fuel) as (_ & _ & _ & _ & _ & _ & _ & _ & Hexec).
  specialize (Hexec c w). unfold wp, same_stack in Hexec. unfold bind.
  destruct (exec fuel c w) as [u w1|e w1|]; auto.
  specialize (IH w1). destruct (runScript fuel script w1); congruence.
Qed.

Lemma set_add_idem x l : set_add x (set_add x l) = set_add x l.
Proof.
  destruct (set_has x l) eqn:H.
  - unfold set_add. rewrite H. now rewrite H.
  - assert (E : set_add x l = l ++ [x]) by (unfold set_add; now rewrite H).
    rewrite E. unfold set_add.
    assert (H' : set_has x (l ++ [x]) = true).
    { unfold set_has. rewrite existsb_app. simpl. rewrite Nat.eqb_refl.
      now rewrite orb_true_r. }
    now rewrite H'.
Qed.

Lemma track_idem t s w :
  trackEffectDependency t s (trackEffectDependency t s w)
  = trackEffectDependency t s w.
Proof.
  unfold trackEffectDependency. destruct w as [sg ef st up va co]. simpl.
  unfold set_effects, set_signals. simpl. f_equal.
  - rewrite list_alter_alter_eq. apply list_alter_ext; [|reflexivity].
    intros [c o] _. unfold with_observers, compose. simpl. now rewrite set_add_idem.
  - rewrite list_alter_alter_eq. apply list_alter_ext; [|reflexivity].
    intros [f d o od stt] _. unfold with_dependencies, compose. simpl. now rewrite set_add_idem.
Qed.

Lemma read_tracked signal w node t :
  signals w !! signal = Some node → getRunningEffect w = Some t →
  read signal w = Ok (current node) (trackEffectDependency t signal w).
Proof.
  intros Hn Ht. unfold read, bind, get_signal, gets, modify, ret.
  rewrite Hn, Ht. simpl. rewrite list_lookup_alter_eq, Hn. reflexivity.
Qed.

(** X2. Calling a reader twice in a row is calling it once: the same value
    and the same world.  [observers] and [dependencies] are sets, so the
    second call registers nothing and moves nothing. *)
Theorem reading_twice_tracks_once signal w :
  (read signal ;; read signal) w = read signal w.
Proof.
  unfold bind at 1.
  destruct (signals w !! signal) as [node|] eqn:Hn.
  - destruct (getRunningEffect w) as [t|] eqn:Ht.
    + rewrite (read_tracked _ _ _ _ Hn Ht).
      erewrite read_tracked; [|simpl; rewrite list_lookup_alter_eq, Hn; reflexivity|exact Ht].
      now rewrite track_idem.
    + unfold getRunningEffect in Ht. apply last_None in Ht.
      rewrite (read_untracked _ _ _ Ht Hn). now rewrite (read_untracked _ _ _ Ht Hn).
  - unfold read, bind, get_signal. now rewrite Hn.
Qed.

(** X3. In any world, also inside a running computation:
    [createSignal(v)] returns a new signal whose reader returns [v].  Its
    setter, called before anything has read the signal, only stores: it
    returns, the reader then returns the value written, the signals that
    existed hold what they held, and effects, counters, console, queue and
    stack are as they were. *)
Theorem fresh_signal_round_trip n v v' w :
  let s := length (signals w) in
  ∃ w1 w2,
    createSignal v w = Ok s w1 ∧
    (∃ w1', read s w1 = Ok v w1') ∧
    write (S n) s v' w1 = Ok tt w2 ∧
    (∃ w2', read s w2 = Ok v' w2') ∧
    (∀ s', s' < s → current <$> signals w2 !! s' = current <$> signals w !! s') ∧
    effects w2 = effects w ∧ vars w2 = vars w ∧ console w2 = console w ∧
    Updates w2 = Updates w ∧ runningEffects w2 = runningEffects w.
Proof.
  intros s.
  set (w1 := set_signals (fun l => l ++ [{| current := v; observers := [] |}]) w).
  set (w2 := store s v' w1).
  assert (H1 : signals w1 !! s = Some {| current := v; observers := [] |}).
  { unfold w1, s. simpl. rewrite lookup_app_r by lia. now rewrite Nat.sub_diag. }
  assert (H2 : signals w2 !! s = Some {| current := v'; observers := [] |}).
  { unfold w2. change (signals (store s v' w1)) with (alter (with_current v') s (signals w1)).
    now rewrite list_lookup_alter_eq, H1. }
  assert (Hread : ∀ x nd, signals x !! s = Some nd → ∃ x', read s x = Ok (current nd) x').
  { intros x nd Hx. pose proof (read_runs_nothing s x) as Hr.
    destruct (read s x) as [r x'|e x'|] eqn:E.
    - destruct Hr as (_ & _ & _ & Hc). rewrite Hx in Hc. simpl in Hc.
      inversion Hc. eauto.
    - unfold read, bind, get_signal in E. rewrite Hx in E.
      destruct (gets getRunningEffect x) as [o x1| |] eqn:G; try discriminate.
      unfold gets in G. inversion G; subst o x1; clear G.
      destruct (getRunningEffect x); simpl in E; unfold modify, ret in E.
      + simpl in E. rewrite list_lookup_alter_eq, Hx in E. discriminate.
      + rewrite Hx in E. discriminate.
    - contradiction. }
  exists w1, w2. split; [reflexivity|]. split; [exact (Hread w1 _ H1)|].
  split.
  { simpl. unfold bind, get_signal, modify. rewrite H1.
    fold (store s v' w1). fold w2. rewrite H2. reflexivity. }
  split; [exact (Hread w2 _ H2)|].
  split; [|repeat split].
  intros s' Hs'. unfold w2, w1. simpl.
  rewrite list_lookup_alter_ne by lia. now rewrite lookup_app_l by lia.
Qed.

Lemma set_effects_same f w : f (effects w) = effects w → set_effects f w = w.
Proof. destruct w. unfold set_effects. simpl. now intros ->. Qed.

Lemma alter_fixed {A} (f : A → A) i (l : list A) x :
  l !! i = Some x → f x = x → alter f i l = l.
Proof.
  intros Hx Hf. transitivity (alter id i l).
  - apply list_alter_ext; [|reflexivity]. intros y Hy.
    assert (y = x) by congruence. subst y. exact Hf.
  - now apply list_alter_id.
Qed.

(** What [cleanup] leaves of the effect it was called on. *)
Lemma cleanup_leaves fuel effect w w' :
  cleanup fuel effect w = Ok tt w' →
  ∃ eff, effects w' !! effect = Some eff ∧ dependencies eff = [] ∧
         state eff = None ∧ (owned eff = None ∨ owned eff = Some []).
Proof.
  intros H. destruct fuel as [|n]; [discriminate|]. simpl in H.
  apply bind_ok in H as (e & w0 & Hget & H).
  unfold get_effect in Hget.
  destruct (effects w !! effect) as [e'|] eqn:He; [|discriminate].
  inversion Hget; subst e' w0; clear Hget.
  apply bind_ok in H as (u1 & wa & Ha & H). rewrite (unit_eta u1) in Ha.
  apply bind_ok in H as (u2 & wb & Hb & H).
  apply bind_ok in H as (u3 & wc & Hc & H).
  inversion Hc; subst u3 wc; clear Hc. inversion H; subst w'; clear H.
  destruct (forEach_unobserve _ _ _ _ Ha) as (Hea & _ & _).
  assert (Hb' : ∃ x, effects wb !! effect = Some x ∧
                     (owned x = None ∨ owned x = Some [])).
  { destruct (owned e) as [children|] eqn:Ho.
    - apply bind_ok in Hb as (u & wb' & Hb1 & Hb2).
      inversion Hb2; subst u2 wb; clear Hb2. simpl.
      assert (Hg : grows wa wb').
      { assert (R : respects grows grows (forEach children (cleanup n))).
        { apply respects_forEach; try grows_pre. intros x _. apply cleanup_grows. }
        exact (wp_ok _ _ _ _ _ _ (R wa) Hb1). }
      unfold grows in Hg. rewrite Hea in Hg.
      apply lookup_lt_Some in He.
      destruct (lookup_lt_is_Some_2 (effects wb') effect ltac:(lia)) as [x Hx].
      exists (with_owned (Some []) x). rewrite list_lookup_alter_eq, Hx. auto.
    - inversion Hb; subst u2 wb; clear Hb. exists e. rewrite Hea. auto. }
  destruct Hb' as (x & Hx & Hox).
  exists (with_dependencies (fun _ => []) (with_state None x)).
  simpl. rewrite !list_lookup_alter_eq, Hx. simpl. auto.
Qed.

(** X4. [cleanup] is idempotent: in the world that a [cleanup] of an effect
    returned, a second [cleanup] of the same effect returns and changes
    nothing. *)
Theorem cleanup_twice_is_cleanup_once n m effect w w' :
  cleanup n effect w = Ok tt w' → cleanup (S m) effect w' = Ok tt w'.
Proof.
  intros H. destruct (cleanup_leaves _ _ _ _ H) as (eff & He & Hd & Hs & Ho).
  simpl. unfold bind, get_effect. rewrite He, Hd. simpl.
  assert (Hid : ∀ g, g eff = eff →
            set_effects (alter g effect) w' = w').
  { intros g Hg. apply set_effects_same. now apply (alter_fixed g _ _ eff). }
  destruct eff as [f d o od st]. simpl in *. subst d st.
  destruct Ho as [->| ->]; unfold modify, ret; simpl;
    rewrite ?(Hid (with_owned (Some [])) eq_refl),
            ?(Hid (with_state None) eq_refl),
            ?(Hid (with_dependencies (fun _ => [])) eq_refl); reflexivity.
Qed.

Lemma cleanup_twice_is_cleanup_once_witness :
  cleanup 1 0 (final_world (cleanup 5 0 (counter_world (VNum 0) 1)))
  = Ok tt (final_world (cleanup 5 0 (counter_world (VNum 0) 1))).
Proof.
  apply (cleanup_twice_is_cleanup_once 5 0 0 (counter_world (VNum 0) 1)).
  reflexivity.
Defined.

Lemma write_unfold k signal v w node :
  signals w !! signal = Some node →
  write (S k) signal v w
  = match observers node with
    | [] => Ok tt (store signal v w)
    | _ :: _ => runUpdates k (schedule signal) (store signal v w)
    end.
Proof.
  intros Hn. cbn [write]. unfold bind, get_signal, modify. rewrite Hn.
  fold (store signal v w).
  assert (Hn' : signals (store signal v w) !! signal = Some (with_current v node)).
  { simpl. now rewrite list_lookup_alter_eq, Hn. }
  rewrite Hn'. simpl. now destruct (observers node).
Qed.

(** X5. (1) Outside any propagation, a batch whose callback is one call of
    a setter has the outcome of the call alone, whether the signal has
    observers or not.  (2) While a queue is open (inside another batch, or
    inside a running effect) [batch(fn)] is [fn()]: it starts no flush of
    its own (the batch spends one call more than its callback). *)
Theorem batch_around_one_write_changes_nothing :
  (∀ n signal v w,
     Updates w = None → is_Some (signals w !! signal) →
     exec (5 + n) (CBatch (setter signal v)) w = exec (5 + n) (setter signal v) w) ∧
  (∀ n body w,
     is_Some (Updates w) →
     exec (3 + n) (CBatch body) w = exec (2 + n) body w).
Proof.
  split.
  - intros n signal v w HU [node Hn].
    change (5 + n) with (S (S (S (S (S n))))).
    cbn [exec batch setter]. cbn [runUpdates]. unfold bind at 1. unfold gets at 1.
    rewrite HU. unfold bind at 1. unfold modify at 1.
    unfold bind at 1. unfold bind at 1. unfold eval at 1, ret at 1.
    unfold eval, ret, bind.
    rewrite (write_unfold _ _ _ _ node) by exact Hn.
    rewrite (write_unfold _ _ _ _ node) by exact Hn.
    destruct (observers node) as [|o os].
    + cbn [flushUpdates flushLoop]. unfold bind, get_Updates, modify. simpl.
      f_equal. destruct w. simpl in *. now subst.
    + cbn [runUpdates]. unfold bind, gets, modify.
      change (Updates (store signal v (set_Updates (Some []) w))) with (Some (@nil nat)).
      change (Updates (store signal v w)) with (Updates w). rewrite HU. reflexivity.
  - intros n body w [q Hq].
    change (3 + n) with (S (S (S n))). change (2 + n) with (S (S n)).
    cbn [exec batch]. cbn [runUpdates]. unfold bind, gets. now rewrite Hq.
Qed.

Lemma batch_around_one_write_changes_nothing_witness :
  exec 20 (CBatch (setter 0 (VNum 3))) (counter_world (VNum 0) 1)
  = exec 20 (setter 0 (VNum 3)) (counter_world (VNum 0) 1) ∧
  exec 20 (setter 0 (VNum 3)) (counter_world (VNum 0) 1)
  = Ok tt (counter_world (VNum 3) 2).
Proof.
  split; [|reflexivity].
  apply (proj1 batch_around_one_write_changes_nothing 15 0 (VNum 3)
           (counter_world (VNum 0) 1)).
  - reflexivity.
  - eexists. reflexivity.
Defined.

Lemma forEach_schedule_in_order l : ∀ w w' q,
  Updates w = Some q → NoDup l →
  forEach l schedule_observer w = Ok tt w' →
  Updates w' = Some (q ++ List.filter (unmarked w) l).
Proof.
  induction l as [|x l IH]; intros w w' q Hq Hnd H; simpl in H.
  - inversion H; subst w'. simpl. now rewrite app_nil_r.
  - apply NoDup_cons in Hnd as [Hx Hnd].
    apply bind_ok in H as (u & w1 & H1 & H2). rewrite (unit_eta u) in H1.
    assert (Hext : ∀ w1, (∀ o, o ≠ x → marker w1 o = marker w o) →
                     List.filter (unmarked w1) l = List.filter (unmarked w) l).
    { intros w2 Hm. apply filter_ext_in. intros o Ho. unfold unmarked.
      rewrite Hm; [reflexivity|]. intros ->. apply Hx. now apply list_elem_of_In. }
    destruct (schedule_observer_cases _ _ _ H1)
      as [[Hm ->]|(Hm & Hpush & _ & Hm1 & Hother)].
    + simpl. unfold unmarked at 1. rewrite Hm. now apply IH.
    + simpl. unfold unmarked at 1. rewrite Hm.
      rewrite (IH _ _ _ (Hpush _ Hq) Hnd H2), <- app_assoc. simpl.
      now rewrite (Hext w1 Hother).
Qed.

(** X6. The scheduling callback of a setter appends to the queue exactly
    the observers that are not marked, in the order of the observer set
    (the order in which they last subscribed). *)
Theorem observers_are_enqueued_in_set_order signal w w' q node :
  Updates w = Some q → signals w !! signal = Some node →
  NoDup (observers node) →
  schedule signal w = Ok tt w' →
  Updates w' = Some (q ++ List.filter (unmarked w) (observers node)).
Proof.
  intros Hq Hn Hnd H. unfold schedule, bind, get_signal in H. rewrite Hn in H.
  now apply forEach_schedule_in_order.
Qed.

Lemma observers_are_enqueued_in_set_order_witness :
  Updates (final_world (schedule 0 (set_Updates (Some []) relay_world)))
  = Some ([] ++ List.filter (unmarked (set_Updates (Some []) relay_world)) [1; 2]).
Proof.
  apply (observers_are_enqueued_in_set_order 0
           (set_Updates (Some []) relay_world) _ []
           {| current := VNum 0; observers := [1; 2] |}).
  - reflexivity.
  - reflexivity.
  - apply NoDup_cons. split; [|apply NoDup_singleton].
    intros H. apply list_elem_of_singleton in H. discriminate.
  - reflexivity.
Defined.

(** ** Nested effects; a memo and its reader *)

Lemma nested_created c0 s0 :
  runScript 20 (nested_setup c0 s0) (empty_world 2) = Ok tt (nested_world c0 s0 1 1).
Proof. reflexivity. Qed.

Lemma nested_inner_write c s n m s' :
  exec 20 (setter 1 s') (nested_world c s n m)
  = Ok tt (nested_world c s' n (Z.succ m)).
Proof. reflexivity. Qed.

Lemma nested_outer_write c s n m c' :
  exec 20 (setter 0 c') (nested_world c s n m)
  = Ok tt (nested_rerun c' s (Z.succ n) (Z.succ m)).
Proof. reflexivity. Qed.

Lemma rerun_inner_write c s n m s' :
  exec 20 (setter 1 s') (nested_rerun c s n m)
  = Ok tt (nested_rerun c s' n (Z.succ m)).
Proof. reflexivity. Qed.

Lemma nested_batch_both c s n m c' s' :
  exec 20 (batch_both c' s') (nested_world c s n m)
  = Ok tt (nested_revived c' s' (Z.succ n) (Z.succ (Z.succ m))).
Proof. reflexivity. Qed.

Lemma revived_inner_write c s n m s' :
  exec 20 (setter 1 s') (nested_revived c s n m)
  = Ok tt (nested_revived c s' n (Z.succ (Z.succ m))).
Proof. reflexivity. Qed.

Lemma nested_inner_writes ws : ∀ c s n m,
  runScript 20 (map (setter 1) ws) (nested_world c s n m)
  = Ok tt (nested_world c (default s (last ws)) n (m + Z.of_nat (length ws))).
Proof.
  induction ws as [|x ws IH]; intros c s n m.
  - simpl. now rewrite Z.add_0_r.
  - cbn [map runScript]. unfold bind. rewrite nested_inner_write, IH, last_cons.
    f_equal. f_equal; [now destruct (last ws) | cbn [length]; lia].
Qed.

Lemma rerun_inner_writes ws : ∀ c s n m,
  runScript 20 (map (setter 1) ws) (nested_rerun c s n m)
  = Ok tt (nested_rerun c (default s (last ws)) n (m + Z.of_nat (length ws))).
Proof.
  induction ws as [|x ws IH]; intros c s n m.
  - simpl. now rewrite Z.add_0_r.
  - cbn [map runScript]. unfold bind. rewrite rerun_inner_write, IH, last_cons.
    f_equal. f_equal; [now destruct (last ws) | cbn [length]; lia].
Qed.

Lemma revived_inner_writes ws : ∀ c s n m,
  runScript 20 (map (setter 1) ws) (nested_revived c s n m)
  = Ok tt (nested_revived c (default s (last ws)) n
             (m + 2 * Z.of_nat (length ws))).
Proof.
  induction ws as [|x ws IH]; intros c s n m.
  - simpl. now rewrite Z.add_0_r.
  - cbn [map runScript]. unfold bind. rewrite revived_inner_write, IH, last_cons.
    f_equal. f_equal; [now destruct (last ws) | cbn [length]; lia].
Qed.

(** X7. The [nested] scenario of the test file, for any values.  Created,
    the outer effect owns the inner one and each body has run once.  Writes
    to the inner signal run the inner body alone, once each.  A write to the
    outer signal runs both bodies once: the outer effect then owns a new
    inner effect, and the old one has no dependency and is in no observer
    set.  From then on a write to the inner signal still runs the inner body
    once, not twice. *)
Theorem rerun_replaces_the_nested_effect :
  ∀ (c0 s0 c1 : value) (ws ws' : list value),
    ∃ w1 w2 w3 w4,
      runScript 20 (nested_setup c0 s0) (empty_world 2) = Ok tt w1 ∧
      vars w1 = [1%Z; 1%Z] ∧
      owned <$> effects w1 !! 0 = Some (Some [1]) ∧
      owner <$> effects w1 !! 1 = Some (Some 0) ∧
      runScript 20 (map (setter 1) ws) w1 = Ok tt w2 ∧
      vars w2 = [1%Z; (1 + Z.of_nat (length ws))%Z] ∧
      exec 20 (setter 0 c1) w2 = Ok tt w3 ∧
      vars w3 = [2%Z; (2 + Z.of_nat (length ws))%Z] ∧
      owned <$> effects w3 !! 0 = Some (Some [2]) ∧
      deps_of w3 1 = Some [] ∧
      observers <$> signals w3 !! 1 = Some [2] ∧
      runScript 20 (map (setter 1) ws') w3 = Ok tt w4 ∧
      vars w4 = [2%Z; (2 + Z.of_nat (length ws) + Z.of_nat (length ws'))%Z].
Proof.
  intros c0 s0 c1 ws ws'.
  exists (nested_world c0 s0 1 1),
         (nested_world c0 (default s0 (last ws)) 1 (1 + Z.of_nat (length ws))),
         (nested_rerun c1 (default s0 (last ws)) 2 (2 + Z.of_nat (length ws))),
         (nested_rerun c1 (default (default s0 (last ws)) (last ws')) 2
            (2 + Z.of_nat (length ws) + Z.of_nat (length ws'))).
  rewrite nested_created, nested_inner_writes, nested_outer_write, rerun_inner_writes.
  replace (Z.succ (1 + Z.of_nat (length ws))) with (2 + Z.of_nat (length ws))%Z by lia.
  change (Z.succ 1) with 2%Z.
  repeat split; reflexivity.
Qed.

Lemma revived_outer_write c s n m c' :
  exec 20 (setter 0 c') (nested_revived c s n m)
  = Ok tt (nested_stray c' s (Z.succ n) (Z.succ m)).
Proof. reflexivity. Qed.

Lemma stray_inner_write c s n m s' :
  exec 20 (setter 1 s') (nested_stray c s n m)
  = Ok tt (nested_stray c s' n (Z.succ (Z.succ m))).
Proof. reflexivity. Qed.

Lemma stray_inner_writes ws : ∀ c s n m,
  runScript 20 (map (setter 1) ws) (nested_stray c s n m)
  = Ok tt (nested_stray c (default s (last ws)) n
             (m + 2 * Z.of_nat (length ws))).
Proof.
  induction ws as [|x ws IH]; intros c s n m.
  - simpl. now rewrite Z.add_0_r.
  - cbn [map runScript]. unfold bind. rewrite stray_inner_write, IH, last_cons.
    f_equal. f_equal; [now destruct (last ws) | cbn [length]; lia].
Qed.

(** X8. The same two effects, with both signals written in one batch.  The
    inner effect is in the queue behind its owner; the run of the owner
    tears it down and creates its successor, and the drain then runs the old
    inner effect in its slot, where it subscribes again.  The batch costs
    the inner body two runs, and afterwards every write to the inner signal
    runs the inner body twice, once for each of the two effects.  The old one
    is no longer owned by anything: a later run of the outer effect replaces
    the successor but leaves the old effect subscribed. *)
Theorem child_disposed_while_queued_is_revived :
  ∀ (c0 s0 c1 s1 c2 : value) (ws ws' : list value),
    ∃ w1 w2 w3 w4 w5,
      runScript 20 (nested_setup c0 s0) (empty_world 2) = Ok tt w1 ∧
      exec 20 (batch_both c1 s1) w1 = Ok tt w2 ∧
      vars w2 = [2%Z; 3%Z] ∧
      owned <$> effects w2 !! 0 = Some (Some [2]) ∧
      observers <$> signals w2 !! 1 = Some [2; 1] ∧
      runScript 20 (map (setter 1) ws) w2 = Ok tt w3 ∧
      vars w3 = [2%Z; (3 + 2 * Z.of_nat (length ws))%Z] ∧
      exec 20 (setter 0 c2) w3 = Ok tt w4 ∧
      owned <$> effects w4 !! 0 = Some (Some [3]) ∧
      observers <$> signals w4 !! 1 = Some [1; 3] ∧
      runScript 20 (map (setter 1) ws') w4 = Ok tt w5 ∧
      vars w5 = [3%Z; (4 + 2 * Z.of_nat (length ws)
                         + 2 * Z.of_nat (length ws'))%Z].
Proof.
  intros c0 s0 c1 s1 c2 ws ws'.
  exists (nested_world c0 s0 1 1),
         (nested_revived c1 s1 2 3),
         (nested_revived c1 (default s1 (last ws)) 2 (3 + 2 * Z.of_nat (length ws))),
         (nested_stray c2 (default s1 (last ws)) 3 (4 + 2 * Z.of_nat (length ws))),
         (nested_stray c2 (default (default s1 (last ws)) (last ws')) 3
            (4 + 2 * Z.of_nat (length ws) + 2 * Z.of_nat (length ws'))).
  rewrite nested_created, nested_batch_both.
  change (Z.succ 1) with 2%Z. change (Z.succ (Z.succ 1)) with 3%Z.
  rewrite revived_inner_writes, revived_outer_write.
  replace (Z.succ (3 + 2 * Z.of_nat (length ws)))
    with (4 + 2 * Z.of_nat (length ws))%Z by lia.
  change (Z.succ 2) with 3%Z.
  rewrite stray_inner_writes.
  repeat split; reflexivity.
Qed.

Lemma board_created g v1 v2 :
  runScript 20 (board_setup g v1 v2) (empty_world 2)
  = Ok tt (board_world g v1 v2 1 1 (board_line g (v1, v2))).
Proof. reflexivity. Qed.

Lemma board_updated g v1 v2 n m out u :
  exec 20 (update_cmd u) (board_world g v1 v2 n m out)
  = Ok tt (board_world g (fst (updated (v1, v2) u)) (snd (updated (v1, v2) u))
             (Z.succ n) (Z.succ m)
             (((out ++ [g (fst (updated (v1, v2) u)) (snd (updated (v1, v2) u))])
                 ++ [fst (updated (v1, v2) u)])
                ++ [snd (updated (v1, v2) u)])).
Proof. destruct u; reflexivity. Qed.

Lemma board_updates g us : ∀ v1 v2 n m out,
  ∃ w',
    runScript 20 (map update_cmd us) (board_world g v1 v2 n m out) = Ok tt w' ∧
    vars w' = [(n + Z.of_nat (length us))%Z; (m + Z.of_nat (length us))%Z] ∧
    console w' = out ++ board_lines g (v1, v2) us.
Proof.
  induction us as [|u us IH]; intros v1 v2 n m out.
  - eexists. split; [reflexivity|]. simpl. now rewrite !Z.add_0_r, app_nil_r.
  - cbn [map runScript]. unfold bind. rewrite board_updated.
    destruct (IH (fst (updated (v1, v2) u)) (snd (updated (v1, v2) u))
                (Z.succ n) (Z.succ m)
                (((out ++ [g (fst (updated (v1, v2) u)) (snd (updated (v1, v2) u))])
                    ++ [fst (updated (v1, v2) u)])
                   ++ [snd (updated (v1, v2) u)]))
      as (w' & Hrun & Hvars & Hout).
    exists w'. split; [exact Hrun|]. split.
    + rewrite Hvars. cbn [length]. f_equal; [lia|]. f_equal. lia.
    + rewrite Hout. cbn [board_lines]. unfold board_line.
      rewrite <- surjective_pairing. now rewrite <- !app_assoc.
Qed.

(** X9. The shape of the batching scenario of the test file, for any
    function computed by the memo, any initial values and any sequence of
    updates, each a batch that writes both signals or a single write to one
    of them.  The memo is computed once and the effect runs once per update,
    and what the effect prints in each run is the memo's value followed by
    the two values it was computed from: the effect never sees a memo that
    lags behind the signals. *)
Theorem memo_and_reader_run_once_per_update_and_agree :
  ∀ (g : value → value → value) (v1 v2 : value) (us : list update),
    ∃ w',
      runScript 20 (board_setup g v1 v2 ++ map update_cmd us) (empty_world 2)
        = Ok tt w' ∧
      vars w' = [(1 + Z.of_nat (length us))%Z; (1 + Z.of_nat (length us))%Z] ∧
      console w' = board_line g (v1, v2) ++ board_lines g (v1, v2) us.
Proof.
  intros g v1 v2 us.
  destruct (board_updates g us v1 v2 1 1 (board_line g (v1, v2)))
    as (w' & Hrun & Hvars & Hout).
  exists w'. split; [|auto].
  rewrite runScript_app. unfold bind. now rewrite board_created.
Qed.

(** ** Dependency edges and ownership *)

Lemma children_of_alter g e w x :
  children_of (set_effects (alter g e) w) x
  = if decide (e = x)
    then default [] (eff ← effects w !! x; owned (g eff))
    else children_of w x.
Proof.
  unfold children_of. simpl. rewrite list_lookup_alter.
  destruct (decide (e = x)) as [->|Hne]; [|reflexivity].
  now destruct (effects w !! x).
Qed.

Lemma owner_of_alter g e w x :
  (∀ eff, owner (g eff) = owner eff) →
  owner_of (set_effects (alter g e) w) x = owner_of w x.
Proof.
  intros Hg. unfold owner_of. simpl. rewrite list_lookup_alter.
  destruct (decide (e = x)) as [->|Hne]; [|reflexivity].
  destruct (effects w !! x); simpl; auto.
Qed.

Lemma children_of_alter_same g e w x :
  (∀ eff, owned (g eff) = owned eff) →
  children_of (set_effects (alter g e) w) x = children_of w x.
Proof.
  intros Hg. rewrite children_of_alter. destruct (decide (e = x)); [|reflexivity].
  unfold children_of. destruct (effects w !! x); simpl; [now rewrite Hg|reflexivity].
Qed.

Lemma depends_alter_same g e w x s :
  (∀ eff, dependencies (g eff) = dependencies eff) →
  depends (set_effects (alter g e) w) x s ↔ depends w x s.
Proof.
  intros Hg. unfold depends. simpl. rewrite list_lookup_alter.
  destruct (decide (e = x)) as [->|Hne]; [|reflexivity].
  destruct (effects w !! x) as [eff|]; simpl.
  - split.
    + intros (eff' & He & Hs). inversion He; subst eff'. rewrite Hg in Hs. eauto.
    + intros (eff' & He & Hs). inversion He; subst eff'.
      eexists. split; [reflexivity|]. now rewrite Hg.
  - split; intros (eff' & He & _); discriminate.
Qed.

Lemma prunes_refl w : prunes w w.
Proof. split; auto. Qed.

Lemma prunes_trans w1 w2 w3 : prunes w1 w2 → prunes w2 w3 → prunes w1 w3.
Proof.
  intros [L1 S1 O1 P1] [L2 S2 O2 P2]. split.
  - congruence.
  - congruence.
  - auto.
  - intros c. now rewrite P2.
Qed.

Lemma prunes_signals f w : prunes w (set_signals f w).
Proof. split; auto. Qed.

Lemma prunes_alter_same g e w :
  (∀ eff, owned (g eff) = owned eff) → (∀ eff, owner (g eff) = owner eff) →
  prunes w (set_effects (alter g e) w).
Proof.
  intros Ho Hp. split; simpl.
  - apply length_alter.
  - reflexivity.
  - intros p c. unfold owns. now rewrite children_of_alter_same.
  - intros c. now apply owner_of_alter.
Qed.

Lemma prunes_disown e w :
  prunes w (set_effects (alter (with_owned (Some [])) e) w).
Proof.
  split; simpl.
  - apply length_alter.
  - reflexivity.
  - intros p c. unfold owns. rewrite children_of_alter.
    destruct (decide (e = p)) as [->|Hne]; [|auto].
    destruct (effects w !! p); simpl; intros H; inversion H.
  - intros c. now apply owner_of_alter.
Qed.

Ltac prunes_pre :=
  first [ exact prunes_refl | exact prunes_trans
        | intros; apply prunes_signals
        | intros; apply prunes_disown
        | intros; apply prunes_alter_same; reflexivity ].

Lemma cleanup_prunes n e : respects prunes prunes (cleanup n e).
Proof.
  revert e. induction n as [|n IH]; intros e; [intros w; exact I|].
  simpl. unfold unobserve. repeat respects_step prunes_pre. apply IH.
Qed.

Lemma prunes_forest w w' : prunes w w' → forest w → forest w'.
Proof.
  intros [_ _ Ho Hp] Hf p c Hpc. rewrite Hp. apply Hf, Ho, Hpc.
Qed.

Lemma prunes_stack_valid w w' : prunes w w' → stack_valid w → stack_valid w'.
Proof.
  intros [Hl Hs _ _] Hv t Ht. rewrite Hl. apply Hv. now rewrite <- Hs.
Qed.

Lemma deps_ok_at_alter_ne g e w x :
  e ≠ x → deps_ok_at x w → deps_ok_at x (set_effects (alter g e) w).
Proof.
  intros Hne H s (eff & He & Hs). simpl in He.
  rewrite list_lookup_alter_ne in He by exact Hne.
  apply (H s). exists eff. auto.
Qed.

Lemma deps_ok_at_alter_same g e w x :
  (∀ eff, dependencies (g eff) = dependencies eff) →
  deps_ok_at x w → deps_ok_at x (set_effects (alter g e) w).
Proof.
  intros Hg H s Hd. apply (depends_alter_same g e w x s Hg) in Hd.
  exact (H s Hd).
Qed.

Lemma deps_ok_at_cleared e w x :
  deps_ok_at x w →
  deps_ok_at x (set_effects (alter (with_dependencies (fun _ => [])) e) w).
Proof.
  intros H. destruct (decide (e = x)) as [->|Hne].
  - intros s (eff & He & Hs). simpl in He. rewrite list_lookup_alter_eq in He.
    destruct (effects w !! x); [|discriminate]. simpl in He.
    inversion He; subst eff. inversion Hs.
  - now apply deps_ok_at_alter_ne.
Qed.

Lemma cleanup_deps_at n : ∀ e w w',
  cleanup n e w = Ok tt w' →
  deps_ok_at e w' ∧ ∀ x, x ≠ e → deps_ok_at x w → deps_ok_at x w'.
Proof.
  induction n as [|n IH]; intros e w w' H; [discriminate|].
  simpl in H.
  apply bind_ok in H as (eff & w0 & Hget & H).
  unfold get_effect in Hget.
  destruct (effects w !! e) as [eff'|] eqn:He; [|discriminate].
  inversion Hget; subst eff' w0; clear Hget.
  apply bind_ok in H as (u1 & wa & Ha & H). rewrite (unit_eta u1) in Ha.
  apply bind_ok in H as (u2 & wb & Hb & H). rewrite (unit_eta u2) in Hb.
  apply bind_ok in H as (u3 & wc & Hc & H).
  inversion Hc; subst u3 wc; clear Hc. inversion H; subst w'; clear H.
  destruct (forEach_unobserve _ _ _ _ Ha) as (Hea & _ & Hoa).
  assert (Hall : ∀ cs w1 w2, forEach cs (cleanup n) w1 = Ok tt w2 →
                   ∀ x, deps_ok_at x w1 → deps_ok_at x w2).
  { induction cs as [|c cs IHcs]; intros w1 w2 Hf x Hx; simpl in Hf.
    - inversion Hf; now subst.
    - apply bind_ok in Hf as (u & w3 & H1 & H2). rewrite (unit_eta u) in H1.
      destruct (IH _ _ _ H1) as [Hc Hothers].
      apply (IHcs _ _ H2). destruct (decide (x = c)) as [->|Hne]; auto. }
  assert (Hab : ∀ x, deps_ok_at x wa → deps_ok_at x wb).
  { destruct (owned eff) as [children|].
    - apply bind_ok in Hb as (u & wb' & Hb1 & Hb2). rewrite (unit_eta u) in Hb1.
      inversion Hb2; subst wb; clear Hb2. intros x Hx.
      apply deps_ok_at_alter_same; [reflexivity|]. eapply Hall; eauto.
    - inversion Hb; subst wb. auto. }
  split.
  - intros s (eff1 & He1 & Hs). simpl in He1.
    rewrite list_lookup_alter_eq in He1.
    destruct (alter (with_state None) e (effects wb) !! e); [|discriminate].
    simpl in He1. inversion He1; subst eff1. inversion Hs.
  - intros x Hne Hx. apply deps_ok_at_cleared.
    apply deps_ok_at_alter_same; [reflexivity|]. apply Hab.
    intros s (eff1 & He1 & Hs). rewrite Hea in He1. apply Hoa. split.
    + apply Hx. exists eff1. auto.
    + intros [Hxe _]. contradiction.
Qed.

Lemma cleanup_deps_ok n e w w' :
  cleanup n e w = Ok tt w' → deps_ok w → deps_ok w'.
Proof.
  intros H Hok x s. destruct (cleanup_deps_at _ _ _ _ H) as [He Hothers].
  destruct (decide (x = e)) as [->|Hne]; [apply He|].
  apply Hothers; [exact Hne|]. intros s'. apply Hok.
Qed.

Lemma cleanup_valid n e w w' :
  cleanup n e w = Ok tt w' → e < length (effects w).
Proof.
  destruct n as [|n]; [discriminate|]. simpl. intros H.
  apply bind_ok in H as (eff & w0 & Hget & _). unfold get_effect in Hget.
  destruct (effects w !! e) eqn:He; [|discriminate].
  eapply lookup_lt_Some; eauto.
Qed.

Lemma cleanup_sound n e w w' :
  cleanup n e w = Ok tt w' → sound w → sound w' ∧ e < length (effects w').
Proof.
  intros H [Hd Hf Hs].
  pose proof (wp_ok _ _ _ _ _ _ (cleanup_prunes n e w) H) as P.
  split.
  - split.
    + exact (cleanup_deps_ok _ _ _ _ H Hd).
    + exact (prunes_forest _ _ P Hf).
    + exact (prunes_stack_valid _ _ P Hs).
  - rewrite (pr_length _ _ P). exact (cleanup_valid _ _ _ _ H).
Qed.

Lemma keeps_sound_refl w : keeps_sound w w.
Proof. intros H. exact H. Qed.

Lemma keeps_sound_trans w1 w2 w3 :
  keeps_sound w1 w2 → keeps_sound w2 w3 → keeps_sound w1 w3.
Proof. unfold keeps_sound. auto. Qed.

Lemma any_after_sound w1 w2 w3 :
  keeps_sound w1 w2 → any_world w2 w3 → any_world w1 w3.
Proof. intros _ _. exact I. Qed.

Lemma sound_alter_same g e w :
  (∀ eff, dependencies (g eff) = dependencies eff) →
  (∀ eff, owned (g eff) = owned eff) →
  (∀ eff, owner (g eff) = owner eff) →
  keeps_sound w (set_effects (alter g e) w).
Proof.
  intros Hd Ho Hp [D F S].
  pose proof (prunes_alter_same g e w Ho Hp) as P.
  split.
  - intros x s Hx. apply (depends_alter_same g e w x s Hd) in Hx.
    exact (D x s Hx).
  - exact (prunes_forest _ _ P F).
  - exact (prunes_stack_valid _ _ P S).
Qed.

Lemma sound_store s v w : keeps_sound w (store s v w).
Proof.
  intros [D F S]. split; [|exact F|exact S].
  intros x s' Hx. apply observes_store. exact (D x s' Hx).
Qed.

Lemma sound_new_signal nd w :
  observers nd = [] → keeps_sound w (set_signals (fun l => l ++ [nd]) w).
Proof.
  intros Hnd [D F S]. split; [|exact F|exact S].
  intros x s Hx. apply observes_new_signal; [exact Hnd|]. exact (D x s Hx).
Qed.

Lemma sound_track t s w :
  is_Some (signals w !! s) → keeps_sound w (trackEffectDependency t s w).
Proof.
  intros Hs [D F S]. split.
  - intros x s' (eff & He & Hin). apply observes_track.
    unfold trackEffectDependency in He. simpl in He.
    rewrite list_lookup_alter in He.
    destruct (decide (t = x)) as [->|Hne].
    + destruct (effects w !! x) as [eff0|] eqn:E0; [|discriminate].
      simpl in He. inversion He; subst eff; clear He. simpl in Hin.
      apply set_add_elem in Hin as [->|Hin]; [auto|].
      left. apply D. exists eff0. auto.
    + left. apply D. exists eff. auto.
  - apply (prunes_forest (set_signals (alter (with_observers (set_add t)) s) w));
      [|exact F].
    apply prunes_alter_same; reflexivity.
  - apply (prunes_stack_valid (set_signals (alter (with_observers (set_add t)) s) w));
      [|exact S].
    apply prunes_alter_same; reflexivity.
Qed.

Lemma sound_push e w :
  e < length (effects w) → keeps_sound w (push_running e w).
Proof.
  intros He [D F S]. split; [exact D|exact F|].
  intros t Ht. simpl in Ht. apply elem_of_app in Ht as [Ht|Ht].
  - now apply S.
  - apply list_elem_of_singleton in Ht. now subst.
Qed.

Lemma sound_pop w : keeps_sound w (pop_running w).
Proof.
  intros [D F S]. split; [exact D|exact F|].
  intros t Ht. simpl in Ht. apply S.
  destruct (runningEffects w) as [|a l] using rev_ind; [inversion Ht|].
  rewrite removelast_last in Ht. apply elem_of_app. now left.
Qed.

Lemma children_of_new eff0 w x :
  owned eff0 = None →
  children_of (set_effects (fun l => l ++ [eff0]) w) x = children_of w x.
Proof.
  intros Ho. unfold children_of. simpl.
  destruct (effects w !! x) as [eff|] eqn:He.
  - now rewrite (lookup_app_l_Some _ _ _ _ He).
  - apply lookup_ge_None in He.
    destruct (decide (x = length (effects w))) as [->|Hne].
    + rewrite lookup_app_r by lia. rewrite Nat.sub_diag. simpl. now rewrite Ho.
    + rewrite lookup_ge_None_2; [reflexivity|]. rewrite length_app. simpl. lia.
Qed.

Lemma owner_of_old eff0 w x :
  x < length (effects w) →
  owner_of (set_effects (fun l => l ++ [eff0]) w) x = owner_of w x.
Proof.
  intros Hx. unfold owner_of. simpl. now rewrite lookup_app_l.
Qed.

(** The two steps of [createEffect] that enter the new effect into the heap. *)
Lemma sound_new_effect body w :
  let w1 := set_effects
              (fun l => l ++ [new_effect body (getRunningEffect w)]) w in
  let w2 := match getRunningEffect w with
            | Some p => set_effects (alter (push_owned (length (effects w))) p) w1
            | None => w1
            end in
  sound w → sound w2 ∧ length (effects w) < length (effects w2).
Proof.
  intros w1 w2 [D F SV].
  set (fresh := length (effects w)).
  assert (D1 : deps_ok w1).
  { intros x s (eff & He & Hs). unfold w1 in He. simpl in He.
    apply lookup_app_Some in He as [He|[_ He]].
    - apply D. exists eff. auto.
    - apply list_lookup_singleton_Some in He as [_ <-]. inversion Hs. }
  assert (F1 : forest w1).
  { intros p c Hpc. unfold owns, w1 in Hpc.
    rewrite children_of_new in Hpc by reflexivity.
    destruct (F p c Hpc) as [Hlt Hown]. split; [exact Hlt|].
    unfold w1. rewrite owner_of_old; [exact Hown|].
    unfold owner_of in Hown. destruct (effects w !! c) eqn:Hc; [|discriminate].
    eapply lookup_lt_Some; eauto. }
  assert (L1 : length (effects w1) = S fresh).
  { unfold w1. simpl. rewrite length_app. simpl. unfold fresh. lia. }
  assert (Hf1 : effects w1 !! fresh = Some (new_effect body (getRunningEffect w))).
  { unfold w1, fresh. simpl. rewrite lookup_app_r by lia. now rewrite Nat.sub_diag. }
  destruct (getRunningEffect w) as [p|] eqn:Hp; unfold w2.
  - assert (Hpv : p < fresh).
    { apply SV. unfold getRunningEffect in Hp. apply last_Some in Hp as [l' ->].
      apply elem_of_app. right. now apply list_elem_of_singleton. }
    split; [|change (fresh < length (alter (push_owned fresh) p (effects w1)));
             rewrite length_alter, L1; lia].
    split.
    + intros x s Hx. apply (depends_alter_same _ p w1 x s) in Hx; [|reflexivity].
      exact (D1 x s Hx).
    + intros q c Hqc. unfold owns in Hqc. rewrite children_of_alter in Hqc.
      rewrite owner_of_alter by reflexivity.
      destruct (decide (p = q)) as [<-|Hne].
      * assert (Hc : c ∈ children_of w1 p ∨ c = fresh).
        { unfold children_of. destruct (effects w1 !! p) as [eff|]; simpl in *.
          - unfold push_owned in Hqc. simpl in Hqc.
            apply elem_of_app in Hqc as [Hqc|Hqc]; [left|right].
            + destruct (owned eff); [exact Hqc|inversion Hqc].
            + now apply list_elem_of_singleton in Hqc.
          - inversion Hqc. }
        destruct Hc as [Hc| ->]; [exact (F1 p c Hc)|].
        split; [exact Hpv|]. unfold owner_of. now rewrite Hf1.
      * exact (F1 q c Hqc).
    + intros t Ht.
      change (t < length (alter (push_owned fresh) p (effects w1))).
      rewrite length_alter, L1. apply SV in Ht. fold fresh in Ht. lia.
  - split; [|rewrite L1; unfold fresh; lia].
    split; [exact D1|exact F1|].
    intros t Ht. rewrite L1. apply SV in Ht. fold fresh in Ht. lia.
Qed.

Ltac sound_pre :=
  first [ exact keeps_sound_refl | exact keeps_sound_trans
        | exact any_world_refl | exact any_after_sound
        | intros; apply sound_alter_same; reflexivity
        | intros; apply sound_store
        | intros; apply sound_new_signal; reflexivity
        | intros; apply sound_pop
        | intros ? [? ? ?]; split; assumption ].

Lemma read_sound_safe s : sound_safe (read s).
Proof.
  intros w. unfold wp, read, bind, get_signal, gets.
  destruct (signals w !! s) as [node|] eqn:Hn; [|exact I].
  destruct (getRunningEffect w) as [t|]; unfold modify, ret.
  - assert (Hn' : signals (trackEffectDependency t s w) !! s
                  = Some (with_observers (set_add t) node)).
    { simpl. now rewrite list_lookup_alter_eq, Hn. }
    rewrite Hn'. apply sound_track. eauto.
  - rewrite Hn. apply keeps_sound_refl.
Qed.

Lemma eval_sound_safe e : sound_safe (eval e).
Proof.
  unfold sound_safe.
  induction e; simpl; repeat respects_step sound_pre; apply read_sound_safe.
Qed.

Lemma createSignal_sound_safe v : sound_safe (createSignal v).
Proof. unfold sound_safe, createSignal. repeat respects_step sound_pre. Qed.

Lemma schedule_sound_safe s : sound_safe (schedule s).
Proof.
  unfold sound_safe, schedule, schedule_observer, Updates_push.
  repeat respects_step sound_pre.
Qed.

Lemma runEffect_sound_safe n :
  (∀ cb, sound_safe cb → sound_safe (runUpdates n cb)) →
  (∀ c, sound_safe (exec n c)) →
  ∀ effect, sound_safe (runEffect (S n) effect).
Proof.
  intros IHupd IHexec effect w. unfold wp.
  destruct (runEffect (S n) effect w) as [[] w'|e w'|] eqn:H; [|exact I|exact I].
  apply runEffect_ok in H as (w1 & w3 & eff & Hc & He & Hbody & ->).
  intros Hs. destruct (cleanup_sound _ _ _ _ Hc Hs) as [Hs1 Hv].
  apply sound_pop.
  refine (wp_ok _ _ _ _ _ _ (IHupd _ (IHexec (fn eff)) _) Hbody _).
  now apply sound_push.
Qed.

Lemma createEffect_sound_safe n :
  (∀ effect, sound_safe (runEffect n effect)) →
  ∀ body, sound_safe (createEffect (S n) body).
Proof.
  intros IHrun body w. unfold wp.
  destruct (createEffect (S n) body w) as [[] w'|e w'|] eqn:H; [|exact I|exact I].
  simpl in H. unfold bind at 1 2, gets in H.
  apply bind_ok in H as (u1 & w1 & H1 & H). inversion H1; subst u1 w1; clear H1.
  apply bind_ok in H as (u2 & w2 & H2 & H).
  intros Hs. destruct (sound_new_effect body w Hs) as [Hs2 _].
  refine (wp_ok _ _ _ _ _ _ (IHrun _ w2) H _).
  destruct (getRunningEffect w); inversion H2; subst w2; exact Hs2.
Qed.

(** Every engine function keeps dependency edges matched by observer
    edges, ownership a forest and the stack inside the arena. *)
Lemma engine_sound n :
  (∀ effect, sound_safe (runEffect n effect)) ∧
  (∀ cb, sound_safe cb → sound_safe (runUpdates n cb)) ∧
  (∀ i, sound_safe (flushLoop n i)) ∧
  sound_safe (flushUpdates n) ∧
  (∀ s v, sound_safe (write n s v)) ∧
  (∀ body, sound_safe (createEffect n body)) ∧
  (∀ body r, sound_safe (createMemo n body r)) ∧
  (∀ cb, sound_safe cb → sound_safe (batch n cb)) ∧
  (∀ c, sound_safe (exec n c)).
Proof.
  induction n as [|n (IHrun & IHupd & IHloop & IHflush & IHwrite & IHeff
                      & IHmemo & IHbatch & IHexec)].
  { repeat split; intros; intros w; exact I. }
  assert (Hupd : ∀ cb, sound_safe cb → sound_safe (runUpdates (S n) cb)).
  { intros cb Hcb. simpl. unfold sound_safe in *. repeat respects_step sound_pre. }
  split; [now apply runEffect_sound_safe|].
  split; [exact Hupd|].
  unfold sound_safe in *.
  repeat split.
  - intros i. simpl. repeat respects_step sound_pre; auto.
  - simpl. repeat respects_step sound_pre; auto.
  - intros s v. simpl. repeat respects_step sound_pre.
    apply IHupd, schedule_sound_safe.
  - now apply createEffect_sound_safe.
  - intros body r. simpl. repeat respects_step sound_pre; auto.
    apply createSignal_sound_safe.
  - intros cb Hcb. simpl. auto.
  - intros c. destruct c; simpl;
      repeat respects_step sound_pre; auto;
      try apply eval_sound_safe; try apply createSignal_sound_safe.
Qed.

Lemma sound_empty nvars : sound (empty_world nvars).
Proof.
  split.
  - intros e s (eff & He & _). discriminate.
  - intros p c H. inversion H.
  - intros t H. inversion H.
Qed.

Lemma runScript_sound fuel script : ∀ w w',
  sound w → runScript fuel script w = Ok tt w' → sound w'.
Proof.
  induction script as [|c script IH]; intros w w' Hs H; simpl in H.
  - inversion H; now subst.
  - apply bind_ok in H as (u & w1 & H1 & H2).
    destruct (engine_sound fuel) as (_ & _ & _ & _ & _ & _ & _ & _ & Hexec).
    eapply IH; [|exact H2].
    exact (wp_ok _ _ _ _ _ _ (Hexec c w) H1 Hs).
Qed.

(** X10. In every world reached from the empty one by statements that
    return, an effect is in the observer set of a signal exactly when the
    signal is in the dependency set of the effect. *)
Theorem observer_and_dependency_edges_agree fuel script nvars w :
  runScript fuel script (empty_world nvars) = Ok tt w →
  ∀ e s, observes w e s ↔ depends w e s.
Proof.
  intros H e s. split.
  - apply (runScript_quiescent _ _ _ _ (quiescent_empty nvars) H).
  - apply (runScript_sound _ _ _ _ (sound_empty nvars) H).
Qed.

Lemma observer_and_dependency_edges_agree_witness :
  observes (nested_world (VNum 0) (VNum 0) 1 1) 1 1
  ↔ depends (nested_world (VNum 0) (VNum 0) 1 1) 1 1.
Proof.
  apply (observer_and_dependency_edges_agree 20
           (nested_setup (VNum 0) (VNum 0)) 2).
  reflexivity.
Defined.

Lemma forest_effects_eq w w' : effects w' = effects w → forest w → forest w'.
Proof.
  intros E F p c Hpc. unfold owns, children_of, owner_of in *. rewrite E in *.
  exact (F p c Hpc).
Qed.

Lemma forEach_unobserve_total e deps w :
  ∃ w', forEach deps (unobserve e) w = Ok tt w'.
Proof.
  revert w. induction deps as [|d deps IH]; intros w; simpl; [eauto|].
  unfold bind, unobserve at 1, modify. apply IH.
Qed.

Lemma owns_valid w p c : forest w → owns w p c → p < c ∧ c < length (effects w).
Proof.
  intros F H. destruct (F p c H) as [Hlt Ho]. split; [exact Hlt|].
  unfold owner_of in Ho. destruct (effects w !! c) eqn:Hc; [|discriminate].
  eapply lookup_lt_Some; eauto.
Qed.

(** In a forest [cleanup] returns: the recursion goes to effects created
    later, of which there are finitely many. *)
Lemma cleanup_total n : ∀ e w,
  forest w → e < length (effects w) → length (effects w) - e ≤ n →
  ∃ w', cleanup n e w = Ok tt w'.
Proof.
  induction n as [|n IH]; intros e w F He Hn; [lia|].
  simpl. unfold bind at 1, get_effect.
  destruct (lookup_lt_is_Some_2 (effects w) e He) as [eff Heff]. rewrite Heff.
  destruct (forEach_unobserve_total e (dependencies eff) w) as [wa Ha].
  unfold bind at 1. rewrite Ha.
  destruct (forEach_unobserve _ _ _ _ Ha) as (Hea & _ & _).
  assert (Fa : forest wa) by (eapply forest_effects_eq; eauto).
  assert (Hall : ∀ cs w1, forest w1 → length (effects w1) = length (effects w) →
                   (∀ c, c ∈ cs → e < c ∧ c < length (effects w)) →
                   ∃ w2, forEach cs (cleanup n) w1 = Ok tt w2).
  { induction cs as [|c cs IHcs]; intros w1 F1 L1 Hcs; simpl; [eauto|].
    destruct (Hcs c ltac:(left)) as [Hec Hc].
    destruct (IH c w1 F1 ltac:(lia) ltac:(lia)) as [w2 H2].
    unfold bind. rewrite H2.
    pose proof (wp_ok _ _ _ _ _ _ (cleanup_prunes n c w1) H2) as P.
    apply IHcs.
    - exact (prunes_forest _ _ P F1).
    - rewrite (pr_length _ _ P). exact L1.
    - intros c' Hc'. apply Hcs. now right. }
  destruct (owned eff) as [children|] eqn:Ho.
  - destruct (Hall children wa Fa ltac:(now rewrite Hea)) as [wb Hb].
    { intros c Hc. apply (owns_valid w e c F).
      unfold owns, children_of. rewrite Heff. simpl. now rewrite Ho. }
    unfold bind. rewrite Hb. unfold modify. eauto.
  - unfold bind, ret, modify. eauto.
Qed.

(** X11. In every world reached from the empty one by statements that
    return, (1) an effect in the [owned] list of another was created after
    it and names it as its [owner], so ownership has no cycle, and
    (2) [cleanup] of any effect returns normally: its recursion through
    [owned] ends (a fuel of the number of effects created after the effect,
    plus one, is enough). *)
Theorem owned_effects_form_a_forest_and_cleanup_returns fuel script nvars w :
  runScript fuel script (empty_world nvars) = Ok tt w →
  (∀ p c, owns w p c → p < c ∧ owner_of w c = Some p) ∧
  (∀ e n, e < length (effects w) → length (effects w) - e ≤ n →
          ∃ w', cleanup n e w = Ok tt w').
Proof.
  intros H.
  destruct (runScript_sound _ _ _ _ (sound_empty nvars) H) as [_ F _].
  split; [exact F|]. intros e n He Hn. now apply cleanup_total.
Qed.

Lemma owned_effects_form_a_forest_and_cleanup_returns_witness :
  (∀ p c, owns (nested_world (VNum 0) (VNum 0) 1 1) p c →
          p < c ∧ owner_of (nested_world (VNum 0) (VNum 0) 1 1) c = Some p) ∧
  (∀ e n, e < 2 → 2 - e ≤ n →
          ∃ w', cleanup n e (nested_world (VNum 0) (VNum 0) 1 1) = Ok tt w').
Proof.
  apply (owned_effects_form_a_forest_and_cleanup_returns 20
           (nested_setup (VNum 0) (VNum 0)) 2).
  reflexivity.
Defined.

Lemma fades_refl w : fades w w.
Proof. intros x H. exact H. Qed.

Lemma fades_trans w1 w2 w3 : fades w1 w2 → fades w2 w3 → fades w1 w3.
Proof. unfold fades. auto. Qed.

Lemma fades_alter g e w :
  (∀ eff, dependencies eff = [] → dependencies (g eff) = []) →
  fades w (set_effects (alter g e) w).
Proof.
  intros Hg x. unfold deps_of. simpl. rewrite list_lookup_alter.
  destruct (decide (e = x)) as [->|Hne]; [|auto].
  destruct (effects w !! x) as [eff|]; simpl; [|discriminate].
  intros H. inversion H as [H1]. now rewrite H1, Hg.
Qed.

Ltac fades_pre :=
  first [ exact fades_refl | exact fades_trans
        | intros; apply fades_alter; intros; (reflexivity || assumption)
        | intros ? ? H; exact H ].

Lemma cleanup_fades n e : respects fades fades (cleanup n e).
Proof.
  revert e. induction n as [|n IH]; intros e; [intros w; exact I|].
  simpl. unfold unobserve. repeat respects_step fades_pre. apply IH.
Qed.

Lemma marker_None_kept w w' x :
  (is_pending w' x → is_pending w x) → marker w x = None → marker w' x = None.
Proof.
  unfold is_pending. intros H Hm. destruct (marker w' x) as [[]|]; [|reflexivity].
  rewrite Hm in H. now specialize (H eq_refl).
Qed.

Lemma cleanup_keeps_disposed n e w w' x :
  edges_ok w → cleanup n e w = Ok tt w' → disposed w x → disposed w' x.
Proof.
  intros Hok H [Dd Dm Do Dc].
  destruct (cleanup_teardown _ _ _ _ Hok H) as (T & _).
  pose proof (wp_ok _ _ _ _ _ _ (cleanup_prunes n e w) H) as P.
  pose proof (wp_ok _ _ _ _ _ _ (cleanup_fades n e w) H) as Fd.
  split.
  - now apply Fd.
  - eapply marker_None_kept; [apply (td_pending _ _ T)|exact Dm].
  - intros s Hs. apply (Do s). now apply (td_observes _ _ T).
  - intros c Hc. apply (Dc c). now apply (pr_owns _ _ P).
Qed.

(** A change of one effect record that only clears fields. *)
Lemma disposed_alter g e w x :
  (∀ eff, dependencies eff = [] → dependencies (g eff) = []) →
  (∀ eff, state eff = None → state (g eff) = None) →
  (∀ eff, owned (g eff) = owned eff ∨ owned (g eff) = Some []) →
  disposed w x → disposed (set_effects (alter g e) w) x.
Proof.
  intros Hd Hs Ho [Dd Dm Do Dc]. split.
  - now apply (fades_alter g e w Hd).
  - rewrite marker_alter. destruct (decide (e = x)) as [->|Hne]; [|exact Dm].
    unfold marker in Dm. destruct (effects w !! x) as [eff|]; simpl in *; auto.
  - exact Do.
  - intros c. unfold owns. rewrite children_of_alter.
    destruct (decide (e = x)) as [->|Hne]; [|apply Dc].
    specialize (Dc c). unfold owns, children_of in Dc.
    destruct (effects w !! x) as [eff|]; simpl in *; [|exact Dc].
    destruct (Ho eff) as [-> | ->]; [exact Dc|]. simpl. intros H; inversion H.
Qed.

Lemma kept_or_disposed_refl w : kept_or_disposed w w.
Proof. intros y. left. auto. Qed.

Lemma cleanup_disposes_self n e w w' :
  edges_ok w → cleanup n e w = Ok tt w' → disposed w' e.
Proof.
  intros Hok H.
  destruct (cleanup_clears_edges _ _ _ _ Hok H) as [Hd Ho].
  destruct (cleanup_leaves _ _ _ _ H) as (eff & He & _ & _ & Hc).
  split; [exact Hd | exact (cleanup_clears_marker _ _ _ _ H) | exact Ho |].
  intros c. unfold owns, children_of. rewrite He. simpl.
  destruct Hc as [-> | ->]; simpl; intros Hin; inversion Hin.
Qed.

Lemma cleanup_disposes n : ∀ e w0 w w',
  edges_ok w → kept_or_disposed w0 w → cleanup n e w = Ok tt w' →
  kept_or_disposed w0 w' ∧ ∀ x, descends w0 e x → disposed w' x.
Proof.
  induction n as [|n IH]; intros e w0 w w' Hok HE H; [discriminate|].
  pose proof H as Hwhole. simpl in H.
  apply bind_ok in H as (eff & w00 & Hget & H).
  unfold get_effect in Hget.
  destruct (effects w !! e) as [eff'|] eqn:He; [|discriminate].
  inversion Hget; subst eff' w00; clear Hget.
  apply bind_ok in H as (u1 & wa & Ha & H). rewrite (unit_eta u1) in Ha.
  apply bind_ok in H as (u2 & wb & Hb & H). rewrite (unit_eta u2) in Hb.
  apply bind_ok in H as (u3 & wc & Hc & H).
  inversion Hc; subst u3 wc; clear Hc. inversion H; subst w'; clear H.
  destruct (forEach_unobserve _ _ _ _ Ha) as (Hea & Hua & Hoa).
  assert (Oka : edges_ok wa).
  { intros x s Hx. apply Hoa in Hx as [Hx _]. rewrite Hea. auto. }
  assert (Da : ∀ x, disposed w x → disposed wa x).
  { intros x [Dd Dm Do Dc]. split.
    - unfold deps_of. now rewrite Hea.
    - unfold marker. now rewrite Hea.
    - intros s Hs. apply Hoa in Hs as [Hs _]. exact (Do s Hs).
    - intros c. unfold owns, children_of. rewrite Hea. apply Dc. }
  assert (Ea : kept_or_disposed w0 wa).
  { intros y. destruct (HE y) as [K|D]; [left|right].
    - intros c Hc. specialize (K c Hc). unfold owns, children_of in *.
      now rewrite Hea.
    - intros x Hx. apply Da, D, Hx. }
  assert (Hall : ∀ cs w1 w2, edges_ok w1 → kept_or_disposed w0 w1 →
            forEach cs (cleanup n) w1 = Ok tt w2 →
            edges_ok w2 ∧ kept_or_disposed w0 w2 ∧
            (∀ c x, c ∈ cs → descends w0 c x → disposed w2 x) ∧
            (∀ x, disposed w1 x → disposed w2 x)).
  { induction cs as [|c cs IHcs]; intros w1 w2 Ok1 E1 Hf; simpl in Hf.
    - inversion Hf; subst w2. split; [exact Ok1|]. split; [exact E1|].
      split; [|auto]. intros ? ? Hc. inversion Hc.
    - apply bind_ok in Hf as (u & w3 & H1 & H2). rewrite (unit_eta u) in H1.
      destruct (IH _ _ _ _ Ok1 E1 H1) as [E3 D3].
      destruct (cleanup_teardown _ _ _ _ Ok1 H1) as (T3 & _).
      destruct (IHcs _ _ (td_edges _ _ T3) E3 H2) as (Ok2 & E2 & D2 & M2).
      split; [exact Ok2|]. split; [exact E2|]. split.
      + intros c' x Hc' Hx. apply elem_of_cons in Hc' as [->|Hc'].
        * apply M2, D3, Hx.
        * eapply D2; eauto.
      + intros x Hx. apply M2. exact (cleanup_keeps_disposed _ _ _ _ _ Ok1 H1 Hx). }
  assert (Hm : ∃ wm,
            kept_or_disposed w0 wm ∧
            (∀ c x, owns w e c → descends w0 c x → disposed wm x) ∧
            (∀ x, disposed wm x → disposed wb x) ∧
            (∀ y c, y ≠ e → owns wm y c → owns wb y c)).
  { destruct (owned eff) as [children|] eqn:Ho.
    - apply bind_ok in Hb as (u & wm & Hb1 & Hb2). rewrite (unit_eta u) in Hb1.
      inversion Hb2; subst wb; clear Hb2.
      destruct (Hall _ _ _ Oka Ea Hb1) as (_ & Em & Dm & _).
      exists wm. split; [exact Em|]. split; [|split].
      + intros c x Hc. apply Dm. unfold owns, children_of in Hc.
        rewrite He in Hc. simpl in Hc. now rewrite Ho in Hc.
      + intros x. apply disposed_alter; auto.
      + intros y c Hne. unfold owns. rewrite children_of_alter.
        destruct (decide (e = y)); [congruence|auto].
    - inversion Hb; subst wb; clear Hb.
      exists wa. split; [exact Ea|]. split; [|split; auto].
      intros c x Hc. unfold owns, children_of in Hc. rewrite He in Hc.
      simpl in Hc. rewrite Ho in Hc. inversion Hc. }
  destruct Hm as (wm & Em & Dm & Mb & Kb).
  set (w' := set_effects (alter (with_dependencies (fun _ => [])) e)
               (set_effects (alter (with_state None) e) wb)) in *.
  assert (Mw : ∀ x, disposed wb x → disposed w' x).
  { intros x Hx. unfold w'. apply disposed_alter; auto.
    apply disposed_alter; auto. }
  assert (Kw : ∀ y c, owns wb y c → owns w' y c).
  { intros y c. unfold w', owns.
    now rewrite !children_of_alter_same by reflexivity. }
  assert (Main : ∀ x, descends w0 e x → disposed w' x).
  { destruct (HE e) as [K|D].
    - intros x Hx. inversion Hx as [|p c x' Hpc Hcx]; subst.
      + exact (cleanup_disposes_self _ _ _ _ Hok Hwhole).
      + apply Mw, Mb. eapply Dm; eauto.
    - intros x Hx. exact (cleanup_keeps_disposed _ _ _ _ _ Hok Hwhole (D x Hx)). }
  split; [|exact Main].
  intros y. destruct (decide (y = e)) as [->|Hne]; [right; exact Main|].
  destruct (Em y) as [K|D]; [left|right].
  - intros c Hc. apply Kw, Kb; auto.
  - intros x Hx. apply Mw, Mb, D, Hx.
Qed.

(** X12. [cleanup(effect)] disposes the effect and everything it owns,
    directly or through owned effects: when it returns, each of them has no
    dependency, no pending marker, is in no observer set and owns nothing
    (provided every observer edge had its dependency edge when it was
    called). *)
Theorem cleanup_disposes_the_whole_subtree fuel e w w' :
  edges_ok w → cleanup fuel e w = Ok tt w' →
  ∀ x, descends w e x → disposed w' x.
Proof.
  intros Hok H.
  exact (proj2 (cleanup_disposes _ _ _ _ _ Hok (kept_or_disposed_refl w) H)).
Qed.

Lemma cleanup_disposes_the_whole_subtree_witness :
  disposed (final_world (cleanup 5 0 (nested_world (VNum 0) (VNum 0) 1 1))) 1.
Proof.
  apply (cleanup_disposes_the_whole_subtree 5 0
           (nested_world (VNum 0) (VNum 0) 1 1)).
  - apply (runScript_quiescent 20 (nested_setup (VNum 0) (VNum 0))
             (empty_world 2)); [apply quiescent_empty | reflexivity].
  - reflexivity.
  - apply (descends_child _ 0 1 1); [|apply descends_self].
    unfold owns. simpl. now apply list_elem_of_singleton.
Defined.

(** ** Retired effects *)

Lemma leaves_retired_refl e w : leaves_retired e w w.
Proof. intros H. auto. Qed.

Lemma leaves_retired_trans e w1 w2 w3 :
  leaves_retired e w1 w2 → leaves_retired e w2 w3 → leaves_retired e w1 w3.
Proof.
  intros H12 H23 H1. destruct (H12 H1) as [H2 E2].
  destruct (H23 H2) as [H3 E3]. split; [exact H3|congruence].
Qed.

(** A step that changes neither the record of [e] nor the observer sets. *)
Lemma leaves_retired_frame e w w' :
  effects w' !! e = effects w !! e →
  (∀ s, observes w' e s → observes w e s) →
  (e ∉ queue w → e ∉ queue w') →
  (e ∉ runningEffects w → e ∉ runningEffects w') →
  leaves_retired e w w'.
Proof.
  intros He Ho Hq Hs [[Dd Dm Dob Dc] Rq Rs]. split; [|exact He].
  split; [|auto|auto]. split.
  - unfold deps_of. now rewrite He.
  - unfold marker. now rewrite He.
  - intros s Hx. exact (Dob s (Ho s Hx)).
  - intros c. unfold owns, children_of. rewrite He. apply Dc.
Qed.

Lemma leaves_retired_alter e g x w :
  x ≠ e → leaves_retired e w (set_effects (alter g x) w).
Proof.
  intros Hne. apply leaves_retired_frame; auto.
  simpl. now rewrite list_lookup_alter_ne.
Qed.

Lemma leaves_retired_store e s v w : leaves_retired e w (store s v w).
Proof.
  apply leaves_retired_frame; auto. intros s' Hx. now apply observes_store in Hx.
Qed.

Lemma leaves_retired_new_signal e nd w :
  observers nd = [] →
  leaves_retired e w (set_signals (fun l => l ++ [nd]) w).
Proof.
  intros Hnd. apply leaves_retired_frame; auto.
  intros s Hx. now apply observes_new_signal in Hx.
Qed.

Lemma leaves_retired_unobserve e x d w :
  leaves_retired e w (set_signals (alter (with_observers (set_delete x)) d) w).
Proof.
  apply leaves_retired_frame; auto.
  intros s Hx. now apply observes_unobserve in Hx as [Hx _].
Qed.

Lemma leaves_retired_pop e w : leaves_retired e w (pop_running w).
Proof.
  apply leaves_retired_frame; auto. simpl. intros Hs Hin. apply Hs.
  destruct (runningEffects w) as [|a l] using rev_ind; [inversion Hin|].
  rewrite removelast_last in Hin. apply elem_of_app. now left.
Qed.

Lemma leaves_retired_push e x w :
  x ≠ e → leaves_retired e w (push_running x w).
Proof.
  intros Hne. apply leaves_retired_frame; auto. simpl. intros Hs Hin.
  apply elem_of_app in Hin as [Hin|Hin]; [auto|].
  apply list_elem_of_singleton in Hin. congruence.
Qed.

Lemma leaves_retired_close e w : leaves_retired e w (set_Updates None w).
Proof.
  apply leaves_retired_frame; auto. intros _ Hin. inversion Hin.
Qed.

Lemma leaves_retired_open e w : leaves_retired e w (set_Updates (Some []) w).
Proof.
  apply leaves_retired_frame; auto. intros _ Hin. inversion Hin.
Qed.

Lemma leaves_retired_inert e f w :
  (∀ w, effects (f w) = effects w) → (∀ w, signals (f w) = signals w) →
  (∀ w, Updates (f w) = Updates w) →
  (∀ w, runningEffects (f w) = runningEffects w) →
  leaves_retired e w (f w).
Proof.
  intros He Hs Hu Hr. apply leaves_retired_frame.
  - now rewrite He.
  - intros s. unfold observes. now rewrite Hs.
  - unfold queue. now rewrite Hu.
  - now rewrite Hr.
Qed.

Ltac retired_pre :=
  first [ exact (leaves_retired_refl _) | exact (leaves_retired_trans _)
        | intros; apply leaves_retired_store
        | intros; apply leaves_retired_new_signal; reflexivity
        | intros; apply leaves_retired_unobserve
        | intros; apply leaves_retired_pop
        | intros; apply leaves_retired_close
        | intros; apply leaves_retired_open
        | intros; apply leaves_retired_alter; assumption
        | intros; apply leaves_retired_inert; reflexivity ].

(** Tearing down a disposed effect changes nothing. *)
Lemma cleanup_disposed_noop e n w :
  disposed w e → cleanup (S n) e w = Ok tt w.
Proof.
  intros [Dd Dm Dob Dc]. simpl. unfold bind at 1, get_effect.
  unfold deps_of in Dd. unfold marker in Dm.
  destruct (effects w !! e) as [eff|] eqn:He; [|discriminate].
  simpl in Dd, Dm. inversion Dd as [Hd]. rewrite Hd. simpl.
  assert (Hid : ∀ g, g eff = eff → set_effects (alter g e) w = w).
  { intros g Hg. apply set_effects_same. now apply (alter_fixed g _ _ eff). }
  assert (Ho : owned eff = None ∨ owned eff = Some []).
  { destruct (owned eff) as [[|c cs]|] eqn:Ho; auto.
    exfalso. apply (Dc c). unfold owns, children_of. rewrite He. simpl.
    rewrite Ho. left. }
  destruct eff as [f d o od st]. simpl in *. subst d st.
  destruct Ho as [-> | ->]; unfold bind, modify, ret; simpl;
    rewrite ?(Hid (with_owned (Some [])) eq_refl),
            ?(Hid (with_state None) eq_refl),
            ?(Hid (with_dependencies (fun _ => [])) eq_refl); reflexivity.
Qed.

Lemma cleanup_retired_safe e n : ∀ x, retired_safe e (cleanup n x).
Proof.
  unfold retired_safe.
  induction n as [|n IH]; intros x; [intros w; exact I|].
  destruct (decide (x = e)) as [->|Hne].
  - intros w. unfold wp.
    destruct (cleanup (S n) e w) as [[] w'|err w'|] eqn:H; [| |exact I].
    + intros R. rewrite (cleanup_disposed_noop e n w (re_disposed _ _ R)) in H.
      inversion H; subst w'. auto.
    + intros R. rewrite (cleanup_disposed_noop e n w (re_disposed _ _ R)) in H.
      discriminate.
  - simpl. unfold unobserve. repeat respects_step retired_pre. apply IH.
Qed.

Lemma wp_assume e {A} (m : M A) w :
  (retired e w →
   wp m w (fun _ w' => leaves_retired e w w') (fun _ w' => leaves_retired e w w')) →
  wp m w (fun _ w' => leaves_retired e w w') (fun _ w' => leaves_retired e w w').
Proof.
  unfold wp. destruct (m w); intros H; try exact I; intros R; exact (H R R).
Qed.

Lemma retired_not_top e w t :
  retired e w → getRunningEffect w = Some t → t ≠ e.
Proof.
  intros R Ht ->. apply (re_stack _ _ R).
  unfold getRunningEffect in Ht. apply last_Some in Ht as [l' ->].
  apply elem_of_app. right. now apply list_elem_of_singleton.
Qed.

Lemma retired_exists e w : retired e w → e < length (effects w).
Proof.
  intros R. pose proof (di_deps _ _ (re_disposed _ _ R)) as Hd.
  unfold deps_of in Hd. destruct (effects w !! e) eqn:He; [|discriminate].
  eapply lookup_lt_Some; eauto.
Qed.

Lemma leaves_retired_track e t s w :
  t ≠ e → leaves_retired e w (trackEffectDependency t s w).
Proof.
  intros Hne. apply leaves_retired_frame; auto.
  - unfold trackEffectDependency. simpl. now rewrite list_lookup_alter_ne.
  - intros s' Hx. apply observes_track in Hx as [Hx|(He & _)]; [exact Hx|].
    congruence.
Qed.

Lemma read_retired_safe e s : retired_safe e (read s).
Proof.
  intros w. apply wp_assume. intros R.
  unfold wp, read, bind, get_signal, gets.
  destruct (signals w !! s) as [node|] eqn:Hn; [|apply leaves_retired_refl].
  destruct (getRunningEffect w) as [t|] eqn:Ht; unfold modify, ret.
  - assert (Hn' : signals (trackEffectDependency t s w) !! s
                  = Some (with_observers (set_add t) node)).
    { simpl. now rewrite list_lookup_alter_eq, Hn. }
    rewrite Hn'. apply leaves_retired_track. eapply retired_not_top; eauto.
  - rewrite Hn. apply leaves_retired_refl.
Qed.

Lemma eval_retired_safe e x : retired_safe e (eval x).
Proof.
  unfold retired_safe.
  induction x; simpl; repeat respects_step retired_pre; apply read_retired_safe.
Qed.

Lemma createSignal_retired_safe e v : retired_safe e (createSignal v).
Proof. unfold retired_safe, createSignal. repeat respects_step retired_pre. Qed.

Lemma Updates_push_retired_safe e o : o ≠ e → retired_safe e (Updates_push o).
Proof.
  intros Hne w. unfold wp, Updates_push, bind, get_Updates, modify.
  destruct (Updates w) as [q|] eqn:Hq; [|apply leaves_retired_refl].
  apply leaves_retired_frame; auto. unfold queue. rewrite Hq. simpl.
  intros Hq' Hin. apply elem_of_app in Hin as [Hin|Hin]; [auto|].
  apply list_elem_of_singleton in Hin. congruence.
Qed.

Lemma schedule_observer_retired_safe e o :
  o ≠ e → retired_safe e (schedule_observer o).
Proof.
  intros Hne. unfold retired_safe, schedule_observer.
  repeat respects_step retired_pre. now apply Updates_push_retired_safe.
Qed.

Lemma schedule_retired_safe e s : retired_safe e (schedule s).
Proof.
  intros w. apply wp_assume. intros R.
  unfold schedule. apply wp_bind. unfold wp at 1, get_signal.
  destruct (signals w !! s) as [node|] eqn:Hn; [|apply leaves_retired_refl].
  assert (RF : respects (leaves_retired e) (leaves_retired e)
                 (forEach (observers node) schedule_observer)).
  { apply respects_forEach; try retired_pre.
    intros o Ho. apply schedule_observer_retired_safe. intros ->.
    apply (di_observes _ _ (re_disposed _ _ R) s). exists node. auto. }
  apply RF.
Qed.

Lemma runEffect_retired_safe e n :
  (∀ cb, retired_safe e cb → retired_safe e (runUpdates n cb)) →
  (∀ c, retired_safe e (exec n c)) →
  ∀ x, x ≠ e → retired_safe e (runEffect (S n) x).
Proof.
  intros IHupd IHexec x Hne. unfold retired_safe in *. simpl.
  repeat respects_step retired_pre.
  - apply cleanup_retired_safe.
  - apply respects_modify. intros w. now apply leaves_retired_push.
  - apply respects_try_finally. intros w.
    eapply wp_mono.
    + apply respects_bind with (Rok := leaves_retired e) (Rexn := leaves_retired e);
        try retired_pre.
      * apply respects_get_effect; retired_pre.
      * intros eff. apply IHupd, IHexec.
    + simpl. intros _ w' H.
      eapply leaves_retired_trans; [exact H|apply leaves_retired_pop].
    + simpl. intros _ w' H.
      eapply leaves_retired_trans; [exact H|apply leaves_retired_pop].
Qed.

Lemma flushLoop_retired_safe e n :
  (∀ x, x ≠ e → retired_safe e (runEffect n x)) →
  (∀ i, retired_safe e (flushLoop n i)) →
  ∀ i, retired_safe e (flushLoop (S n) i).
Proof.
  intros IHrun IHloop i w. apply wp_assume. intros R. simpl.
  apply wp_bind. unfold wp at 1, get_Updates.
  destruct (Updates w) as [q|] eqn:Hq; [|apply leaves_retired_refl].
  destruct (negb (length q =? 0) && negb (i =? length q));
    [|apply leaves_retired_refl].
  destruct (q !! i) as [x|] eqn:Hx; [|apply IHloop].
  assert (Hne : x ≠ e).
  { intros ->. apply (re_queue _ _ R). unfold queue. rewrite Hq. simpl.
    eapply list_elem_of_lookup_2; eauto. }
  assert (RB : respects (leaves_retired e) (leaves_retired e)
                 (runEffect n x ;; flushLoop n (S i))).
  { apply respects_bind; try retired_pre; [now apply IHrun|].
    intros _. apply IHloop. }
  apply RB.
Qed.

Lemma createEffect_retired_safe e n :
  (∀ x, x ≠ e → retired_safe e (runEffect n x)) →
  ∀ body, retired_safe e (createEffect (S n) body).
Proof.
  intros IHrun body w. apply wp_assume. intros R. simpl.
  apply wp_bind. unfold wp at 1, gets.
  apply wp_bind. unfold wp at 1, gets.
  set (o := getRunningEffect w). set (fresh := length (effects w)).
  pose proof (retired_exists _ _ R) as Hlt.
  assert (R1 : leaves_retired e w
                 (set_effects (fun l => l ++ [new_effect body o]) w)).
  { apply leaves_retired_frame; auto. simpl. now rewrite lookup_app_l. }
  assert (RB : respects (leaves_retired e) (leaves_retired e)
                 (match o with
                  | Some p => modify (set_effects (alter (push_owned fresh) p))
                  | None => ret tt
                  end ;; runEffect n fresh)).
  { apply respects_bind; try retired_pre.
    - destruct o as [p|] eqn:Ho.
      + apply respects_modify. intros w1. apply leaves_retired_alter.
        eapply retired_not_top; eauto.
      + apply respects_ret. retired_pre.
    - intros _. apply IHrun. unfold fresh. lia. }
  apply wp_bind. unfold wp at 1, modify.
  eapply wp_mono; [apply RB| |]; simpl; intros _ w' H;
    (eapply leaves_retired_trans; [exact R1|exact H]).
Qed.

(** No engine function touches a retired effect; [runEffect] is only ever
    called on other effects. *)
Lemma engine_retired e n :
  (∀ x, x ≠ e → retired_safe e (runEffect n x)) ∧
  (∀ cb, retired_safe e cb → retired_safe e (runUpdates n cb)) ∧
  (∀ i, retired_safe e (flushLoop n i)) ∧
  retired_safe e (flushUpdates n) ∧
  (∀ s v, retired_safe e (write n s v)) ∧
  (∀ body, retired_safe e (createEffect n body)) ∧
  (∀ body r, retired_safe e (createMemo n body r)) ∧
  (∀ cb, retired_safe e cb → retired_safe e (batch n cb)) ∧
  (∀ c, retired_safe e (exec n c)).
Proof.
  induction n as [|n (IHrun & IHupd & IHloop & IHflush & IHwrite & IHeff
                      & IHmemo & IHbatch & IHexec)].
  { repeat split; intros; intros w; exact I. }
  assert (Hupd : ∀ cb, retired_safe e cb → retired_safe e (runUpdates (S n) cb)).
  { intros cb Hcb. simpl. unfold retired_safe in *.
    repeat respects_step retired_pre. }
  split; [now apply runEffect_retired_safe|].
  split; [exact Hupd|].
  split; [now apply flushLoop_retired_safe|].
  unfold retired_safe in *.
  repeat split.
  - simpl. repeat respects_step retired_pre; auto.
  - intros s v. simpl. repeat respects_step retired_pre.
    apply IHupd, schedule_retired_safe.
  - now apply createEffect_retired_safe.
  - intros body r. simpl. repeat respects_step retired_pre; auto.
    apply createSignal_retired_safe.
  - intros cb Hcb. simpl. auto.
  - intros c. destruct c; simpl;
      repeat respects_step retired_pre; auto;
      try apply eval_retired_safe; try apply createSignal_retired_safe.
Qed.

(** X13. An effect that is disposed, is not waiting in the queue and is
    not running stays so through whatever a caller does next, whether the
    statements return or raise: no setter enqueues it, no run subscribes it,
    and its record is never written again.  (X8 shows what happens when it
    was waiting in the queue.) *)
Theorem retired_effect_is_never_touched_again e fuel script : ∀ w,
  retired e w →
  match runScript fuel script w with
  | Ok _ w' | Exn _ w' => retired e w' ∧ effects w' !! e = effects w !! e
  | OutOfFuel => True
  end.
Proof.
  induction script as [|c script IH]; intros w R; simpl; [auto|].
  destruct (engine_retired e fuel) as (_ & _ & _ & _ & _ & _ & _ & _ & Hexec).
  specialize (Hexec c w). unfold wp in Hexec. unfold bind.
  destruct (exec fuel c w) as [u w1|err w1|]; auto.
  destruct (Hexec R) as [R1 E1]. specialize (IH w1 R1).
  destruct (runScript fuel script w1) as [u2 w2|err w2|]; auto;
    destruct IH as [R2 E2]; split; congruence.
Qed.

(** The inner effect that a run of its owner has replaced. *)
Lemma nested_rerun_retired c s n m : retired 1 (nested_rerun c s n m).
Proof.
  split.
  - split; try reflexivity.
    + intros s' (node & Hn & He). simpl in Hn.
      destruct s' as [|[|s']]; simpl in Hn; inversion Hn; subst node;
        simpl in He; apply list_elem_of_singleton in He; discriminate.
    + intros c' Hc. inversion Hc.
  - intros H. inversion H.
  - intros H. inversion H.
Qed.

Lemma retired_effect_is_never_touched_again_witness :
  retired 1 (nested_rerun (VNum 0) (VNum 7) 2 3) ∧
  effects (nested_rerun (VNum 0) (VNum 7) 2 3) !! 1
  = effects (nested_rerun (VNum 0) (VNum 0) 2 2) !! 1.
Proof.
  exact (retired_effect_is_never_touched_again 1 20 [setter 1 (VNum 7)]
           (nested_rerun (VNum 0) (VNum 0) 2 2)
           (nested_rerun_retired (VNum 0) (VNum 0) 2 2)).
Defined.

(** ** More fuel; an effect that feeds itself *)

Lemma fuel_le_refl {A} (m : M A) : fuel_le m m.
Proof. intros w _. reflexivity. Qed.

Lemma fuel_le_bind {A B} (m m' : M A) (k k' : A → M B) :
  fuel_le m m' → (∀ a, fuel_le (k a) (k' a)) →
  fuel_le (bind m k) (bind m' k').
Proof.
  intros Hm Hk w. unfold bind. specialize (Hm w).
  destruct (m w) as [a w1|e w1|] eqn:E.
  - rewrite Hm by discriminate. apply Hk.
  - rewrite Hm by discriminate. reflexivity.
  - intros H. now contradiction H.
Qed.

Lemma fuel_le_try_finally {A} (m m' : M A) fin :
  fuel_le m m' → fuel_le (try_finally m fin) (try_finally m' fin).
Proof.
  intros Hm w. unfold try_finally. specialize (Hm w).
  destruct (m w) as [a w1|e w1|] eqn:E.
  - rewrite Hm by discriminate. reflexivity.
  - rewrite Hm by discriminate. reflexivity.
  - intros H. now contradiction H.
Qed.

Lemma fuel_le_forEach {A} (l : list A) (f f' : A → M unit) :
  (∀ x, fuel_le (f x) (f' x)) → fuel_le (forEach l f) (forEach l f').
Proof.
  intros Hf. induction l as [|x l IH]; simpl.
  - apply fuel_le_refl.
  - apply fuel_le_bind; [apply Hf | intros _; exact IH].
Qed.

Lemma fuel_le_zero {A} (m' : M A) : fuel_le (fun _ => OutOfFuel) m'.
Proof. intros w H. now contradiction H. Qed.

Ltac mono_step :=
  lazymatch goal with
  | |- fuel_le ?m ?m => apply fuel_le_refl
  | |- fuel_le (bind _ _) (bind _ _) => apply fuel_le_bind; [|intros ?]
  | |- fuel_le (try_finally _ _) (try_finally _ _) => apply fuel_le_try_finally
  | |- fuel_le (forEach _ _) (forEach _ _) => apply fuel_le_forEach; intros ?
  | |- fuel_le (match ?x with _ => _ end) (match ?x with _ => _ end) => destruct x
  end.

Lemma cleanup_mono n : ∀ m e, n ≤ m → fuel_le (cleanup n e) (cleanup m e).
Proof.
  induction n as [|n IH]; intros m e Hm; [apply fuel_le_zero|].
  destruct m as [|m]; [lia|]. simpl. repeat mono_step. apply IH. lia.
Qed.

(** More fuel changes no outcome: a call that finishes with some fuel
    finishes in the same way with more. *)
Lemma engine_mono n :
  (∀ m e, n ≤ m → fuel_le (runEffect n e) (runEffect m e)) ∧
  (∀ m cb cb', n ≤ m → fuel_le cb cb' →
     fuel_le (runUpdates n cb) (runUpdates m cb')) ∧
  (∀ m i, n ≤ m → fuel_le (flushLoop n i) (flushLoop m i)) ∧
  (∀ m, n ≤ m → fuel_le (flushUpdates n) (flushUpdates m)) ∧
  (∀ m s v, n ≤ m → fuel_le (write n s v) (write m s v)) ∧
  (∀ m body, n ≤ m → fuel_le (createEffect n body) (createEffect m body)) ∧
  (∀ m body r, n ≤ m → fuel_le (createMemo n body r) (createMemo m body r)) ∧
  (∀ m cb cb', n ≤ m → fuel_le cb cb' → fuel_le (batch n cb) (batch m cb')) ∧
  (∀ m c, n ≤ m → fuel_le (exec n c) (exec m c)).
Proof.
  induction n as [|n (IHrun & IHupd & IHloop & IHflush & IHwrite & IHeff
                      & IHmemo & IHbatch & IHexec)].
  { repeat split; intros; apply fuel_le_zero. }
  repeat split.
  - intros m e Hm. destruct m as [|m]; [lia|]. simpl. repeat mono_step.
    + apply cleanup_mono. lia.
    + apply IHupd; [lia|]. apply IHexec. lia.
  - intros m cb cb' Hm Hcb. destruct m as [|m]; [lia|]. simpl.
    repeat mono_step; auto. apply IHflush. lia.
  - intros m i Hm. destruct m as [|m]; [lia|]. simpl. repeat mono_step.
    + apply IHrun. lia.
    + apply IHloop. lia.
    + apply IHloop. lia.
  - intros m Hm. destruct m as [|m]; [lia|]. simpl. repeat mono_step.
    apply IHloop. lia.
  - intros m s v Hm. destruct m as [|m]; [lia|]. simpl. repeat mono_step.
    apply IHupd; [lia|]. apply fuel_le_refl.
  - intros m body Hm. destruct m as [|m]; [lia|]. simpl. repeat mono_step.
    apply IHrun. lia.
  - intros m body r Hm. destruct m as [|m]; [lia|]. simpl. repeat mono_step.
    apply IHeff. lia.
  - intros m cb cb' Hm Hcb. destruct m as [|m]; [lia|]. simpl.
    apply IHupd; [lia|exact Hcb].
  - intros m c Hm. destruct m as [|m]; [lia|].
    destruct c; simpl; repeat mono_step;
      try (apply IHexec; lia); try (apply IHwrite; lia);
      try (apply IHeff; lia); try (apply IHmemo; lia).
    apply IHbatch; [lia|]. apply IHexec. lia.
Qed.

Lemma feedback_turn f v q :
  runEffect 20 0 (feedback_world f v q)
  = Ok tt (feedback_world f (f v) (q ++ [0])).
Proof. reflexivity. Qed.

Lemma feedback_turn_any n f v q :
  runEffect n 0 (feedback_world f v q) = OutOfFuel ∨
  runEffect n 0 (feedback_world f v q)
  = Ok tt (feedback_world f (f v) (q ++ [0])).
Proof.
  destruct (runEffect n 0 (feedback_world f v q)) as [u w1|e w1|] eqn:E;
    [right| |now left].
  - destruct (engine_mono n) as (Hn & _). destruct (engine_mono 20) as (H20 & _).
    pose proof (Hn (max n 20) 0 ltac:(lia) (feedback_world f v q)) as H1.
    pose proof (H20 (max n 20) 0 ltac:(lia) (feedback_world f v q)) as H2.
    rewrite E in H1. rewrite feedback_turn in H2.
    rewrite H2 in H1 by discriminate. symmetry. apply H1. discriminate.
  - exfalso.
    destruct (engine_mono n) as (Hn & _). destruct (engine_mono 20) as (H20 & _).
    pose proof (Hn (max n 20) 0 ltac:(lia) (feedback_world f v q)) as H1.
    pose proof (H20 (max n 20) 0 ltac:(lia) (feedback_world f v q)) as H2.
    rewrite E in H1. rewrite feedback_turn in H2.
    rewrite H2 in H1 by discriminate. specialize (H1 ltac:(discriminate)).
    discriminate.
Qed.

(** The drain never reaches the end of the queue: every turn appends the
    effect again. *)
Lemma feedback_drain_spins n : ∀ i f v q,
  i < length q → (∀ j, i ≤ j → j < length q → q !! j = Some 0) →
  flushLoop n i (feedback_world f v q) = OutOfFuel.
Proof.
  induction n as [|n IH]; intros i f v q Hi Hq; [reflexivity|].
  cbn [flushLoop]. unfold bind at 1, get_Updates. cbn [Updates feedback_world].
  assert (Hc : negb (length q =? 0) && negb (i =? length q) = true).
  { apply andb_true_iff. split; apply negb_true_iff, Nat.eqb_neq; lia. }
  rewrite Hc, (Hq i (le_n i) Hi). unfold bind.
  destruct (feedback_turn_any n f v q) as [-> | ->]; [reflexivity|].
  apply IH.
  - rewrite length_app. simpl. lia.
  - intros j Hj Hlt. rewrite length_app in Hlt. simpl in Hlt.
    destruct (decide (j < length q)) as [Hjq|Hjq].
    + rewrite lookup_app_l by exact Hjq. apply Hq; lia.
    + rewrite lookup_app_r by lia. replace (j - length q) with 0 by lia.
      reflexivity.
Qed.

Lemma feedback_callback d f v :
  exec (S (S (S d))) (feedback_body f) (feedback_open f v)
  = Ok tt (feedback_world f (f v) [0]).
Proof. reflexivity. Qed.

Lemma feedback_first_run d f v0 :
  runEffect (S (S d)) 0 (feedback_fresh f v0)
  = try_finally
      (exec (S d) (feedback_body f) ;; flushUpdates d)
      pop_running (feedback_open f v0).
Proof. reflexivity. Qed.

(** X14. [createEffect(() => set(f(get())))] never returns, whatever [f]
    is and whatever the signal holds, also when [f] gives back the value it
    was given: the setter has no equality check, every run of the effect
    marks and enqueues the effect again, and the drain never reaches the end
    of the queue.  (In the model: the creation runs out of fuel for every
    amount of fuel.) *)
Theorem effect_writing_what_it_reads_never_settles :
  ∀ (f : value → value) (v0 : value) (fuel : nat),
    runScript fuel (feedback_setup f v0) (empty_world 0) = OutOfFuel.
Proof.
  intros f v0 fuel.
  destruct fuel as [|a]; [reflexivity|].
  cbn [runScript feedback_setup]. unfold bind at 1.
  assert (E1 : exec (S a) (CCreateSignal (EConst v0)) (empty_world 0)
               = Ok tt (set_signals (fun l => l ++ [{| current := v0; observers := [] |}])
                          (empty_world 0))) by reflexivity.
  rewrite E1. unfold bind at 1.
  change (exec (S a) (CCreateEffect (feedback_body f)))
    with (createEffect a (feedback_body f)).
  destruct a as [|b]; [reflexivity|].
  assert (E2 : createEffect (S b) (feedback_body f)
                 (set_signals (fun l => l ++ [{| current := v0; observers := [] |}])
                    (empty_world 0))
               = runEffect b 0 (feedback_fresh f v0)) by reflexivity.
  rewrite E2.
  do 2 (destruct b as [|b]; [reflexivity|]).
  rewrite feedback_first_run. unfold try_finally, bind at 1.
  do 2 (destruct b as [|b]; [reflexivity|]).
  rewrite feedback_callback.
  change (flushUpdates (S (S b)))
    with (flushLoop (S b) 0 ;; modify (set_Updates None)).
  unfold bind at 1.
  rewrite (feedback_drain_spins (S b) 0 f (f v0) [0]).
  - reflexivity.
  - simpl. lia.
  - intros j Hj Hlt. simpl in Hlt. assert (j = 0) as -> by lia. reflexivity.
Qed.

(** ** A memo with a switch; the order of a flush *)

Lemma name_memo_created g fn ln :
  runScript 20 (name_memo_setup g fn ln) (empty_world 2)
  = Ok tt (name_memo_world g fn ln).
Proof. reflexivity. Qed.

Lemma name_reader_created g fn ln :
  exec 20 (CCreateEffect name_reader) (name_memo_world g fn ln)
  = Ok tt (name_world g fn ln true 1 1).
Proof. reflexivity. Qed.

Lemma name_hide g fn ln n m :
  exec 20 (setter 2 (VBool false)) (name_world g fn ln true n m)
  = Ok tt (name_world g fn ln false (Z.succ n) (Z.succ m)).
Proof. reflexivity. Qed.

Lemma name_show g fn ln n m :
  exec 20 (setter 2 (VBool true)) (name_world g fn ln false n m)
  = Ok tt (name_world g fn ln true (Z.succ n) (Z.succ m)).
Proof. reflexivity. Qed.

Lemma name_hidden_write g fn ln n m ln' :
  exec 20 (setter 1 ln') (name_world g fn ln false n m)
  = Ok tt (name_world g fn ln' false n m).
Proof. reflexivity. Qed.

Lemma name_shown_write g fn ln n m ln' :
  exec 20 (setter 1 ln') (name_world g fn ln true n m)
  = Ok tt (name_world g fn ln' true (Z.succ n) (Z.succ m)).
Proof. reflexivity. Qed.

Lemma name_hidden_writes g fn n m ls : ∀ ln,
  runScript 20 (map (setter 1) ls) (name_world g fn ln false n m)
  = Ok tt (name_world g fn (default ln (last ls)) false n m).
Proof.
  induction ls as [|x ls IH]; intros ln; [reflexivity|].
  cbn [map runScript]. unfold bind. rewrite name_hidden_write, IH, last_cons.
  now destruct (last ls).
Qed.

(** X15. The memo scenario of the test file, for any way [g] of joining the
    two names, any names and any number [k] of reader calls.  The memo is
    computed once at creation however often it is read.  Switching to the
    short form computes it once more and runs its reader once more; while
    the short form is shown, writes to the last name compute nothing and
    run nothing.  Switching back computes it from the last name written
    meanwhile, and from then on a write to the last name computes it
    again. *)
Theorem memo_ignores_the_branch_it_left :
  ∀ (g : value → value → value) (fn ln ln' : value) (k : nat) (ls : list value),
    ∃ w1 w2 w3 w4 w5,
      runScript 20 (name_setup g fn ln k) (empty_world 2) = Ok tt w1 ∧
      vars w1 = [1%Z; 1%Z] ∧
      current <$> signals w1 !! 3 = Some (g fn ln) ∧
      exec 20 (setter 2 (VBool false)) w1 = Ok tt w2 ∧
      vars w2 = [2%Z; 2%Z] ∧
      current <$> signals w2 !! 3 = Some fn ∧
      runScript 20 (map (setter 1) ls) w2 = Ok tt w3 ∧
      vars w3 = [2%Z; 2%Z] ∧
      exec 20 (setter 2 (VBool true)) w3 = Ok tt w4 ∧
      vars w4 = [3%Z; 3%Z] ∧
      current <$> signals w4 !! 3 = Some (g fn (default ln (last ls))) ∧
      exec 20 (setter 1 ln') w4 = Ok tt w5 ∧
      vars w5 = [4%Z; 4%Z] ∧
      current <$> signals w5 !! 3 = Some (g fn ln').
Proof.
  intros g fn ln ln' k ls.
  exists (name_world g fn ln true 1 1), (name_world g fn ln false 2 2),
         (name_world g fn (default ln (last ls)) false 2 2),
         (name_world g fn (default ln (last ls)) true 3 3),
         (name_world g fn ln' true 4 4).
  unfold name_setup. rewrite runScript_app. unfold bind at 1.
  rewrite name_memo_created, runScript_app. unfold bind at 1.
  rewrite (reads_untracked k 3 (name_memo_world g fn ln) _ eq_refl eq_refl).
  cbn [runScript]. unfold bind. rewrite name_reader_created.
  rewrite name_hide. change (Z.succ 1) with 2%Z.
  rewrite name_hidden_writes, name_show. change (Z.succ 2) with 3%Z.
  rewrite name_shown_write. change (Z.succ 3) with 4%Z.
  repeat split; reflexivity.
Qed.

Lemma NoDup_set_add x l : NoDup l → NoDup (set_add x l).
Proof.
  intros H. unfold set_add. destruct (set_has x l) eqn:E; [exact H|].
  apply NoDup_app. split; [exact H|]. split; [|apply NoDup_singleton].
  intros y Hy Hyx. apply list_elem_of_singleton in Hyx. subst y.
  assert (Ht : set_has x l = true).
  { unfold set_has. apply existsb_exists. exists x. split.
    - now apply list_elem_of_In.
    - apply Nat.eqb_refl. }
  congruence.
Qed.

Lemma NoDup_set_delete x l : NoDup l → NoDup (set_delete x l).
Proof.
  intros H. unfold set_delete. apply NoDup_ListNoDup, List.NoDup_filter.
  now apply NoDup_ListNoDup.
Qed.

Lemma keeps_sets_refl w : keeps_sets w w.
Proof. intros H. exact H. Qed.

Lemma keeps_sets_trans w1 w2 w3 :
  keeps_sets w1 w2 → keeps_sets w2 w3 → keeps_sets w1 w3.
Proof. unfold keeps_sets. auto. Qed.

Lemma keeps_sets_alter g s w :
  (∀ node, NoDup (observers node) → NoDup (observers (g node))) →
  keeps_sets w (set_signals (alter g s) w).
Proof.
  intros Hg H s' node Hn. simpl in Hn. rewrite list_lookup_alter in Hn.
  destruct (decide (s = s')) as [->|Hne]; [|eauto].
  destruct (signals w !! s') as [nd|] eqn:E; [|discriminate].
  simpl in Hn. inversion Hn; subst node. eauto.
Qed.

Lemma keeps_sets_new_signal nd w :
  observers nd = [] → keeps_sets w (set_signals (fun l => l ++ [nd]) w).
Proof.
  intros Hnd H s node Hn. simpl in Hn.
  apply lookup_app_Some in Hn as [Hn|[_ Hn]]; [eauto|].
  apply list_lookup_singleton_Some in Hn as [_ <-]. rewrite Hnd. constructor.
Qed.

Ltac sets_pre :=
  first [ exact keeps_sets_refl | exact keeps_sets_trans
        | intros; apply keeps_sets_alter; intros ? ?;
          first [ assumption | now apply NoDup_set_add
                | now apply NoDup_set_delete ]
        | intros; apply keeps_sets_new_signal; reflexivity
        | intros ? H; exact H ].

Lemma cleanup_sets_safe n e : sets_safe (cleanup n e).
Proof.
  unfold sets_safe. revert e.
  induction n as [|n IH]; intros e; [intros w; exact I|].
  simpl. unfold unobserve. repeat respects_step sets_pre. apply IH.
Qed.

Lemma read_sets_safe s : sets_safe (read s).
Proof.
  unfold sets_safe, read. repeat respects_step sets_pre.
Qed.

Lemma eval_sets_safe e : sets_safe (eval e).
Proof.
  unfold sets_safe.
  induction e; simpl; repeat respects_step sets_pre; apply read_sets_safe.
Qed.

Lemma schedule_sets_safe s : sets_safe (schedule s).
Proof.
  unfold sets_safe, schedule, schedule_observer, Updates_push.
  repeat respects_step sets_pre.
Qed.

(** Every engine function keeps the observer sets free of repetition. *)
Lemma engine_sets n :
  (∀ effect, sets_safe (runEffect n effect)) ∧
  (∀ cb, sets_safe cb → sets_safe (runUpdates n cb)) ∧
  (∀ i, sets_safe (flushLoop n i)) ∧
  sets_safe (flushUpdates n) ∧
  (∀ s v, sets_safe (write n s v)) ∧
  (∀ body, sets_safe (createEffect n body)) ∧
  (∀ body r, sets_safe (createMemo n body r)) ∧
  (∀ cb, sets_safe cb → sets_safe (batch n cb)) ∧
  (∀ c, sets_safe (exec n c)).
Proof.
  unfold sets_safe.
  induction n as [|n (IHrun & IHupd & IHloop & IHflush & IHwrite & IHeff
                      & IHmemo & IHbatch & IHexec)].
  { repeat split; intros; intros w; exact I. }
  assert (Hrun : ∀ effect, respects keeps_sets keeps_sets (runEffect (S n) effect)).
  { intros effect. simpl. repeat respects_step sets_pre.
    - apply cleanup_sets_safe.
    - apply respects_try_finally. intros w.
      eapply wp_mono.
      + apply respects_bind with (Rok := keeps_sets) (Rexn := keeps_sets);
          try sets_pre.
        * apply respects_get_effect; sets_pre.
        * intros e. apply IHupd, IHexec.
      + simpl. intros _ w' H. exact H.
      + simpl. intros _ w' H. exact H. }
  assert (Hupd : ∀ cb, respects keeps_sets keeps_sets cb →
                   respects keeps_sets keeps_sets (runUpdates (S n) cb)).
  { intros cb Hcb. simpl. repeat respects_step sets_pre. }
  repeat split; auto.
  - intros i. simpl. repeat respects_step sets_pre; auto.
  - simpl. repeat respects_step sets_pre; auto.
  - intros s v. simpl. repeat respects_step sets_pre.
    apply IHupd, schedule_sets_safe.
  - intros body. simpl. repeat respects_step sets_pre; auto.
  - intros body r. simpl. unfold createSignal.
    repeat respects_step sets_pre; auto.
  - intros c. destruct c; simpl; unfold createSignal;
      repeat respects_step sets_pre; auto; apply eval_sets_safe.
Qed.

Lemma runScript_sets fuel script : ∀ w w',
  sets_ok w → runScript fuel script w = Ok tt w' → sets_ok w'.
Proof.
  induction script as [|c script IH]; intros w w' Hs H; simpl in H.
  - inversion H; now subst.
  - apply bind_ok in H as (u & w1 & H1 & H2).
    destruct (engine_sets fuel) as (_ & _ & _ & _ & _ & _ & _ & _ & Hexec).
    eapply IH; [|exact H2].
    exact (wp_ok _ _ _ _ _ _ (Hexec c w) H1 Hs).
Qed.

Lemma sets_ok_empty nvars : sets_ok (empty_world nvars).
Proof. intros s nd Hs. simpl in Hs. inversion Hs. Qed.

Lemma filter_all {A} (p : A → bool) l :
  (∀ x, x ∈ l → p x = true) → List.filter p l = l.
Proof.
  induction l as [|x l IH]; intros H; simpl; [reflexivity|].
  rewrite (H x ltac:(left)). f_equal. apply IH. intros y Hy. apply H. now right.
Qed.

(** X16. In every world reached from the empty one by statements that
    return, a setter call that returns has first put all observers of the
    signal on the queue, in the order of the observer set, and has then run
    the queue from its head: the observers run in the order in which they
    last subscribed, before anything that they schedule. *)
Theorem outermost_write_runs_observers_in_subscription_order
    fuel script nvars w fuel' signal v node w' :
  runScript fuel script (empty_world nvars) = Ok tt w →
  signals w !! signal = Some node →
  write fuel' signal v w = Ok tt w' →
  ∃ m qf w1 w2,
    schedule signal (set_Updates (Some []) (store signal v w)) = Ok tt w1 ∧
    Updates w1 = Some (observers node) ∧
    runAll m qf w1 = Ok tt w2 ∧
    Updates w2 = Some qf ∧
    observers node `prefix_of` qf ∧
    w' = set_Updates None w2.
Proof.
  intros Hreach Hn H.
  destruct (runScript_quiescent _ _ _ _ (quiescent_empty nvars) Hreach)
    as (_ & _ & HU & Hp).
  assert (Hsets : sets_ok w).
  { apply (runScript_sets _ _ _ _ (sets_ok_empty nvars) Hreach). }
  set (w0 := set_Updates (Some []) (store signal v w)).
  assert (Hn0 : signals w0 !! signal = Some (with_current v node)).
  { unfold w0. simpl. now rewrite list_lookup_alter_eq, Hn. }
  assert (Hq0 : ∀ w1, schedule signal w0 = Ok tt w1 →
                  Updates w1 = Some (observers node)).
  { intros w1 H1. unfold schedule, bind, get_signal in H1. rewrite Hn0 in H1.
    rewrite (forEach_schedule_in_order _ w0 w1 [] eq_refl (Hsets _ _ Hn) H1).
    simpl. f_equal. apply filter_all. intros o _. unfold unmarked.
    destruct (marker w0 o) as [[]|] eqn:E; [|reflexivity].
    exfalso. apply (Hp o). exact E. }
  destruct fuel' as [|k]; [discriminate|].
  rewrite (write_unfold _ _ _ _ _ Hn) in H.
  destruct (observers node) as [|o os] eqn:Hobs.
  - inversion H; subst w'. exists 1, [], w0, w0.
    assert (Hs : schedule signal w0 = Ok tt w0).
    { unfold schedule, bind, get_signal. rewrite Hn0. simpl. now rewrite Hobs. }
    split; [exact Hs|]. split; [reflexivity|]. split; [reflexivity|].
    split; [reflexivity|]. split; [done|].
    unfold w0. now rewrite set_Updates_reopen.
  - destruct (runUpdates_outermost k (schedule signal) (store signal v w) w' HU H)
      as (m & q0 & qf & w1 & w2 & H1 & H2 & H3 & H4 & H5 & H6).
    exists m, qf, w1, w2.
    pose proof (Hq0 _ H1) as Hq. rewrite H2 in Hq. inversion Hq; subst q0.
    auto 10.
Qed.

Lemma outermost_write_runs_observers_in_subscription_order_witness :
  ∃ m qf w1 w2,
    schedule 0 (set_Updates (Some [])
                  (store 0 (VNum 9)
                     (final_world (runScript 20 relay_setup (empty_world 0)))))
      = Ok tt w1 ∧
    Updates w1 = Some [1; 2] ∧
    runAll m qf w1 = Ok tt w2 ∧
    Updates w2 = Some qf ∧
    [1; 2] `prefix_of` qf ∧
    final_world (write 20 0 (VNum 9)
                   (final_world (runScript 20 relay_setup (empty_world 0))))
    = set_Updates None w2.
Proof.
  apply (outermost_write_runs_observers_in_subscription_order
           20 relay_setup 0
           (final_world (runScript 20 relay_setup (empty_world 0)))
           20 0 (VNum 9) {| current := VNum 0; observers := [1; 2] |}).
  - vm_compute. reflexivity.
  - vm_compute. reflexivity.
  - vm_compute. reflexivity.
Defined.
